(** * Ride-leader allocation tool: a shallow embedding and its properties

    The development follows [ride_leader_allocation_tool.py]:
    [populate_graph] builds a NetworkX [DiGraph], [assign_ride_leaders]
    runs [nx.maximum_flow] and then [nx.min_cost_flow] on it, and
    [extract_allocations] reads the flow dictionary back into a
    leader -> rides mapping.

    NetworkX itself is a library outside the repository.  Its two solver
    entry points are therefore a parameter of the model, a [FlowSolver];
    what the library documents about them is the class [SolverContract].
    An exhaustive-search solver, [exhaustive], is shown to satisfy that
    contract, which makes every statement below about "any solver that
    honours the contract" a statement about at least one real function. *)

From Stdlib Require Import ZArith Lia String Ascii Decimal DecimalString DecimalNat.
From stdpp Require Import gmap strings list fin_maps.

Local Open Scope Z_scope.

(** ** Python built-ins used by the tool *)

Module Py.

(** [str(i)] for a non-negative [int]. *)
Definition str_of_nat (i : nat) : string :=
  NilEmpty.string_of_uint (Nat.to_uint i).

(** [s.replace(old, new)] for a non-empty [old]: scan left to right,
    replace every non-overlapping occurrence.  [skip] counts the
    characters of a matched occurrence that are still to be dropped. *)
Fixpoint replace_from (old new : string) (skip : nat) (s : string) : string :=
  match s with
  | EmptyString => EmptyString
  | String c s' =>
      match skip with
      | S k => replace_from old new k s'
      | O =>
          if String.prefix old s
          then new +:+ replace_from old new (String.length old - 1) s'
          else String c (replace_from old new O s')
      end
  end.

Definition replace (old new s : string) : string := replace_from old new O s.

(** [sub in s] for two strings. *)
Fixpoint contains (sub s : string) : bool :=
  String.prefix sub s
  || match s with
     | EmptyString => false
     | String _ s' => contains sub s'
     end.

End Py.

(** ** The part of [networkx.DiGraph] the tool uses

    A node carries an attribute dictionary in which only ['demand'] ever
    appears: [None] is "no such attribute".  An edge carries ['capacity']
    and ['weight'], always given together by this program.  A [DiGraph]
    keeps one edge per ordered pair of nodes: adding an edge that exists
    updates its attributes. *)

Record EdgeAttr : Type := { capacity : Z; weight : Z }.

Global Instance EdgeAttr_eq_dec : EqDecision EdgeAttr.
Proof. solve_decision. Defined.

Record DiGraph : Type := {
  nodes : gmap string (option Z);
  adj : gmap string (gmap string EdgeAttr)
}.

Module DiGraph.

Definition empty : DiGraph := {| nodes := ∅; adj := ∅ |}.

(** [G[u]]: the successors of [u] with the attributes of the edges. *)
Definition succ (g : DiGraph) (u : string) : gmap string EdgeAttr :=
  default ∅ (adj g !! u).

Definition edge (g : DiGraph) (u v : string) : option EdgeAttr :=
  succ g u !! v.

(** [G.add_node(n)] and [G.add_node(n, demand=d)]. *)
Definition add_node (n : string) (d : option Z) (g : DiGraph) : DiGraph :=
  {| nodes := <[n := match d with
                     | Some x => Some x
                     | None => default None (nodes g !! n)
                     end]> (nodes g);
     adj := adj g |}.

(** [G.add_edge(u, v, capacity=c, weight=w)]: both end points become
    nodes when they are not yet. *)
Definition add_edge (u v : string) (c w : Z) (g : DiGraph) : DiGraph :=
  {| nodes := nodes (add_node v None (add_node u None g));
     adj := <[u := <[v := {| capacity := c; weight := w |}]> (succ g u)]> (adj g) |}.

(** [G.nodes[n]['demand'] = d]: a [KeyError] ([None]) when [n] is not a
    node. *)
Definition set_demand (n : string) (d : Z) (g : DiGraph) : option DiGraph :=
  match nodes g !! n with
  | Some _ => Some {| nodes := <[n := Some d]> (nodes g); adj := adj g |}
  | None => None
  end.

(** [G.nodes[n].get('demand', 0)], as the min-cost solver reads it. *)
Definition demand (g : DiGraph) (n : string) : Z :=
  default 0 (default None (nodes g !! n)).

Definition node_list (g : DiGraph) : list string := (map_to_list (nodes g)).*1.

Definition edge_list (g : DiGraph) : list (string * string * EdgeAttr) :=
  '(u, nb) ← map_to_list (adj g);
  (λ '(v, a), (u, v, a)) <$> map_to_list nb.

(** The invariant NetworkX maintains: the end points of an edge are nodes. *)
Definition wf (g : DiGraph) : Prop :=
  ∀ u v a, edge g u v = Some a → is_Some (nodes g !! u) ∧ is_Some (nodes g !! v).

Definition caps_nonneg (g : DiGraph) : Prop :=
  ∀ u v a, edge g u v = Some a → 0 ≤ capacity a.

End DiGraph.

Import DiGraph.

(** ** Flows *)

Abbreviation FlowDict := (gmap string (gmap string Z)).
Abbreviation Flow := (string → string → Z).

Fixpoint zsum {A} (f : A → Z) (l : list A) : Z :=
  match l with
  | [] => 0
  | x :: l' => f x + zsum f l'
  end.

(** [flow_dict[u][v]], read as 0 where the dictionary has no entry. *)
Definition flow_of (fd : FlowDict) : Flow :=
  λ u v, default 0 (default ∅ (fd !! u) !! v).

Definition out_flow (g : DiGraph) (f : Flow) (n : string) : Z :=
  zsum (λ '(u, v, _), if decide (u = n) then f u v else 0) (edge_list g).

Definition in_flow (g : DiGraph) (f : Flow) (n : string) : Z :=
  zsum (λ '(u, v, _), if decide (v = n) then f u v else 0) (edge_list g).

(** [nx.cost_of_flow(G, flow_dict)]. *)
Definition cost (g : DiGraph) (f : Flow) : Z :=
  zsum (λ '(u, v, a), weight a * f u v) (edge_list g).

Definition capacity_ok (g : DiGraph) (f : Flow) : Prop :=
  ∀ u v a, edge g u v = Some a → 0 ≤ f u v ≤ capacity a.

(** A flow from [s] to [t] of value [F]: within capacity, conserved at
    every other node, net amount [F] leaving [s]. *)
Definition st_flow (g : DiGraph) (s t : string) (f : Flow) (F : Z) : Prop :=
  capacity_ok g f
  ∧ (∀ n, is_Some (nodes g !! n) → n ≠ s → n ≠ t → in_flow g f n = out_flow g f n)
  ∧ out_flow g f s - in_flow g f s = F.

(** A flow that meets the demand of every node (inflow minus outflow). *)
Definition demand_flow (g : DiGraph) (f : Flow) : Prop :=
  capacity_ok g f
  ∧ ∀ n, is_Some (nodes g !! n) → in_flow g f n - out_flow g f n = demand g n.

(** The layout of a flow dictionary as NetworkX builds it: a key for every
    node, and under it a key for every successor. *)
Definition flow_shape (g : DiGraph) (fd : FlowDict) : Prop :=
  dom fd = dom (nodes g)
  ∧ ∀ u nb, fd !! u = Some nb → dom nb = dom (succ g u).

(** ** The two NetworkX solvers *)

Inductive MinCostResult : Type :=
| FlowFound (flow_dict : FlowDict)
| NetworkXUnfeasible.

Record FlowSolver : Type := {
  maximum_flow : DiGraph → string → string → Z * FlowDict;
  min_cost_flow : DiGraph → MinCostResult
}.

(** What NetworkX documents: [maximum_flow] returns the value and the
    dictionary of a maximum flow; [min_cost_flow] returns a flow of least
    cost that meets all demands, and raises [NetworkXUnfeasible] exactly
    when no flow meets them.  With integer capacities and demands both
    return integer flows. *)
Class SolverContract (nx : FlowSolver) : Prop := {
  maximum_flow_spec g s t :
    wf g → caps_nonneg g →
    is_Some (nodes g !! s) → is_Some (nodes g !! t) → s ≠ t →
    flow_shape g (maximum_flow nx g s t).2
    ∧ st_flow g s t (flow_of (maximum_flow nx g s t).2) (maximum_flow nx g s t).1
    ∧ ∀ f F, st_flow g s t f F → F ≤ (maximum_flow nx g s t).1;
  min_cost_flow_spec g :
    wf g → caps_nonneg g →
    match min_cost_flow nx g with
    | FlowFound fd =>
        flow_shape g fd
        ∧ demand_flow g (flow_of fd)
        ∧ ∀ f, demand_flow g f → cost g (flow_of fd) ≤ cost g f
    | NetworkXUnfeasible => ∀ f, ¬ demand_flow g f
    end
}.

(** ** ride_leader_allocation_tool.py *)

Abbreviation Offers := (gmap string (list string)).
Abbreviation Allocations := (gmap string (list string)).

Definition SOURCE : string := "SOURCE".
Definition SINK : string := "SINK".

Definition leader_in (leader : string) : string := leader +:+ "_in".
Definition leader_out (leader : string) : string := leader +:+ "_out".
Definition slot_node (leader : string) (i : nat) : string :=
  leader +:+ "_slot_" +:+ Py.str_of_nat i.

Definition warning (offer leader : string) : string :=
  "Warning: Appointment '" +:+ offer +:+ "' for leader '" +:+ leader
  +:+ "' not found in all_appointments list.".

Definition unfeasible_message : string :=
  "No feasible flow found for the specified demand. Adjusting demand or graph might be needed.".

(** First loop of [populate_graph]: a node per ride and an edge from the
    source. *)
Definition add_rides (rides : list string) (g : DiGraph) : DiGraph :=
  foldl (λ g ride_id, add_edge SOURCE ride_id 1 0 (add_node ride_id (Some 0) g))
        g rides.

(** Inner loop of the second loop: the slots of one leader. *)
Definition add_slots (leader : string) (n : nat) (g : DiGraph) : DiGraph :=
  foldl (λ g i,
           add_edge (slot_node leader i) (leader_out leader) 1 (Z.of_nat i)
             (add_edge (leader_in leader) (slot_node leader i) 1 0
                (add_node (slot_node leader i) (Some 0) g)))
        g (seq 0 n).

(** Body of the second loop. *)
Definition add_leader (g : DiGraph) (item : string * list string) : DiGraph :=
  let '(leader, offers) := item in
  let leader_offer_count := length offers in
  let g := add_node (leader_in leader) (Some 0) g in
  let g := add_node (leader_out leader) (Some 0) g in
  let g := add_slots leader leader_offer_count g in
  add_edge (leader_out leader) SINK (Z.of_nat leader_offer_count) 0 g.

(** Body of the third loop; the second component collects what is
    printed. *)
Definition add_offers (rides : list string) (st : DiGraph * list string)
    (item : string * list string) : DiGraph * list string :=
  let '(leader, offers) := item in
  foldl (λ st offer,
           if bool_decide (offer ∈ rides)
           then (add_edge offer (leader_in leader) 1 0 st.1, st.2)
           else (st.1, st.2 ++ [warning offer leader]))
        st offers.

(** [populate_graph(rides, leaders_offers)]: the returned triple, and the
    lines printed on the way.  The dictionary is walked in the order of
    [map_to_list]; the graph does not depend on that order, the order of
    the printed lines does and is not specified below. *)
Definition populate_graph (rides : list string) (leaders_offers : Offers)
  : (DiGraph * string * string) * list string :=
  let graph := add_node SINK None (add_node SOURCE None DiGraph.empty) in
  let graph := add_rides rides graph in
  let graph := foldl add_leader graph (map_to_list leaders_offers) in
  let st := foldl (add_offers rides) (graph, []) (map_to_list leaders_offers) in
  ((st.1, SOURCE, SINK), st.2).

(** [assign_ride_leaders(graph, source, sink)].  The graph is mutated in
    place, so the graph after the call is part of the result; so are the
    printed lines.  [None] is an exception leaving the function. *)
Definition assign_ride_leaders (nx : FlowSolver) (graph : DiGraph)
    (source sink : string) : option (DiGraph * (Z * FlowDict) * list string) :=
  let max_flow_value := (maximum_flow nx graph source sink).1 in
  graph ← set_demand source (- max_flow_value) graph;
  graph ← set_demand sink max_flow_value graph;
  match min_cost_flow nx graph with
  | FlowFound flow_dict => Some (graph, (max_flow_value, flow_dict), [])
  | NetworkXUnfeasible => Some (graph, (0, ∅), [unfeasible_message])
  end.

(** [allocations[leader.replace('_in', '')].append(ride)] when
    [flow > 0]; a missing key is a [KeyError]. *)
Definition record_flow (ride : string) (acc : option Allocations)
    (item : string * Z) : option Allocations :=
  allocations ← acc;
  let '(leader, flow) := item in
  if bool_decide (0 < flow) then
    let key := Py.replace "_in" "" leader in
    l ← allocations !! key;
    Some (<[key := l ++ [ride]]> allocations)
  else Some allocations.

Definition record_ride (flow_dict : FlowDict) (acc : option Allocations)
    (ride : string) : option Allocations :=
  match flow_dict !! ride with
  | Some nb => foldl (record_flow ride) acc (map_to_list nb)
  | None => acc
  end.

(** [extract_allocations(flow_dict, rides, leader_offers)]. *)
Definition extract_allocations (flow_dict : FlowDict) (rides : list string)
    (leader_offers : Offers) : option Allocations :=
  let allocations : Allocations := (λ _, []) <$> leader_offers in
  foldl (record_ride flow_dict) (Some allocations) rides.

(** The three calls in sequence, as [tests()] makes them. *)
Record Outcome : Type := {
  allocation : Allocations;
  filled_count : Z;
  flow_dict : FlowDict;
  final_graph : DiGraph;
  stdout : list string
}.

Definition solve (nx : FlowSolver) (rides : list string) (leader_offers : Offers)
  : option Outcome :=
  let '((graph, source, sink), out1) := populate_graph rides leader_offers in
  '(graph', (rides_filled, flow_dict), out2) ← assign_ride_leaders nx graph source sink;
  allocations ← extract_allocations flow_dict rides leader_offers;
  Some {| allocation := allocations; filled_count := rides_filled;
          flow_dict := flow_dict; final_graph := graph';
          stdout := out1 ++ out2 |}.

Definition total_cost (o : Outcome) : Z := cost (final_graph o) (flow_of (flow_dict o)).

(** ** A reference solver by exhaustive search

    Every assignment of an integer between 0 and the capacity to every
    edge is tried.  It is only practical on small graphs; its purpose is to
    show that [SolverContract] can be met, and to run the tool on small
    inputs. *)

Module Exhaustive.

Definition zero_flow (g : DiGraph) : FlowDict :=
  map_imap (λ u _, Some ((λ _ : EdgeAttr, 0) <$> succ g u)) (nodes g).

Definition set_flow (u v : string) (x : Z) (fd : FlowDict) : FlowDict :=
  <[u := <[v := x]> (default ∅ (fd !! u))]> fd.

Definition candidates_over (es : list (string * string * EdgeAttr))
    (base : FlowDict) : list FlowDict :=
  foldr (λ '(u, v, a) acc,
           fd ← acc; (λ x, set_flow u v x fd) <$> seqZ 0 (capacity a + 1))
        [base] es.

Definition candidates (g : DiGraph) : list FlowDict :=
  candidates_over (edge_list g) (zero_flow g).

Definition value (g : DiGraph) (s : string) (f : Flow) : Z :=
  out_flow g f s - in_flow g f s.

Definition conserving (g : DiGraph) (s t : string) (fd : FlowDict) : Prop :=
  Forall (λ n, n = s ∨ n = t ∨ in_flow g (flow_of fd) n = out_flow g (flow_of fd) n)
         (node_list g).

Definition meets_demands (g : DiGraph) (fd : FlowDict) : Prop :=
  Forall (λ n, in_flow g (flow_of fd) n - out_flow g (flow_of fd) n = demand g n)
         (node_list g).

Global Instance conserving_dec g s t fd : Decision (conserving g s t fd).
Proof. unfold conserving. apply _. Defined.

Global Instance meets_demands_dec g fd : Decision (meets_demands g fd).
Proof. unfold meets_demands. apply _. Defined.

Definition argmax (score : FlowDict → Z) (d : FlowDict) (l : list FlowDict) : FlowDict :=
  foldr (λ fd acc, if bool_decide (score acc < score fd) then fd else acc) d l.

Definition maximum_flow (g : DiGraph) (s t : string) : Z * FlowDict :=
  match filter (conserving g s t) (candidates g) with
  | [] => (0, zero_flow g)
  | fd :: l =>
      let best := argmax (λ fd, value g s (flow_of fd)) fd l in
      (value g s (flow_of best), best)
  end.

Definition min_cost_flow (g : DiGraph) : MinCostResult :=
  match filter (meets_demands g) (candidates g) with
  | [] => NetworkXUnfeasible
  | fd :: l => FlowFound (argmax (λ fd, - cost g (flow_of fd)) fd l)
  end.

End Exhaustive.

Definition exhaustive : FlowSolver :=
  {| maximum_flow := Exhaustive.maximum_flow;
     min_cost_flow := Exhaustive.min_cost_flow |}.

(** ** Bounds on flows from node potentials *)

(** The lower bound that a potential [π] gives on the cost of any flow
    meeting the demands (the value of the dual of the min-cost problem). *)
Definition dual_value (g : DiGraph) (π : string → Z) : Z :=
  zsum (λ n, π n * demand g n) (node_list g)
  + zsum (λ '(u, v, a), Z.min 0 (weight a + π u - π v) * capacity a) (edge_list g).

(** The upper bound that a potential gives on the value of any flow; for
    a 0/1 potential it is the capacity of a cut. *)
Definition cut_value (g : DiGraph) (π : string → Z) : Z :=
  zsum (λ '(u, v, a), Z.max 0 (π v - π u) * capacity a) (edge_list g).

(** What the two solver calls of [assign_ride_leaders] establish together:
    [fd] is a flow from [s] to [t] of the greatest possible value [F], and
    of the least cost among the flows of that value. *)
Definition max_flow_min_cost (g : DiGraph) (s t : string) (F : Z) (fd : FlowDict) : Prop :=
  flow_shape g fd
  ∧ st_flow g s t (flow_of fd) F
  ∧ (∀ f F', st_flow g s t f F' → F' ≤ F)
  ∧ (∀ f, st_flow g s t f F → cost g (flow_of fd) ≤ cost g f).

(** ** Node names

    All nodes live in one name space of strings.  The names the tool makes
    up are told apart by their last character; [reserved_nodes] lists the
    names a ride id must stay away from for the network to have the
    intended shape. *)

Fixpoint last_char (s : string) : ascii :=
  match s with
  | EmptyString => "000"%char
  | String c EmptyString => c
  | String _ s' => last_char s'
  end.

Definition leader_nodes (item : string * list string) : list string :=
  leader_in item.1 :: leader_out item.1
  :: (slot_node item.1 <$> seq 0 (length item.2)).

Definition reserved_nodes (leader_offers : Offers) : list string :=
  SOURCE :: SINK :: (map_to_list leader_offers ≫= leader_nodes).

(** The inputs the network construction is meant for: ride ids are
    unique, and none of them is the name of the source, of the sink or of
    a node generated for a leader. *)
Definition valid_input (rides : list string) (leader_offers : Offers) : Prop :=
  NoDup rides ∧ Forall (λ r, r ∉ reserved_nodes leader_offers) rides.

(** Leader ids on which [leader.replace('_in', '')] undoes the naming of
    the [LeaderIn] node: ids without the substring ["_in"]. *)
Definition plain_leader_ids (leader_offers : Offers) : Prop :=
  map_Forall (λ leader _, Py.contains "_in" leader = false) leader_offers.

Definition is_digit (c : ascii) : Prop :=
  c ∈ ["0"; "1"; "2"; "3"; "4"; "5"; "6"; "7"; "8"; "9"]%char.

(** ** The network [populate_graph] is meant to build (spec 4.2) *)

Inductive edge_spec (rides : list string) (leader_offers : Offers)
  : string → string → EdgeAttr → Prop :=
| es_ride r :
    r ∈ rides →
    edge_spec rides leader_offers SOURCE r {| capacity := 1; weight := 0 |}
| es_slot_in leader offers i :
    leader_offers !! leader = Some offers → (i < length offers)%nat →
    edge_spec rides leader_offers (leader_in leader) (slot_node leader i)
      {| capacity := 1; weight := 0 |}
| es_slot_out leader offers i :
    leader_offers !! leader = Some offers → (i < length offers)%nat →
    edge_spec rides leader_offers (slot_node leader i) (leader_out leader)
      {| capacity := 1; weight := Z.of_nat i |}
| es_sink leader offers :
    leader_offers !! leader = Some offers →
    edge_spec rides leader_offers (leader_out leader) SINK
      {| capacity := Z.of_nat (length offers); weight := 0 |}
| es_offer leader offers r :
    leader_offers !! leader = Some offers → r ∈ offers → r ∈ rides →
    edge_spec rides leader_offers r (leader_in leader)
      {| capacity := 1; weight := 0 |}.

(** A graph the solvers accept, with no demand set yet. *)
Definition tidy (g : DiGraph) : Prop :=
  wf g ∧ caps_nonneg g ∧ ∀ n, demand g n = 0.

(** [g'] has every node and every edge of [g] (attributes may differ). *)
Definition grows (g g' : DiGraph) : Prop :=
  (∀ n, is_Some (nodes g !! n) → is_Some (nodes g' !! n))
  ∧ (∀ u v, is_Some (edge g u v) → is_Some (edge g' u v)).

(** The graph [populate_graph] returns. *)
Definition built (rides : list string) (leader_offers : Offers) : DiGraph :=
  (populate_graph rides leader_offers).1.1.1.

(** ** Reading [extract_allocations] as a list of appends

    [appends flow_dict rides] lists, in the order the two loops meet them,
    the pairs (dictionary key, ride) of the [append] calls that
    [extract_allocations] makes; [append_ride] is one such call. *)

Definition append_ride (acc : option Allocations) (e : string * string)
  : option Allocations :=
  allocations ← acc;
  l ← allocations !! e.1;
  Some (<[e.1 := l ++ [e.2]]> allocations).

Definition positive_flows (nb : gmap string Z) : list (string * Z) :=
  filter (λ item, 0 < item.2) (map_to_list nb).

Definition appends_of (flow_dict : FlowDict) (ride : string) : list (string * string) :=
  match flow_dict !! ride with
  | Some nb => (λ item, (Py.replace "_in" "" item.1, ride)) <$> positive_flows nb
  | None => []
  end.

Definition appends (flow_dict : FlowDict) (rides : list string)
  : list (string * string) :=
  rides ≫= appends_of flow_dict.

(** The rides appended under key [k]. *)
Definition appended (k : string) (evs : list (string * string)) : list string :=
  (filter (λ e, e.1 = k) evs).*2.

(** [sum(len(allocation[leader]) for leader in allocation)]. *)
Definition assigned_total (allocations : Allocations) : Z :=
  zsum (λ item, Z.of_nat (length item.2)) (map_to_list allocations).

(** ** Small inputs used as witnesses *)

Definition one_ride : list string := ["R1"].
Definition one_offer : Offers := {[ "A" := ["R1"] ]}.

Global Instance valid_input_dec rides leader_offers :
  Decision (valid_input rides leader_offers).
Proof. unfold valid_input. apply _. Defined.

Global Instance plain_leader_ids_dec leader_offers :
  Decision (plain_leader_ids leader_offers).
Proof. unfold plain_leader_ids. apply _. Defined.

(** ** A defective solver

    [overestimating] answers the first phase with one unit more than the
    maximum flow and runs the second phase correctly: the kind of defect
    after which the second phase finds the demand unfeasible. *)
Definition overestimating : FlowSolver :=
  {| maximum_flow g s t :=
       ((Exhaustive.maximum_flow g s t).1 + 1, (Exhaustive.maximum_flow g s t).2);
     min_cost_flow := Exhaustive.min_cost_flow |}.

(** The two assignments to ['demand'] in [assign_ride_leaders]. *)
Definition with_demands (graph : DiGraph) (source sink : string) (F : Z)
  : option DiGraph :=
  graph ← set_demand source (- F) graph; set_demand sink F graph.

(** The warnings [populate_graph] prints for one leader, in the order of
    the leader's offers. *)
Definition warnings_of (rides : list string) (item : string * list string)
  : list string :=
  (λ offer, warning offer item.1) <$> filter (λ offer, offer ∉ rides) item.2.

(** ** Leader ids that contain ["_in"] *)

(** One ride, offered by a leader whose id ends in ["_in"]. *)
Definition suffix_offers : Offers := {[ "A_in" := ["R1"] ]}.

(** One ride, offered by ["A_inB"] and not by ["AB"]. *)
Definition merged_offers : Offers := <[ "A_inB" := ["R1"] ]> {[ "AB" := [] ]}.

(** ** Checking a given flow by computation *)

Definition in_edges (g : DiGraph) (n : string) : list (string * string * EdgeAttr) :=
  filter (λ e, e.1.2 = n) (edge_list g).

Definition out_edges (g : DiGraph) (n : string) : list (string * string * EdgeAttr) :=
  filter (λ e, e.1.1 = n) (edge_list g).

(** [st_flow] over the lists of the edges and of the nodes, which makes
    it decidable. *)
Definition st_flow_listed (g : DiGraph) (s t : string) (f : Flow) (F : Z) : Prop :=
  Forall (λ e, 0 ≤ f e.1.1 e.1.2 ≤ capacity e.2) (edge_list g)
  ∧ Forall (λ n, n = s ∨ n = t ∨ in_flow g f n = out_flow g f n) (node_list g)
  ∧ out_flow g f s - in_flow g f s = F.

Global Instance st_flow_listed_dec g s t f F : Decision (st_flow_listed g s t f F).
Proof. unfold st_flow_listed. apply _. Defined.

(** The flow that sends one unit along each of the given paths. *)
Definition path_flow (paths : list (list string)) : Flow :=
  λ u v, Z.of_nat (length (filter (λ p, (u, v) ∈ zip p (tail p)) paths)).

(** The lower bound that a potential gives on the cost of any flow of
    value [F] from [s] to [t]. *)
Definition dual_value_st (g : DiGraph) (s t : string) (F : Z) (π : string → Z) : Z :=
  (π t - π s) * F
  + zsum (λ '(u, v, a), Z.min 0 (weight a + π u - π v) * capacity a) (edge_list g).

(** ** Scenario A of the spec *)

Definition scenario_rides : list string := ["R1"; "R2"; "R3"; "R4"; "R5"; "R6"].

Definition scenario_offers : Offers :=
  <[ "X" := ["R1"; "R2"; "R3"] ]>
    (<[ "Y" := ["R1"; "R2"; "R4"; "R5"] ]> {[ "Z" := ["R3"; "R4"; "R5"] ]}).

(** Five rides filled at cost 2: X takes R1 and R2, Y takes R4 and R5, Z
    takes R3. *)
Definition scenario_flow : Flow :=
  path_flow
    [ ["SOURCE"; "R1"; "X_in"; "X_slot_0"; "X_out"; "SINK"];
      ["SOURCE"; "R2"; "X_in"; "X_slot_1"; "X_out"; "SINK"];
      ["SOURCE"; "R3"; "Z_in"; "Z_slot_0"; "Z_out"; "SINK"];
      ["SOURCE"; "R4"; "Y_in"; "Y_slot_0"; "Y_out"; "SINK"];
      ["SOURCE"; "R5"; "Y_in"; "Y_slot_1"; "Y_out"; "SINK"] ].

(** The cut that separates the source and the ride nobody offers from
    the rest. *)
Definition scenario_cut : string → Z :=
  λ n, if decide (n ∈ ["SOURCE"; "R6"]) then 0 else 1.

(** Potential 1 on the out nodes and on the sink, 0 elsewhere. *)
Definition scenario_potential : string → Z :=
  λ n, if decide (n ∈ ["X_out"; "Y_out"; "Z_out"; "SINK"]) then 1 else 0.

(** A ride that at least one leader offers. *)
Definition offered (leader_offers : Offers) (ride : string) : Prop :=
  Exists (λ item : string * list string, ride ∈ item.2) (map_to_list leader_offers).

Global Instance offered_dec leader_offers ride : Decision (offered leader_offers ride).
Proof. unfold offered. apply _. Defined.

(** ** Assignments of rides to leaders

    An assignment gives some rides a leader each: a list of pairs (ride,
    leader) in which no ride stands twice, every ride is one of [rides] and
    is offered by the leader it is paired with.  It is what the tool is
    asked to find, stated without a network. *)

Definition assignment (rides : list string) (leader_offers : Offers)
    (m : list (string * string)) : Prop :=
  NoDup m.*1
  ∧ Forall (λ e, e.1 ∈ rides
                 ∧ ∃ offers, leader_offers !! e.2 = Some offers ∧ e.1 ∈ offers) m.

(** The number of rides an assignment gives to a leader. *)
Definition load (m : list (string * string)) (leader : string) : nat :=
  length (filter (λ e, e.2 = leader) m).

(** The cost of the first [n] slots of a leader: [0 + 1 + ... + (n - 1)],
    the weights [populate_graph] puts on the slot edges. *)
Definition slots_cost (n : nat) : Z := zsum Z.of_nat (seq 0 n).

(** What the leveling asks to make small: the cost of the slots taken,
    summed over the leaders. *)
Definition assignment_cost (leader_offers : Offers) (m : list (string * string)) : Z :=
  zsum (λ item, slots_cost (load m item.1)) (map_to_list leader_offers).

Definition leveling_cost (allocations : Allocations) : Z :=
  zsum (λ item, slots_cost (length item.2)) (map_to_list allocations).

(** The pairs (ride, leader) of an allocation. *)
Definition allocation_pairs (allocations : Allocations) : list (string * string) :=
  item ← map_to_list allocations; (λ ride, (ride, item.1)) <$> item.2.

(** Every pair of an assignment with a slot of its leader: the number of
    later pairs with the same leader. *)
Fixpoint slotted (m : list (string * string)) : list (string * string * nat) :=
  match m with
  | [] => []
  | e :: m' => (e, load m' e.2) :: slotted m'
  end.

(** The five edges along which the unit of flow of a slotted pair runs. *)
Definition unit_path (x : string * string * nat) : list (string * string) :=
  [ (SOURCE, x.1.1);
    (x.1.1, leader_in x.1.2);
    (leader_in x.1.2, slot_node x.1.2 x.2);
    (slot_node x.1.2 x.2, leader_out x.1.2);
    (leader_out x.1.2, SINK) ].

(** The flow that sends one unit along each of the given lists of edges. *)
Definition paths_flow (ps : list (list (string * string))) : Flow :=
  λ u v, zsum (λ p, zsum (λ e, if decide (e = (u, v)) then 1 else 0) p) ps.

Definition assignment_flow (m : list (string * string)) : Flow :=
  paths_flow (unit_path <$> slotted m).

(** ** Exceptions and printing

    A function of the scripts runs on a state, prints lines and either
    returns or raises: [Run S A] threads the state and the printed lines,
    and an exception stops the run where it is raised, keeping what was
    printed before. *)

Inductive Raised : Type :=
| KeyError (key : string)
| AssertionError (message : string)
| UnfeasibleRaised
| NetworkXError.

Definition Run (S A : Type) : Type :=
  S → list string → (S * list string) * (Raised + A).

Global Instance run_ret {S} : MRet (Run S) := λ A x s out, ((s, out), inr x).

Global Instance run_bind {S} : MBind (Run S) :=
  λ A B f m s out,
    match m s out with
    | (w, inl e) => (w, inl e)
    | ((s', out'), inr x) => f x s' out'
    end.

Definition raise {S A} (e : Raised) : Run S A := λ s out, ((s, out), inl e).

Definition print {S} (line : string) : Run S unit := λ s out, ((s, out ++ [line]), inr tt).

Definition get {S} : Run S S := λ s out, ((s, out), inr s).

Definition put {S} (s : S) : Run S unit := λ _ out, ((s, out), inr tt).

(** [assert condition, message]. *)
Definition assert_ {S} (condition : bool) (message : string) : Run S unit :=
  if condition then mret tt else raise (AssertionError message).

(** [for x in l: body(x)]. *)
Fixpoint for_each {S A} (l : list A) (body : A → Run S unit) : Run S unit :=
  match l with
  | [] => mret tt
  | x :: l' => body x ;; for_each l' body
  end.

(** [str(z)] for an [int], and the line feed of ["\n"]. *)
Definition str_of_int (z : Z) : string :=
  match z with
  | Zneg p => "-" +:+ Py.str_of_nat (Pos.to_nat p)
  | _ => Py.str_of_nat (Z.to_nat z)
  end.

Definition nl : string := String "010"%char EmptyString.

(** ** minimal_example.py

    The module keeps one graph [G], which its functions change in place:
    it is the state of the runs.  Where the script walks over the nodes,
    the edges or a dictionary, the model walks in the order of
    [map_to_list]; the order of the printed lines is therefore not that of
    the script, and nothing below depends on it. *)

Module MinimalExample.

Definition SOURCE : string := "a".
Definition SINK : string := "d".

(** [G.nodes[n]['demand'] = d]. *)
Definition assign_demand (n : string) (d : Z) : Run DiGraph unit :=
  G ← get;
  match set_demand n d G with
  | Some G' => put G'
  | None => raise (KeyError n)
  end.

Definition set_demands (source_demand sink_demand : Z) : Run DiGraph unit :=
  assign_demand SOURCE source_demand;;
  assign_demand SINK sink_demand.

(** [G.add_edge(u, v, capacity=c, weight=w)] on the graph of the module. *)
Definition G_add_edge (u v : string) (c w : Z) : Run DiGraph unit :=
  G ← get; put (add_edge u v c w G).

Definition setup_the_graph : Run DiGraph unit :=
  G_add_edge SOURCE "b" 2 3;;
  G_add_edge "b" SINK 2 0;;
  G_add_edge SOURCE "c" 1 2;;
  G_add_edge "c" SINK 1 0.

(** The attributes of a node and of an edge as [print] shows them. *)
Definition repr_node (item : string * option Z) : string :=
  "('" +:+ item.1 +:+ "', "
  +:+ match item.2 with
      | Some d => "{'demand': " +:+ str_of_int d +:+ "}"
      | None => "{}"
      end
  +:+ ")".

Definition repr_edge_data (a : EdgeAttr) : string :=
  "{'capacity': " +:+ str_of_int (capacity a)
  +:+ ", 'weight': " +:+ str_of_int (weight a) +:+ "}".

Definition print_graph_info : Run DiGraph unit :=
  print "Graph nodes and their attributes:";;
  G ← get;
  for_each (map_to_list (nodes G)) (λ node, print (repr_node node));;
  print (nl +:+ "Graph edges and their attributes:");;
  for_each (edge_list G)
    (λ e, print (e.1.1 +:+ " -> " +:+ e.1.2 +:+ ": " +:+ repr_edge_data e.2)).

(** [G[u][v]['weight']]: a [KeyError] when [u] is not a node, or [v] not
    a successor of [u]. *)
Definition edge_weight (u v : string) : Run DiGraph Z :=
  G ← get;
  match nodes G !! u with
  | None => raise (KeyError u)
  | Some _ =>
      match edge G u v with
      | Some a => mret (weight a)
      | None => raise (KeyError v)
      end
  end.

Definition print_flow (flow_dict : FlowDict) : Run DiGraph unit :=
  print (nl +:+ "Flow on each edge:");;
  for_each (map_to_list flow_dict) (λ item,
    for_each (map_to_list item.2) (λ entry,
      w ← edge_weight item.1 entry.1;
      print ("Flow from " +:+ item.1 +:+ " to " +:+ entry.1 +:+ ": "
             +:+ str_of_int entry.2 +:+ ", cost: " +:+ str_of_int (w * entry.2)))).

(** [nx.min_cost_flow(G)] with no [try] around it. *)
Definition min_cost_flow_of_G (nx : FlowSolver) : Run DiGraph FlowDict :=
  G ← get;
  match min_cost_flow nx G with
  | FlowFound flow_dict => mret flow_dict
  | NetworkXUnfeasible => raise UnfeasibleRaised
  end.

Definition number_of_nodes (G : DiGraph) : Z := Z.of_nat (size (nodes G)).
Definition number_of_edges (G : DiGraph) : Z := Z.of_nat (length (edge_list G)).

Definition tests (nx : FlowSolver) : Run DiGraph unit :=
  setup_the_graph;;
  let demand := 1 in
  set_demands (- demand) demand;;
  G ← get;
  assert_ (bool_decide (number_of_nodes G = 4)) "Graph should have 4 nodes";;
  assert_ (bool_decide (number_of_edges G = 4)) "Graph should have 4 edges";;
  print_graph_info;;
  G ← get;
  let flow_value := (maximum_flow nx G SOURCE SINK).1 in
  let flow_dict := (maximum_flow nx G SOURCE SINK).2 in
  assert_ (bool_decide (flow_value = 3)) "Maximum flow should be 3";;
  print (nl +:+ "Maximum flow value: " +:+ str_of_int flow_value);;
  print_flow flow_dict;;
  flow_dict ← min_cost_flow_of_G nx;
  G ← get;
  let min_cost := cost G (flow_of flow_dict) in
  assert_ (bool_decide (min_cost = 2))
    ("Minimum cost should be 2 for demand " +:+ str_of_int demand);;
  print (nl +:+ "Minimum cost for demand=" +:+ str_of_int demand +:+ ": "
         +:+ str_of_int min_cost);;
  print_flow flow_dict;;
  let demand := 2 in
  set_demands (- demand) demand;;
  flow_dict ← min_cost_flow_of_G nx;
  G ← get;
  let min_cost := cost G (flow_of flow_dict) in
  assert_ (bool_decide (min_cost = 5))
    ("Minimum cost should be 5 for demand " +:+ str_of_int demand);;
  print (nl +:+ "Minimum cost for demand=" +:+ str_of_int demand +:+ ": "
         +:+ str_of_int min_cost);;
  print_flow flow_dict.

(** The graph after [setup_the_graph()] on the empty graph the module
    starts with. *)
Definition example_graph : DiGraph :=
  add_edge "c" SINK 1 0 (add_edge SOURCE "c" 1 2
    (add_edge "b" SINK 2 0 (add_edge SOURCE "b" 2 3 DiGraph.empty))).

(** The cheapest way to send [k] units: one through ["c"] at 2, the
    others through ["b"] at 3 each. *)
Definition example_flow (k : Z) : Flow :=
  λ u v, if decide (u = "c" ∨ v = "c") then Z.min k 1 else Z.max (k - 1) 0.

Definition example_cost (k : Z) : Z := 2 * Z.min k 1 + 3 * Z.max (k - 1) 0.

End MinimalExample.

(** The line [print_flow] prints for one entry of the flow dictionary. *)
Definition flow_line (G : DiGraph) (u : string) (entry : string * Z) : string :=
  "Flow from " +:+ u +:+ " to " +:+ entry.1 +:+ ": " +:+ str_of_int entry.2
  +:+ ", cost: " +:+ str_of_int (default 0 (weight <$> edge G u entry.1) * entry.2).

(** An entry of a flow dictionary for which [G[u][v]] can be read. *)
Definition readable (G : DiGraph) (u v : string) : Prop :=
  is_Some (nodes G !! u) ∧ is_Some (edge G u v).

Definition is_key_error (e : Raised) : Prop := ∃ key, e = KeyError key.

(** The graph of minimal_example.py once the demands [sd] and [kd] have
    been set on its source and sink: the nodes and the edges of
    [example_graph], and no other demand. *)
Definition example_with_demands (G : DiGraph) (sd kd : Z) : Prop :=
  adj G = adj MinimalExample.example_graph
  ∧ (∀ n, is_Some (nodes G !! n) ↔ is_Some (nodes MinimalExample.example_graph !! n))
  ∧ demand G MinimalExample.SOURCE = sd
  ∧ demand G MinimalExample.SINK = kd
  ∧ ∀ n, n ≠ MinimalExample.SOURCE → n ≠ MinimalExample.SINK → demand G n = 0.

(** Potentials and cuts used to bound the flows of [example_graph]. *)
Definition example_potential (p : Z) : string → Z :=
  λ n, if decide (n = MinimalExample.SOURCE) then 0 else p.

Definition example_back_cut : string → Z :=
  λ n, if decide (n = MinimalExample.SOURCE) then 1 else 0.

(** ** test_vectors.py and [tests()] of the tool

    A test vector is a dictionary with string keys whose values are a list
    of ride ids or a dictionary of offers. *)

Inductive Value : Type :=
| RideList (rides : list string)
| OfferDict (offers : Offers).

Global Instance Value_eq_dec : EqDecision Value.
Proof. solve_decision. Defined.

Definition test_vectors : gmap string (gmap string Value) :=
  <[ "test1" :=
       <[ "rides" := RideList ["A1"; "A2"; "A3"; "A4"; "A5"; "A6"] ]>
       {[ "leader_offers" :=
            OfferDict (<[ "Leader_X" := ["A1"; "A2"; "A3"] ]>
                       (<[ "Leader_Y" := ["A1"; "A2"; "A4"; "A5"] ]>
                        {[ "Leader_Z" := ["A3"; "A4"; "A5"] ]})) ]} ]>
  {[ "test2" :=
       <[ "rides" := RideList ["9:00AM"; "9:30AM"; "10:00AM"; "10:30AM";
                               "11:00AM"; "11:30AM"] ]>
       {[ "leader_offers" :=
            OfferDict (<[ "Alice" := ["9:00AM"; "9:30AM"; "10:00AM"] ]>
                       (<[ "Bob" := ["9:30AM"; "10:00AM"; "10:30AM"; "11:00AM"] ]>
                        (<[ "Charlie" := ["10:00AM"; "10:30AM"; "11:00AM"] ]>
                         {[ "David" := ["9:00AM"; "11:00AM"] ]}))) ]} ]}.

(** [d[key]]. *)
Definition subscript {S V} (d : gmap string V) (key : string) : Run S V :=
  match d !! key with
  | Some v => mret v
  | None => raise (KeyError key)
  end.

(** A value where a list of rides, or a dictionary of offers, is
    expected.  Iterating over a dictionary gives its keys; the vectors of
    the repository never put a list where a dictionary is expected. *)
Definition as_rides (v : Value) : list string :=
  match v with
  | RideList rides => rides
  | OfferDict offers => (map_to_list offers).*1
  end.

Definition as_offers (v : Value) : Offers :=
  match v with
  | RideList _ => ∅
  | OfferDict offers => offers
  end.

(** The key that [extract_allocations] does not find, when there is one:
    that of the first append whose key is not a leader id. *)
Definition missing_key (flow_dict : FlowDict) (rides : list string)
    (leader_offers : Offers) : option string :=
  (λ found : nat * (string * string), found.2.1)
    <$> list_find (λ e, leader_offers !! e.1 = None) (appends flow_dict rides).

Section tests.
Context (nx : FlowSolver).

(** What is outside the repository or random: [pprint], as the lines it
    prints, and the call of [generate_test_data], as a run of its own. *)
Context (pprint : Allocations → list string).
Context (generate_test_data : Run unit (list string * Offers)).

Definition call_populate_graph (rides : list string) (leader_offers : Offers)
  : Run unit (DiGraph * string * string) :=
  for_each (populate_graph rides leader_offers).2 print;;
  mret (populate_graph rides leader_offers).1.

(** [nx.maximum_flow] refuses a source or a sink that is not a node of
    the graph: that is the exception of [assign_ride_leaders]. *)
Definition call_assign_ride_leaders (graph : DiGraph) (source sink : string)
  : Run unit (Z * FlowDict) :=
  match assign_ride_leaders nx graph source sink with
  | Some (_, result, printed) => for_each printed print;; mret result
  | None => raise NetworkXError
  end.

Definition call_extract_allocations (flow_dict : FlowDict) (rides : list string)
    (leader_offers : Offers) : Run unit Allocations :=
  match extract_allocations flow_dict rides leader_offers with
  | Some allocations => mret allocations
  | None => raise (KeyError (default "" (missing_key flow_dict rides leader_offers)))
  end.

Definition tests : Run unit unit :=
  print (nl +:+ "Running simple test case #1");;
  vector ← subscript test_vectors "test1";
  rides ← subscript vector "rides";
  vector ← subscript test_vectors "test1";
  leader_offers ← subscript vector "leader_offers";
  vector ← subscript test_vectors "test1";
  expected_allocations ← subscript vector "expected_allocations";
  let rides := as_rides rides in
  let leader_offers := as_offers leader_offers in
  '(graph, source, sink) ← call_populate_graph rides leader_offers;
  '(rides_filled, flow_dict) ← call_assign_ride_leaders graph source sink;
  allocations ← call_extract_allocations flow_dict rides leader_offers;
  for_each (pprint allocations) print;;
  print ("Number of filled rides: " +:+ str_of_int rides_filled +:+ " out of "
         +:+ str_of_int (Z.of_nat (length rides)));;
  allocations ← call_extract_allocations flow_dict rides leader_offers;
  assert_ (bool_decide (OfferDict allocations = expected_allocations))
    "Test case #1 failed";;
  print (nl +:+ "Running simple test case #2");;
  vector ← subscript test_vectors "test2";
  rides ← subscript vector "rides";
  vector ← subscript test_vectors "test2";
  leader_offers ← subscript vector "leader_offers";
  vector ← subscript test_vectors "test2";
  expected_allocations ← subscript vector "expected_allocations";
  let rides := as_rides rides in
  let leader_offers := as_offers leader_offers in
  '(graph, source, sink) ← call_populate_graph rides leader_offers;
  '(rides_filled, flow_dict) ← call_assign_ride_leaders graph source sink;
  allocations ← call_extract_allocations flow_dict rides leader_offers;
  for_each (pprint allocations) print;;
  print ("Number of filled rides: " +:+ str_of_int rides_filled +:+ " out of "
         +:+ str_of_int (Z.of_nat (length rides)));;
  allocations ← call_extract_allocations flow_dict rides leader_offers;
  assert_ (bool_decide (OfferDict allocations = expected_allocations))
    "Test case #2 failed";;
  print (nl +:+ "Running complex test case #1");;
  '(rides, leader_offers) ← generate_test_data;
  '(graph, source, sink) ← call_populate_graph rides leader_offers;
  '(rides_filled, flow_dict) ← call_assign_ride_leaders graph source sink;
  allocations ← call_extract_allocations flow_dict rides leader_offers;
  for_each (pprint allocations) print;;
  print ("Number of filled rides: " +:+ str_of_int rides_filled +:+ " out of "
         +:+ str_of_int (Z.of_nat (length rides)));;
  print "".

End tests.

(** * Properties *)

(** ** Sums over lists *)

Section zsum.
Context {A : Type}.
Implicit Types (f g : A → Z) (l : list A).

Lemma zsum_app f l1 l2 : zsum f (l1 ++ l2) = zsum f l1 + zsum f l2.
Proof. induction l1 as [|x l1 IH]; simpl; [done | lia]. Qed.

Lemma zsum_ext f g l : (∀ x, x ∈ l → f x = g x) → zsum f l = zsum g l.
Proof.
  induction l as [|x l IH]; intros Hfg; simpl; [done |].
  rewrite (Hfg x), IH; [done | | by left].
  intros y Hy. apply Hfg. by right.
Qed.

Lemma zsum_le f g l : (∀ x, x ∈ l → f x ≤ g x) → zsum f l ≤ zsum g l.
Proof.
  induction l as [|x l IH]; intros Hfg; simpl; [done |].
  pose proof (Hfg x (list_elem_of_here _ _)).
  assert (zsum f l ≤ zsum g l); [| lia].
  apply IH. intros y Hy. apply Hfg. by right.
Qed.

Lemma zsum_zero f l : (∀ x, x ∈ l → f x = 0) → zsum f l = 0.
Proof.
  induction l as [|x l IH]; intros Hf; simpl; [done |].
  rewrite (Hf x), IH; [done | | by left].
  intros y Hy. apply Hf. by right.
Qed.

Lemma zsum_nonneg f l : (∀ x, x ∈ l → 0 ≤ f x) → 0 ≤ zsum f l.
Proof.
  intros Hf. rewrite <- (zsum_zero (λ _, 0) l) by done. by apply zsum_le.
Qed.

Lemma zsum_plus f g l : zsum (λ x, f x + g x) l = zsum f l + zsum g l.
Proof. induction l as [|x l IH]; simpl; [done | lia]. Qed.

Lemma zsum_minus f g l : zsum (λ x, f x - g x) l = zsum f l - zsum g l.
Proof. induction l as [|x l IH]; simpl; [done | lia]. Qed.

Lemma zsum_scale c f l : zsum (λ x, c * f x) l = c * zsum f l.
Proof. induction l as [|x l IH]; simpl; [lia | lia]. Qed.

Lemma zsum_perm f l1 l2 : l1 ≡ₚ l2 → zsum f l1 = zsum f l2.
Proof. induction 1; simpl; lia. Qed.

Lemma zsum_fmap {B} (h : B → A) f (l : list B) : zsum f (h <$> l) = zsum (f ∘ h) l.
Proof. induction l as [|x l IH]; csimpl; [done | by rewrite IH]. Qed.

Lemma zsum_bind {B} (h : B → list A) f (l : list B) :
  zsum f (l ≫= h) = zsum (λ y, zsum f (h y)) l.
Proof.
  induction l as [|x l IH]; csimpl; [done |]. by rewrite zsum_app, IH.
Qed.

(** The sum of a function that vanishes away from one element of a
    duplicate-free list. *)
Lemma zsum_single `{!EqDecision A} (a : A) f l :
  NoDup l → a ∈ l → zsum (λ x, if decide (x = a) then f x else 0) l = f a.
Proof.
  induction 1 as [|x l Hx Hl IH]; intros Ha; simpl.
  - by apply elem_of_nil in Ha.
  - destruct (decide (x = a)) as [->|Hne].
    + rewrite zsum_zero; [lia |].
      intros y Hy. destruct (decide (y = a)) as [->|]; done.
    + apply elem_of_cons in Ha as [?|Ha]; [congruence |]. by rewrite IH.
Qed.

Lemma zsum_single_absent `{!EqDecision A} (a : A) f l :
  a ∉ l → zsum (λ x, if decide (x = a) then f x else 0) l = 0.
Proof.
  intros Ha. apply zsum_zero. intros y Hy.
  destruct (decide (y = a)) as [->|]; done.
Qed.

Lemma zsum_filter (P : A → Prop) `{!∀ x, Decision (P x)} f l :
  zsum f (filter P l) = zsum (λ x, if decide (P x) then f x else 0) l.
Proof.
  induction l as [|x l IH]; simpl; [done |].
  rewrite filter_cons. destruct (decide (P x)); simpl; by rewrite IH.
Qed.

End zsum.

Lemma zsum_swap {A B} (h : A → B → Z) (l : list A) (k : list B) :
  zsum (λ x, zsum (λ y, h x y) k) l = zsum (λ y, zsum (λ x, h x y) l) k.
Proof.
  induction l as [|x l IH]; simpl.
  - symmetry. by apply zsum_zero.
  - by rewrite IH, zsum_plus.
Qed.

(** ** The node and edge lists of a graph *)

Lemma elem_of_node_list g n : n ∈ node_list g ↔ is_Some (nodes g !! n).
Proof.
  unfold node_list. rewrite list_elem_of_fmap. split.
  - intros [[n' d] [-> Hin]]. apply elem_of_map_to_list in Hin. by eexists.
  - intros [d Hd]. exists (n, d). split; [done |]. by apply elem_of_map_to_list.
Qed.

Lemma NoDup_node_list g : NoDup (node_list g).
Proof. apply NoDup_fst_map_to_list. Qed.

Lemma elem_of_edge_list g u v a : (u, v, a) ∈ edge_list g ↔ edge g u v = Some a.
Proof.
  unfold edge_list, edge, succ. rewrite list_elem_of_bind. split.
  - intros [[u' nb] [Hin Hnb]].
    apply list_elem_of_fmap in Hin as [[v' a'] [Heq Hin]]. simplify_eq.
    apply elem_of_map_to_list in Hnb, Hin. by rewrite Hnb.
  - intros H. destruct (adj g !! u) as [nb|] eqn:E; simpl in H; [| done].
    exists (u, nb). split; [| by apply elem_of_map_to_list].
    apply list_elem_of_fmap. exists (v, a). split; [done |].
    by apply elem_of_map_to_list.
Qed.

Lemma NoDup_edge_list g : NoDup (edge_list g).
Proof.
  unfold edge_list. apply NoDup_bind.
  - intros [u1 nb1] [u2 nb2] [[u v] a] H1 H2 Hin1 Hin2.
    apply list_elem_of_fmap in Hin1 as [[v1 a1] [? _]].
    apply list_elem_of_fmap in Hin2 as [[v2 a2] [? _]]. simplify_eq.
    apply elem_of_map_to_list in H1, H2. congruence.
  - intros [u nb] _. apply NoDup_fmap_2; [| apply NoDup_map_to_list].
    intros [v1 a1] [v2 a2] ?. by simplify_eq.
  - apply NoDup_map_to_list.
Qed.

(** A sum over the edges that satisfy [P] is a sum over any duplicate-free
    list of exactly those edges. *)
Lemma zsum_edges_select g (P : string * string * EdgeAttr → Prop)
    `{!∀ e, Decision (P e)} (h : string * string * EdgeAttr → Z) l :
  NoDup l → (∀ e, e ∈ l ↔ e ∈ edge_list g ∧ P e) →
  zsum (λ e, if decide (P e) then h e else 0) (edge_list g) = zsum h l.
Proof.
  intros Hl Hiff. rewrite <- zsum_filter. apply zsum_perm, NoDup_Permutation.
  - apply NoDup_filter, NoDup_edge_list.
  - done.
  - intros e. rewrite list_elem_of_filter, Hiff. tauto.
Qed.

Lemma out_flow_succ g f n :
  out_flow g f n = zsum (λ '(v, _), f n v) (map_to_list (succ g n)).
Proof.
  unfold out_flow.
  rewrite (zsum_ext _ (λ e, if decide (e.1.1 = n) then f e.1.1 e.1.2 else 0))
    by (by intros [[??]?] _).
  rewrite (zsum_edges_select g (λ e, e.1.1 = n) (λ e, f e.1.1 e.1.2)
             ((λ '(v, a), (n, v, a)) <$> map_to_list (succ g n))).
  - rewrite zsum_fmap. apply zsum_ext. by intros [??] _.
  - apply NoDup_fmap_2; [| apply NoDup_map_to_list].
    intros [??] [??] ?. by simplify_eq.
  - intros [[u v] a]. rewrite elem_of_edge_list, list_elem_of_fmap. simpl. split.
    + intros [[v' a'] [? Hin]]. simplify_eq. by apply elem_of_map_to_list in Hin.
    + intros [He ->]. exists (v, a). split; [done |]. by apply elem_of_map_to_list.
Qed.

(** ** Flow through a node potential

    Summing, over all nodes, the potential of a node times its net inflow
    is summing, over all edges, the flow times the rise of the potential
    along the edge.  Cut bounds for the maximum flow and dual bounds for
    the cost both follow from this identity. *)

Lemma potential_identity g f (π : string → Z) :
  wf g →
  zsum (λ n, π n * (in_flow g f n - out_flow g f n)) (node_list g)
  = zsum (λ '(u, v, _), (π v - π u) * f u v) (edge_list g).
Proof.
  intros Hwf. unfold in_flow, out_flow.
  rewrite (zsum_ext _ (λ n, zsum (λ e : string * string * EdgeAttr,
     (if decide (e.1.2 = n) then π e.1.2 * f e.1.1 e.1.2 else 0)
     - (if decide (e.1.1 = n) then π e.1.1 * f e.1.1 e.1.2 else 0)) (edge_list g))).
  2:{ intros n _. rewrite <- zsum_minus, <- zsum_scale. apply zsum_ext.
      intros [[u v] a] _. simpl. repeat case_decide; subst; lia. }
  rewrite zsum_swap. apply zsum_ext. intros [[u v] a] He. simpl.
  apply elem_of_edge_list, Hwf in He as [Hu Hv].
  rewrite zsum_minus.
  rewrite (zsum_ext _ (λ n, if decide (n = v) then π v * f u v else 0))
    by (intros; repeat case_decide; congruence).
  rewrite (zsum_ext (λ n, if decide (u = n) then _ else _)
             (λ n, if decide (n = u) then π u * f u v else 0))
    by (intros; repeat case_decide; congruence).
  rewrite !zsum_single by (apply NoDup_node_list || by apply elem_of_node_list).
  lia.
Qed.

Lemma net_flow_total g f :
  wf g → zsum (λ n, in_flow g f n - out_flow g f n) (node_list g) = 0.
Proof.
  intros Hwf. pose proof (potential_identity g f (λ _, 1) Hwf) as Hid.
  rewrite (zsum_ext _ (λ n, in_flow g f n - out_flow g f n)) in Hid
    by (intros; lia).
  rewrite Hid. apply zsum_zero. intros [[u v] a] _. lia.
Qed.

(** In a flow from [s] to [t] only [s] and [t] contribute to a sum
    weighted by net inflow. *)
Lemma st_flow_node_sum g s t f F (π : string → Z) :
  st_flow g s t f F → s ≠ t →
  is_Some (nodes g !! s) → is_Some (nodes g !! t) →
  zsum (λ n, π n * (in_flow g f n - out_flow g f n)) (node_list g)
  = π s * (in_flow g f s - out_flow g f s) + π t * (in_flow g f t - out_flow g f t).
Proof.
  intros (_ & Hcons & _) Hst Hs Ht.
  rewrite (zsum_ext _ (λ n,
     (if decide (n = s) then π n * (in_flow g f n - out_flow g f n) else 0)
     + (if decide (n = t) then π n * (in_flow g f n - out_flow g f n) else 0))).
  - rewrite zsum_plus, !zsum_single
      by (apply NoDup_node_list || by apply elem_of_node_list). done.
  - intros n Hn. apply elem_of_node_list in Hn.
    repeat case_decide; subst; try lia; try congruence.
    rewrite (Hcons n) by done. lia.
Qed.

(** What leaves the source arrives at the sink. *)
Lemma st_flow_sink g s t f F :
  wf g → st_flow g s t f F → s ≠ t →
  is_Some (nodes g !! s) → is_Some (nodes g !! t) →
  in_flow g f t - out_flow g f t = F.
Proof.
  intros Hwf Hf Hst Hs Ht.
  pose proof (st_flow_node_sum g s t f F (λ _, 1) Hf Hst Hs Ht) as Hsum.
  rewrite (zsum_ext _ (λ n, in_flow g f n - out_flow g f n)) in Hsum
    by (intros; lia).
  rewrite net_flow_total in Hsum by done.
  destruct Hf as (_ & _ & HF). lia.
Qed.

(** Weak duality for the maximum flow: every potential bounds the value
    of every flow; with a 0/1 potential the bound is the capacity of a
    cut. *)
Lemma cut_bound g s t f F (π : string → Z) :
  wf g → st_flow g s t f F → s ≠ t →
  is_Some (nodes g !! s) → is_Some (nodes g !! t) →
  (π t - π s) * F ≤ cut_value g π.
Proof.
  intros Hwf Hf Hst Hs Ht.
  pose proof (st_flow_node_sum g s t f F π Hf Hst Hs Ht) as Hsum.
  pose proof (st_flow_sink g s t f F Hwf Hf Hst Hs Ht) as Hsink.
  rewrite potential_identity in Hsum by done.
  destruct Hf as (Hcap & _ & HF).
  unfold cut_value.
  transitivity (zsum (λ '(u, v, _), (π v - π u) * f u v) (edge_list g)).
  { rewrite Hsum, Hsink. replace (in_flow g f s - out_flow g f s) with (- F) by lia.
    lia. }
  apply zsum_le. intros [[u v] a] He.
  apply elem_of_edge_list, Hcap in He. nia.
Qed.

(** Weak duality for the cost: every potential gives a lower bound on the
    cost of every flow that meets the demands. *)
Lemma dual_bound g f (π : string → Z) :
  wf g → demand_flow g f → dual_value g π ≤ cost g f.
Proof.
  intros Hwf [Hcap Hdem]. unfold dual_value, cost.
  rewrite (zsum_ext _ (λ n, π n * (in_flow g f n - out_flow g f n))).
  2:{ intros n Hn. apply elem_of_node_list in Hn. by rewrite Hdem. }
  rewrite potential_identity by done.
  rewrite <- zsum_plus. apply zsum_le. intros [[u v] a] He.
  apply elem_of_edge_list, Hcap in He. nia.
Qed.

(** ** Setting demands *)

Lemma in_flow_adj g g' f n : adj g' = adj g → in_flow g' f n = in_flow g f n.
Proof. intros H. unfold in_flow, edge_list. by rewrite H. Qed.

Lemma out_flow_adj g g' f n : adj g' = adj g → out_flow g' f n = out_flow g f n.
Proof. intros H. unfold out_flow, edge_list. by rewrite H. Qed.

Lemma cost_adj g g' f : adj g' = adj g → cost g' f = cost g f.
Proof. intros H. unfold cost, edge_list. by rewrite H. Qed.

Lemma edge_adj g g' u v : adj g' = adj g → edge g' u v = edge g u v.
Proof. intros H. unfold edge, succ. by rewrite H. Qed.

Lemma succ_adj g g' u : adj g' = adj g → succ g' u = succ g u.
Proof. intros H. unfold succ. by rewrite H. Qed.

Lemma set_demand_Some n d g :
  is_Some (nodes g !! n) →
  set_demand n d g = Some {| nodes := <[n := Some d]> (nodes g); adj := adj g |}.
Proof. intros [x Hx]. unfold set_demand. by rewrite Hx. Qed.

Lemma set_demand_inv n d g g' :
  set_demand n d g = Some g' →
  is_Some (nodes g !! n) ∧ nodes g' = <[n := Some d]> (nodes g) ∧ adj g' = adj g.
Proof.
  unfold set_demand. destruct (nodes g !! n) eqn:E; intros; simplify_eq. eauto.
Qed.

Lemma set_demand_is_node n d g g' m :
  set_demand n d g = Some g' → is_Some (nodes g' !! m) ↔ is_Some (nodes g !! m).
Proof.
  intros (Hn & -> & _)%set_demand_inv.
  destruct (decide (n = m)) as [->|].
  - rewrite lookup_insert_eq. split; eauto.
  - by rewrite lookup_insert_ne.
Qed.

Lemma set_demand_demand n d g g' m :
  set_demand n d g = Some g' →
  demand g' m = if decide (m = n) then d else demand g m.
Proof.
  intros (Hn & Hg' & _)%set_demand_inv. unfold demand. rewrite Hg'.
  case_decide; subst.
  - by rewrite lookup_insert_eq.
  - by rewrite lookup_insert_ne.
Qed.

Lemma wf_adj g g' :
  adj g' = adj g → (∀ n, is_Some (nodes g' !! n) ↔ is_Some (nodes g !! n)) →
  wf g → wf g'.
Proof.
  intros Ha Hn Hwf u v a He. rewrite (edge_adj g g') in He by done.
  rewrite !Hn. by eapply Hwf.
Qed.

Lemma caps_nonneg_adj g g' : adj g' = adj g → caps_nonneg g → caps_nonneg g'.
Proof. intros Ha Hc u v a He. rewrite (edge_adj g g') in He by done. by eapply Hc. Qed.

Lemma flow_shape_adj g g' fd :
  adj g' = adj g → (∀ n, is_Some (nodes g' !! n) ↔ is_Some (nodes g !! n)) →
  flow_shape g' fd → flow_shape g fd.
Proof.
  intros Ha Hn [Hd Hs]. split.
  - rewrite Hd. apply set_eq. intros n. by rewrite !elem_of_dom.
  - intros u nb Hu. rewrite <- (succ_adj g g') by done. by apply Hs.
Qed.

(** ** Flows of a given value and flows that meet demands

    Once the source demands [-F] and the sink [F], and no other node
    demands anything, the flows that meet the demands are the flows of
    value [F] from the source to the sink. *)

Section st_vs_demand.
Context (g g' : DiGraph) (s t : string) (F : Z).
Hypothesis Hwf : wf g.
Hypothesis Hadj : adj g' = adj g.
Hypothesis Hnodes : ∀ n, is_Some (nodes g' !! n) ↔ is_Some (nodes g !! n).
Hypothesis Hs : is_Some (nodes g !! s).
Hypothesis Ht : is_Some (nodes g !! t).
Hypothesis Hst : s ≠ t.
Hypothesis Hds : demand g' s = - F.
Hypothesis Hdt : demand g' t = F.
Hypothesis Hdn : ∀ n, n ≠ s → n ≠ t → demand g' n = 0.

Lemma capacity_ok_adj f : capacity_ok g' f ↔ capacity_ok g f.
Proof.
  unfold capacity_ok. split; intros H u v a He; apply H.
  - by rewrite (edge_adj g g').
  - by rewrite <- (edge_adj g g').
Qed.

Lemma st_flow_demand_flow f : st_flow g s t f F → demand_flow g' f.
Proof.
  intros Hf. pose proof (st_flow_sink g s t f F Hwf Hf Hst Hs Ht) as Hsink.
  destruct Hf as (Hcap & Hcons & HF). split; [by apply capacity_ok_adj |].
  intros n Hn. rewrite (in_flow_adj g g'), (out_flow_adj g g') by done.
  destruct (decide (n = s)) as [->|]; [rewrite Hds; lia |].
  destruct (decide (n = t)) as [->|]; [rewrite Hdt; lia |].
  rewrite Hdn, Hcons by (done || by apply Hnodes). lia.
Qed.

Lemma demand_flow_st_flow f : demand_flow g' f → st_flow g s t f F.
Proof.
  intros [Hcap Hdem]. split; [by apply capacity_ok_adj |]. split.
  - intros n Hn Hns Hnt. apply Hnodes in Hn. specialize (Hdem n Hn).
    rewrite (in_flow_adj g g'), (out_flow_adj g g'), Hdn in Hdem by done. lia.
  - apply Hnodes in Hs. specialize (Hdem s Hs).
    rewrite (in_flow_adj g g'), (out_flow_adj g g'), Hds in Hdem by done. lia.
Qed.

End st_vs_demand.

(** ** [assign_ride_leaders] with a solver that honours the contract *)

Section assign.
Context (nx : FlowSolver) `{!SolverContract nx}.
Context (g : DiGraph) (s t : string).
Hypothesis Hwf : wf g.
Hypothesis Hcaps : caps_nonneg g.
Hypothesis Hs : is_Some (nodes g !! s).
Hypothesis Ht : is_Some (nodes g !! t).
Hypothesis Hst : s ≠ t.
Hypothesis Hdem : ∀ n, n ≠ s → n ≠ t → demand g n = 0.

Lemma assign_ride_leaders_ok :
  ∃ g' fd,
    assign_ride_leaders nx g s t = Some (g', ((maximum_flow nx g s t).1, fd), [])
    ∧ adj g' = adj g
    ∧ (∀ n, is_Some (nodes g' !! n) ↔ is_Some (nodes g !! n))
    ∧ (∀ n, n ≠ s → n ≠ t → nodes g' !! n = nodes g !! n)
    ∧ max_flow_min_cost g s t (maximum_flow nx g s t).1 fd.
Proof.
  unfold assign_ride_leaders.
  destruct (maximum_flow_spec g s t Hwf Hcaps Hs Ht Hst) as (Hshape & Hmf & Hmax).
  set (F := (maximum_flow nx g s t).1) in *.
  rewrite (set_demand_Some s) by done. simpl.
  rewrite (set_demand_Some t) by (simpl; by rewrite lookup_insert_ne). simpl.
  match goal with |- context [min_cost_flow nx ?G] => set (g2 := G) end.
  assert (adj g2 = adj g) as Hadj by done.
  assert (∀ n, is_Some (nodes g2 !! n) ↔ is_Some (nodes g !! n)) as Hnodes.
  { intros n. simpl.
    destruct (decide (t = n)) as [->|]; [rewrite lookup_insert_eq; split; eauto |].
    rewrite lookup_insert_ne by done.
    destruct (decide (s = n)) as [->|]; [rewrite lookup_insert_eq; split; eauto |].
    by rewrite lookup_insert_ne. }
  assert (∀ n, n ≠ s → n ≠ t → nodes g2 !! n = nodes g !! n) as Hother.
  { intros n ??. simpl. by rewrite !lookup_insert_ne. }
  assert (demand g2 s = - F) as Hds.
  { unfold demand. simpl. by rewrite lookup_insert_ne, lookup_insert_eq. }
  assert (demand g2 t = F) as Hdt.
  { unfold demand. simpl. by rewrite lookup_insert_eq. }
  assert (∀ n, n ≠ s → n ≠ t → demand g2 n = 0) as Hdn.
  { intros n ??. rewrite <- (Hdem n) by done. unfold demand. by rewrite Hother. }
  pose proof (min_cost_flow_spec g2 (wf_adj g g2 Hadj Hnodes Hwf)
                (caps_nonneg_adj g g2 Hadj Hcaps)) as Hmc.
  destruct (min_cost_flow nx g2) as [fd|].
  - destruct Hmc as (Hshape2 & Hdf & Hmin).
    assert (st_flow g s t (flow_of fd) F) as Hf.
    { by apply (demand_flow_st_flow g g2 s t F). }
    exists g2, fd. split; [done |]. do 3 (split; [done |]).
    split; [apply (flow_shape_adj g g2 fd Hadj Hnodes Hshape2) |].
    do 2 (split; [done |]).
    intros f Hf'. rewrite <- !(cost_adj g g2) by done.
    apply Hmin. by apply (st_flow_demand_flow g g2 s t F).
  - exfalso. apply (Hmc (flow_of (maximum_flow nx g s t).2)).
    by apply (st_flow_demand_flow g g2 s t F).
Qed.

End assign.

(** ** Strings *)

Lemma list_ascii_app s1 s2 :
  list_ascii_of_string (s1 +:+ s2) = list_ascii_of_string s1 ++ list_ascii_of_string s2.
Proof. induction s1 as [|c s1 IH]; simpl; [done | by rewrite IH]. Qed.

Lemma list_ascii_inj s1 s2 :
  list_ascii_of_string s1 = list_ascii_of_string s2 → s1 = s2.
Proof.
  intros H. rewrite <- (string_of_list_ascii_of_string s1), H.
  apply string_of_list_ascii_of_string.
Qed.

Lemma string_app_inv_tail s1 s2 t : s1 +:+ t = s2 +:+ t → s1 = s2.
Proof.
  intros H. apply list_ascii_inj. apply (f_equal list_ascii_of_string) in H.
  rewrite !list_ascii_app in H. by apply app_inv_tail in H.
Qed.

Lemma last_char_app s t : t ≠ EmptyString → last_char (s +:+ t) = last_char t.
Proof.
  intros Ht. induction s as [|c s IH]; [done |].
  change (String c s +:+ t) with (String c (s +:+ t)). simpl.
  destruct (s +:+ t) eqn:E; [| done].
  destruct s; [by destruct t | discriminate].
Qed.

(** Decimal numerals consist of digits. *)
Lemma string_of_uint_digits d :
  Forall is_digit (list_ascii_of_string (NilEmpty.string_of_uint d)).
Proof.
  induction d; simpl; constructor; try done; unfold is_digit;
    repeat (first [by left | right]).
Qed.

(** Closes a goal from [H], the membership of a character in an explicit
    list of other characters. *)
Ltac not_among H :=
  exfalso;
  repeat (apply elem_of_cons in H as [H|H]; [discriminate H |]);
  by apply elem_of_nil in H.

Lemma str_of_nat_digits i : Forall is_digit (list_ascii_of_string (Py.str_of_nat i)).
Proof. apply string_of_uint_digits. Qed.

Lemma str_of_nat_inj i j : Py.str_of_nat i = Py.str_of_nat j → i = j.
Proof.
  unfold Py.str_of_nat. intros H. apply Unsigned.to_uint_inj.
  apply (f_equal NilEmpty.uint_of_string) in H.
  rewrite !NilEmpty.usu in H. congruence.
Qed.

Lemma last_char_digits s :
  Forall is_digit (list_ascii_of_string s) → s ≠ EmptyString → is_digit (last_char s).
Proof.
  induction s as [|c s IH]; [done |]. simpl. intros H _.
  apply Forall_cons in H as [Hc Hs]. destruct s; [done |]. by apply IH.
Qed.

Lemma split_at_first {A} (c : A) (a a' x x' : list A) :
  c ∉ a → c ∉ a' → a ++ c :: x = a' ++ c :: x' → a = a' ∧ x = x'.
Proof.
  revert a'. induction a as [|y a IH]; intros [|y' a'] Ha Ha' H; simpl in H.
  - by injection H.
  - injection H as <- _. exfalso. apply Ha'. by left.
  - injection H as -> _. exfalso. apply Ha. by left.
  - injection H as -> H.
    apply not_elem_of_cons in Ha as [_ Ha], Ha' as [_ Ha'].
    by destruct (IH a' Ha Ha' H) as [-> ->].
Qed.

(** ** Node names are told apart *)

Lemma leader_in_inj L L' : leader_in L = leader_in L' → L = L'.
Proof. apply string_app_inv_tail. Qed.

Lemma leader_out_inj L L' : leader_out L = leader_out L' → L = L'.
Proof. apply string_app_inv_tail. Qed.

Lemma slot_node_inj L L' i j : slot_node L i = slot_node L' j → L = L' ∧ i = j.
Proof.
  unfold slot_node. intros H.
  apply (f_equal (λ s, reverse (list_ascii_of_string s))) in H. simpl in H.
  rewrite !list_ascii_app, !reverse_app in H.
  change (reverse (list_ascii_of_string "_slot_"))
    with (["_"; "t"; "o"; "l"; "s"; "_"]%char) in H.
  rewrite <- !(assoc_L (++)) in H. simpl in H.
  apply split_at_first in H as [Hd Hl].
  - split.
    + simplify_eq. by apply list_ascii_inj.
    + apply (inj reverse) in Hd. by apply str_of_nat_inj, list_ascii_inj.
  - rewrite elem_of_reverse. intros Hin.
    eapply Forall_forall in Hin; [| apply str_of_nat_digits].
    unfold is_digit in Hin. not_among Hin.
  - rewrite elem_of_reverse. intros Hin.
    eapply Forall_forall in Hin; [| apply str_of_nat_digits].
    unfold is_digit in Hin. not_among Hin.
Qed.

Lemma last_char_leader_in L : last_char (leader_in L) = "n"%char.
Proof. unfold leader_in. by rewrite last_char_app. Qed.

Lemma last_char_leader_out L : last_char (leader_out L) = "t"%char.
Proof. unfold leader_out. by rewrite last_char_app. Qed.

Lemma last_char_slot_node L i :
  last_char (slot_node L i)
  ∈ ["_"; "0"; "1"; "2"; "3"; "4"; "5"; "6"; "7"; "8"; "9"]%char.
Proof.
  unfold slot_node. rewrite last_char_app by done.
  destruct (Py.str_of_nat i) as [|c s] eqn:E; [by left |].
  rewrite last_char_app by done. right. rewrite <- E.
  apply last_char_digits; [apply str_of_nat_digits | by rewrite E].
Qed.

(** Closes a goal that has an equation between two node names of
    different kinds among its hypotheses. *)
Ltac name_clash :=
  exfalso;
  match goal with
  | H : _ = _ :> string |- _ =>
      apply (f_equal last_char) in H;
      rewrite ?last_char_leader_in, ?last_char_leader_out in H;
      first
        [ discriminate H
        | match type of H with
          | last_char (slot_node ?L ?i) = _ =>
              pose proof (last_char_slot_node L i) as Hslot;
              rewrite H in Hslot; not_among Hslot
          | _ = last_char (slot_node ?L ?i) =>
              pose proof (last_char_slot_node L i) as Hslot;
              rewrite <- H in Hslot; not_among Hslot
          end ]
  end.

Lemma leader_in_out L L' : leader_in L ≠ leader_out L'.
Proof. intros H. name_clash. Qed.

Lemma leader_in_slot L L' i : leader_in L ≠ slot_node L' i.
Proof. intros H. name_clash. Qed.

Lemma leader_out_slot L L' i : leader_out L ≠ slot_node L' i.
Proof. intros H. name_clash. Qed.

Lemma slot_not_source L i : slot_node L i ≠ SOURCE.
Proof. intros H. name_clash. Qed.

Lemma slot_not_sink L i : slot_node L i ≠ SINK.
Proof. intros H. name_clash. Qed.

Lemma leader_in_not_source L : leader_in L ≠ SOURCE.
Proof. intros H. name_clash. Qed.

Lemma leader_in_not_sink L : leader_in L ≠ SINK.
Proof. intros H. name_clash. Qed.

Lemma leader_out_not_source L : leader_out L ≠ SOURCE.
Proof. intros H. name_clash. Qed.

Lemma leader_out_not_sink L : leader_out L ≠ SINK.
Proof. intros H. name_clash. Qed.

(** ** [replace('_in', '')] on the name of a [LeaderIn] node *)

Lemma prefix_in_straddle t :
  Py.contains "_in" t = false → String.prefix "_in" (t +:+ "_in") = true →
  t = EmptyString.
Proof.
  destruct t as [|c1 [|c2 [|c3 t]]]; [done | | |];
    cbv [String.append]; cbn -[ascii_dec];
    repeat (destruct (ascii_dec _ _) as [e|e];
            [try discriminate e; try subst | ]; cbn -[ascii_dec]; try done).
  by destruct t.
Qed.

Lemma replace_leader_in L :
  Py.contains "_in" L = false → Py.replace "_in" "" (leader_in L) = L.
Proof.
  unfold Py.replace, leader_in. induction L as [|c L IH]; intros Hc; [done |].
  assert (Py.contains "_in" L = false) as HL.
  { simpl in Hc. apply orb_false_elim in Hc as [_ ?]. done. }
  change (String c L +:+ "_in") with (String c (L +:+ "_in")).
  unfold Py.replace_from; fold Py.replace_from.
  destruct (String.prefix "_in" (String c (L +:+ "_in"))) eqn:E.
  - apply (prefix_in_straddle (String c L)) in E; done.
  - by rewrite IH.
Qed.

(** ** Adding nodes and edges *)

Lemma foldl_invariant {A B} (P : A → Prop) (f : A → B → A) (l : list B) (a : A) :
  P a → (∀ a x, x ∈ l → P a → P (f a x)) → P (foldl f a l).
Proof.
  revert a. induction l as [|y l IH]; intros a Ha Hf; simpl; [done |].
  apply IH.
  - apply Hf; [by left | done].
  - intros a' x Hx. apply Hf. by right.
Qed.

Lemma foldl_reach {A B} (Q : A → Prop) (f : A → B → A) (l : list B) (x : B) (a : A) :
  x ∈ l → (∀ a, Q (f a x)) → (∀ a y, Q a → Q (f a y)) → Q (foldl f a l).
Proof.
  revert a. induction l as [|y l IH]; intros a Hx Hnow Hkeep; simpl.
  - by apply elem_of_nil in Hx.
  - apply elem_of_cons in Hx as [<-|Hx].
    + apply foldl_invariant; [apply Hnow | intros; by apply Hkeep].
    + by apply IH.
Qed.

Lemma edge_add_node n d g u v : edge (add_node n d g) u v = edge g u v.
Proof. done. Qed.

Lemma is_node_add_node n d g m :
  is_Some (nodes (add_node n d g) !! m) ↔ m = n ∨ is_Some (nodes g !! m).
Proof.
  unfold add_node. simpl. destruct (decide (n = m)) as [->|].
  - rewrite lookup_insert_eq. split; eauto.
  - rewrite lookup_insert_ne by done. split; [eauto | intros [?|?]; congruence].
Qed.

Lemma demand_add_node_None n g m : demand (add_node n None g) m = demand g m.
Proof.
  unfold demand, add_node. simpl. destruct (decide (n = m)) as [->|].
  - rewrite lookup_insert_eq. by destruct (nodes g !! m).
  - by rewrite lookup_insert_ne.
Qed.

Lemma demand_add_node_Some n x g m :
  demand (add_node n (Some x) g) m = if decide (m = n) then x else demand g m.
Proof.
  unfold demand, add_node. simpl. case_decide; subst.
  - by rewrite lookup_insert_eq.
  - by rewrite lookup_insert_ne.
Qed.

Lemma edge_add_edge u v c w g u' v' :
  edge (add_edge u v c w g) u' v'
  = if decide (u' = u ∧ v' = v) then Some {| capacity := c; weight := w |}
    else edge g u' v'.
Proof.
  unfold edge, succ, add_edge. simpl. destruct (decide (u = u')) as [->|Hu].
  - rewrite lookup_insert_eq. simpl. destruct (decide (v = v')) as [->|Hv].
    + rewrite lookup_insert_eq. by rewrite decide_True.
    + rewrite lookup_insert_ne by done. rewrite decide_False; [done | naive_solver].
  - rewrite lookup_insert_ne by done. rewrite decide_False; [done | naive_solver].
Qed.

Lemma is_node_add_edge u v c w g m :
  is_Some (nodes (add_edge u v c w g) !! m) ↔ m = u ∨ m = v ∨ is_Some (nodes g !! m).
Proof.
  change (nodes (add_edge u v c w g))
    with (nodes (add_node v None (add_node u None g))).
  rewrite !is_node_add_node. tauto.
Qed.

Lemma demand_add_edge u v c w g m : demand (add_edge u v c w g) m = demand g m.
Proof.
  transitivity (demand (add_node v None (add_node u None g)) m); [done |].
  by rewrite !demand_add_node_None.
Qed.

Lemma tidy_empty : tidy DiGraph.empty.
Proof. split; [| split]; [intros u v a He; done.. | done]. Qed.

Lemma tidy_add_node_None n g : tidy g → tidy (add_node n None g).
Proof.
  intros (Hwf & Hc & Hd). split; [| split].
  - intros u v a He. rewrite !is_node_add_node. rewrite edge_add_node in He.
    destruct (Hwf u v a He). auto.
  - intros u v a He. by apply (Hc u v).
  - intros m. by rewrite demand_add_node_None.
Qed.

Lemma tidy_add_node_zero n g : tidy g → tidy (add_node n (Some 0) g).
Proof.
  intros (Hwf & Hc & Hd). split; [| split].
  - intros u v a He. rewrite !is_node_add_node. rewrite edge_add_node in He.
    destruct (Hwf u v a He). auto.
  - intros u v a He. by apply (Hc u v).
  - intros m. rewrite demand_add_node_Some. by case_decide.
Qed.

Lemma tidy_add_edge u v c w g : 0 ≤ c → tidy g → tidy (add_edge u v c w g).
Proof.
  intros Hcw (Hwf & Hc & Hd). split; [| split].
  - intros u' v' a. rewrite edge_add_edge, !is_node_add_edge.
    case_decide as Huv; [destruct Huv as [-> ->]; auto |].
    intros He. destruct (Hwf u' v' a He). auto.
  - intros u' v' a. rewrite edge_add_edge.
    case_decide; [intros; by simplify_eq | apply Hc].
  - intros m. by rewrite demand_add_edge.
Qed.

Global Instance grows_preorder : PreOrder grows.
Proof.
  split.
  - by intros g.
  - intros g1 g2 g3 [Hn1 He1] [Hn2 He2]. split; auto.
Qed.

Lemma grows_add_node n d g : grows g (add_node n d g).
Proof. split; [| done]. intros m Hm. rewrite is_node_add_node. auto. Qed.

Lemma grows_add_edge u v c w g : grows g (add_edge u v c w g).
Proof.
  split.
  - intros m Hm. rewrite is_node_add_edge. auto.
  - intros u' v' He. rewrite edge_add_edge. by case_decide.
Qed.

Lemma edge_add_edge_here u v c w g : is_Some (edge (add_edge u v c w g) u v).
Proof. rewrite edge_add_edge, decide_True by done. eauto. Qed.

(** ** What [populate_graph] builds *)

Lemma populate_graph_source_sink rides offers :
  (populate_graph rides offers).1.1.2 = SOURCE ∧ (populate_graph rides offers).1.2 = SINK.
Proof. done. Qed.

(** A property that holds of the empty graph and survives every
    [add_node] and every [add_edge] the construction performs holds of the
    result. *)
Section closed.
Context (rides : list string) (offers : Offers) (P : DiGraph → Prop).
Hypothesis P_node :
  ∀ n d g, d = None ∨ d = Some 0 → P g → P (add_node n d g).
Hypothesis P_edge :
  ∀ u v c w g,
    edge_spec rides offers u v {| capacity := c; weight := w |} →
    P g → P (add_edge u v c w g).

Lemma add_rides_closed g : P g → P (add_rides rides g).
Proof.
  intros Hg. unfold add_rides. apply foldl_invariant; [done |].
  intros g' r Hr Hg'. apply P_edge; [by constructor |]. apply P_node; auto.
Qed.

Lemma add_slots_closed L offs g :
  offers !! L = Some offs → P g → P (add_slots L (length offs) g).
Proof.
  intros HL Hg. unfold add_slots. apply foldl_invariant; [done |].
  intros g' i Hi%elem_of_seq Hg'.
  apply P_edge; [eapply es_slot_out; [done | lia] |].
  apply P_edge; [eapply es_slot_in; [done | lia] |].
  apply P_node; auto.
Qed.

Lemma add_leader_closed L offs g :
  offers !! L = Some offs → P g → P (add_leader g (L, offs)).
Proof.
  intros HL Hg. unfold add_leader.
  apply P_edge; [by eapply es_sink |].
  apply add_slots_closed; [done |]. apply P_node; [auto |]. apply P_node; auto.
Qed.

Lemma add_offers_closed L offs st :
  offers !! L = Some offs → P st.1 → P (add_offers rides st (L, offs)).1.
Proof.
  intros HL Hst. unfold add_offers.
  apply (foldl_invariant (λ st, P st.1)); [done |].
  intros [g' out] r Hr Hg'. simpl in *. case_bool_decide; simpl; [| done].
  apply P_edge; [by eapply es_offer | done].
Qed.

Lemma populate_closed : P DiGraph.empty → P (built rides offers).
Proof.
  intros H0. unfold built, populate_graph. simpl.
  apply (foldl_invariant (λ st, P st.1)).
  - simpl. apply foldl_invariant.
    + apply add_rides_closed. apply P_node; [auto |]. apply P_node; auto.
    + intros g [L offs] HL%elem_of_map_to_list Hg. by apply add_leader_closed.
  - intros st [L offs] HL%elem_of_map_to_list Hst. by apply add_offers_closed.
Qed.

End closed.

Lemma edge_spec_cap_nonneg rides offers u v a :
  edge_spec rides offers u v a → 0 ≤ capacity a.
Proof. destruct 1; simpl; lia. Qed.

Lemma built_tidy rides offers : tidy (built rides offers).
Proof.
  apply (populate_closed rides offers tidy).
  - intros n d g [->| ->]; [apply tidy_add_node_None | apply tidy_add_node_zero].
  - intros u v c w g Hs. apply tidy_add_edge.
    by apply edge_spec_cap_nonneg in Hs.
  - apply tidy_empty.
Qed.

(** Every edge of the network is one of the five kinds of the spec. *)
Lemma built_sound rides offers u v a :
  edge (built rides offers) u v = Some a → edge_spec rides offers u v a.
Proof.
  revert u v a.
  apply (populate_closed rides offers
           (λ g, ∀ u v a, edge g u v = Some a → edge_spec rides offers u v a)).
  - intros n d g _ Hg u v a. rewrite edge_add_node. apply Hg.
  - intros u v c w g Hs Hg u' v' a. rewrite edge_add_edge.
    case_decide as Huv; [| apply Hg].
    destruct Huv as [-> ->]. intros; by simplify_eq.
  - intros u v a He. done.
Qed.

(** Nothing is ever removed: each loop only grows the graph. *)

Lemma foldl_grows {B} (f : DiGraph → B → DiGraph) (l : list B) g :
  (∀ g x, grows g (f g x)) → grows g (foldl f g l).
Proof.
  intros Hf. apply (foldl_invariant (grows g)); [done |].
  intros g' x _ Hg'. by etrans.
Qed.

Lemma add_ride_grows g r : grows g (add_edge SOURCE r 1 0 (add_node r (Some 0) g)).
Proof. etrans; [apply grows_add_node | apply grows_add_edge]. Qed.

Lemma add_rides_grows rides g : grows g (add_rides rides g).
Proof. apply foldl_grows. intros. apply add_ride_grows. Qed.

Lemma add_slot_grows L g i :
  grows g (add_edge (slot_node L i) (leader_out L) 1 (Z.of_nat i)
             (add_edge (leader_in L) (slot_node L i) 1 0
                (add_node (slot_node L i) (Some 0) g))).
Proof.
  etrans; [apply grows_add_node |]. etrans; [apply grows_add_edge |].
  apply grows_add_edge.
Qed.

Lemma add_slots_grows L n g : grows g (add_slots L n g).
Proof. apply foldl_grows. intros. apply add_slot_grows. Qed.

Lemma add_leader_grows g item : grows g (add_leader g item).
Proof.
  destruct item as [L offs]. unfold add_leader.
  etrans; [apply grows_add_node |]. etrans; [apply grows_add_node |].
  etrans; [apply add_slots_grows |]. apply grows_add_edge.
Qed.

Lemma add_offer_grows (rides : list string) L (st : DiGraph * list string) (r : string) :
  grows st.1
    (if bool_decide (r ∈ rides)
     then (add_edge r (leader_in L) 1 0 st.1, st.2)
     else (st.1, st.2 ++ [warning r L])).1.
Proof. case_bool_decide; simpl; [apply grows_add_edge | done]. Qed.

Lemma add_offers_grows (rides : list string) st item : grows st.1 (add_offers rides st item).1.
Proof.
  destruct item as [L offs]. unfold add_offers.
  apply (foldl_invariant (λ st', grows st.1 st'.1)); [done |].
  intros st' r _ Hst'. etrans; [done | apply add_offer_grows].
Qed.

Lemma all_offers_grows (rides : list string) l st :
  grows st.1 (foldl (add_offers rides) st l).1.
Proof.
  apply (foldl_invariant (λ st', grows st.1 st'.1)); [done |].
  intros st' item _ Hst'. etrans; [done | apply add_offers_grows].
Qed.

Lemma built_nodes_source_sink rides offers :
  is_Some (nodes (built rides offers) !! SOURCE)
  ∧ is_Some (nodes (built rides offers) !! SINK).
Proof.
  unfold built, populate_graph. simpl.
  set (g0 := add_node SINK None (add_node SOURCE None DiGraph.empty)).
  assert (grows g0 (foldl (add_offers rides)
                      (foldl add_leader (add_rides rides g0) (map_to_list offers), [])
                      (map_to_list offers)).1) as [Hn _].
  { etrans; [apply (add_rides_grows rides) |].
    etrans; [apply (foldl_grows add_leader (map_to_list offers)), add_leader_grows |].
    apply (all_offers_grows rides _ (_, [])). }
  split; apply Hn; unfold g0; rewrite !is_node_add_node; auto.
Qed.

(** Every edge of the spec has been added. *)
Lemma built_present rides offers u v a :
  edge_spec rides offers u v a → is_Some (edge (built rides offers) u v).
Proof.
  intros Hs. unfold built, populate_graph. simpl.
  set (g0 := add_node SINK None (add_node SOURCE None DiGraph.empty)).
  set (g1 := add_rides rides g0).
  set (g2 := foldl add_leader g1 (map_to_list offers)).
  assert (grows g1 g2) as [_ H12]
    by apply (foldl_grows add_leader), add_leader_grows.
  pose proof (all_offers_grows rides (map_to_list offers) (g2, [])) as [_ H23].
  simpl in H23.
  assert (∀ L offs u v,
    offers !! L = Some offs →
    (∀ g, is_Some (edge (add_leader g (L, offs)) u v)) →
    is_Some (edge g2 u v)) as Hleader.
  { intros L offs u' v' HL Hadd. unfold g2.
    apply (foldl_reach (λ g, is_Some (edge g u' v')) _ _ (L, offs)).
    - by apply elem_of_map_to_list.
    - done.
    - intros g y. apply add_leader_grows. }
  destruct Hs as [r Hr | L offs i HL Hi | L offs i HL Hi | L offs HL | L offs r HL Hr Hrides].
  - apply H23, H12. unfold g1, add_rides.
    apply (foldl_reach (λ g, is_Some (edge g SOURCE r)) _ _ r); [done | |].
    + intros g. apply edge_add_edge_here.
    + intros g y. apply add_ride_grows.
  - apply H23, (Hleader L offs); [done |]. intros g. unfold add_leader.
    apply grows_add_edge. unfold add_slots.
    apply (foldl_reach (λ g, is_Some (edge g (leader_in L) (slot_node L i))) _ _ i).
    + apply elem_of_seq. lia.
    + intros g'. apply grows_add_edge, edge_add_edge_here.
    + intros g' y. apply add_slot_grows.
  - apply H23, (Hleader L offs); [done |]. intros g. unfold add_leader.
    apply grows_add_edge. unfold add_slots.
    apply (foldl_reach (λ g, is_Some (edge g (slot_node L i) (leader_out L))) _ _ i).
    + apply elem_of_seq. lia.
    + intros g'. apply edge_add_edge_here.
    + intros g' y. apply add_slot_grows.
  - apply H23, (Hleader L offs); [done |]. intros g. unfold add_leader.
    apply edge_add_edge_here.
  - apply (foldl_reach (λ st, is_Some (edge st.1 r (leader_in L))) _ _ (L, offs)).
    + by apply elem_of_map_to_list.
    + intros st. unfold add_offers.
      apply (foldl_reach (λ st, is_Some (edge st.1 r (leader_in L))) _ _ r); [done | |].
      * intros st'. rewrite bool_decide_eq_true_2 by done. simpl.
        apply edge_add_edge_here.
      * intros st' y. apply add_offer_grows.
    + intros st y. apply add_offers_grows.
Qed.

(** The five kinds of edges never give one pair of nodes two different
    attributes, whatever the ride and leader ids are. *)
Lemma edge_spec_functional rides offers u v a a' :
  edge_spec rides offers u v a → edge_spec rides offers u v a' → a = a'.
Proof.
  destruct 1 as [r Hr | L offs i HL Hi | L offs i HL Hi | L offs HL | L offs r HL Hr Hrides];
    inversion 1 as [r' Hr' | L' offs' i' HL' Hi' Hu Hv | L' offs' i' HL' Hi' Hu Hv
                    | L' offs' HL' Hu Hv | L' offs' r' HL' Hr' Hrides' Hu Hv];
    try done; try name_clash.
  - apply slot_node_inj in Hu as [_ ->]. done.
  - apply leader_out_inj in Hu as ->. by simplify_eq.
Qed.

(** The edges of the network are exactly the edges of the spec, with the
    capacities and weights the spec gives them. *)
Lemma built_edges rides offers u v a :
  edge (built rides offers) u v = Some a ↔ edge_spec rides offers u v a.
Proof.
  split; [apply built_sound |].
  intros Hs. destruct (built_present rides offers u v a Hs) as [a' Ha'].
  rewrite Ha'. f_equal. apply built_sound in Ha'.
  by apply (edge_spec_functional rides offers u v).
Qed.

(** ** The exhaustive solver honours the contract *)

Lemma in_flow_ext g f f' n :
  (∀ u v a, edge g u v = Some a → f u v = f' u v) → in_flow g f n = in_flow g f' n.
Proof.
  intros H. apply zsum_ext. intros [[u v] a] He%elem_of_edge_list.
  by rewrite (H u v a).
Qed.

Lemma out_flow_ext g f f' n :
  (∀ u v a, edge g u v = Some a → f u v = f' u v) → out_flow g f n = out_flow g f' n.
Proof.
  intros H. apply zsum_ext. intros [[u v] a] He%elem_of_edge_list.
  by rewrite (H u v a).
Qed.

Lemma cost_ext g f f' :
  (∀ u v a, edge g u v = Some a → f u v = f' u v) → cost g f = cost g f'.
Proof.
  intros H. apply zsum_ext. intros [[u v] a] He%elem_of_edge_list.
  by rewrite (H u v a).
Qed.

Lemma NoDup_edge_keys g : NoDup ((λ e, (e.1.1, e.1.2)) <$> edge_list g).
Proof.
  apply NoDup_fmap_2_strong; [| apply NoDup_edge_list].
  intros [[u v] a] [[u' v'] a'] He%elem_of_edge_list He'%elem_of_edge_list Hk.
  simpl in Hk. simplify_eq. congruence.
Qed.

Module ExhaustiveFacts.
Import Exhaustive.

Lemma flow_of_set_flow u v x fd u' v' :
  flow_of (set_flow u v x fd) u' v'
  = if decide (u' = u ∧ v' = v) then x else flow_of fd u' v'.
Proof.
  unfold flow_of, set_flow. destruct (decide (u = u')) as [->|Hu].
  - rewrite lookup_insert_eq. simpl. destruct (decide (v = v')) as [->|Hv].
    + rewrite lookup_insert_eq. by rewrite decide_True.
    + rewrite lookup_insert_ne by done. rewrite decide_False; [done | naive_solver].
  - rewrite lookup_insert_ne by done. rewrite decide_False; [done | naive_solver].
Qed.

Lemma zero_flow_lookup g u :
  zero_flow g !! u = (λ _, (λ _ : EdgeAttr, 0) <$> succ g u) <$> nodes g !! u.
Proof. unfold zero_flow. rewrite map_lookup_imap. by destruct (nodes g !! u). Qed.

Lemma zero_flow_shape g : flow_shape g (zero_flow g).
Proof.
  split.
  - apply set_eq. intros u. rewrite !elem_of_dom, zero_flow_lookup.
    by rewrite fmap_is_Some.
  - intros u nb. rewrite zero_flow_lookup. intros Hu.
    apply fmap_Some in Hu as (d & _ & ->). apply dom_fmap_L.
Qed.

Lemma set_flow_shape g u v a x fd :
  wf g → edge g u v = Some a → flow_shape g fd → flow_shape g (set_flow u v x fd).
Proof.
  intros Hwf He [Hd Hin]. destruct (Hwf u v a He) as [Hu _].
  assert (u ∈ dom fd) as Hufd by (rewrite Hd; by apply elem_of_dom).
  apply elem_of_dom in Hufd as [nb Hnb].
  unfold set_flow. rewrite Hnb. simpl. split.
  - rewrite dom_insert_L, <- Hd.
    assert (u ∈ dom fd) by (apply elem_of_dom; eauto). set_solver.
  - intros u' nb'. destruct (decide (u = u')) as [<-|Hne].
    + rewrite lookup_insert_eq. intros [= <-]. rewrite dom_insert_L, (Hin u nb Hnb).
      assert (v ∈ dom (succ g u)) by (apply elem_of_dom; eauto). set_solver.
    + rewrite lookup_insert_ne by done. apply Hin.
Qed.

Section over.
Context (g : DiGraph) (base : FlowDict).
Implicit Types es : list (string * string * EdgeAttr).

Lemma elem_of_candidates_cons u v a es fd :
  fd ∈ candidates_over ((u, v, a) :: es) base
  ↔ ∃ fd0 x, fd0 ∈ candidates_over es base ∧ 0 ≤ x ≤ capacity a
             ∧ fd = set_flow u v x fd0.
Proof.
  unfold candidates_over. simpl. rewrite list_elem_of_bind. split.
  - intros (fd0 & Hfd & Hfd0). apply list_elem_of_fmap in Hfd as (x & -> & Hx).
    apply elem_of_seqZ in Hx. exists fd0, x. split; [done |]. split; [lia | done].
  - intros (fd0 & x & Hfd0 & Hx & ->). exists fd0. split; [| done].
    apply list_elem_of_fmap. exists x. split; [done |]. apply elem_of_seqZ. lia.
Qed.

Lemma candidates_shape es fd :
  wf g → flow_shape g base →
  (∀ u v a, (u, v, a) ∈ es → edge g u v = Some a) →
  fd ∈ candidates_over es base → flow_shape g fd.
Proof.
  intros Hwf Hbase. revert fd. induction es as [|[[u v] a] es IH]; intros fd Hes Hfd.
  - apply list_elem_of_singleton in Hfd as ->. done.
  - apply elem_of_candidates_cons in Hfd as (fd0 & x & Hfd0 & Hx & ->).
    apply (set_flow_shape g u v a); [done | apply Hes; by left |].
    apply IH; [| done]. intros u' v' a' He. apply Hes. by right.
Qed.

Lemma candidates_range es fd :
  NoDup ((λ e, (e.1.1, e.1.2)) <$> es) →
  fd ∈ candidates_over es base →
  ∀ u v a, (u, v, a) ∈ es → 0 ≤ flow_of fd u v ≤ capacity a.
Proof.
  revert fd. induction es as [|[[u v] a] es IH]; intros fd Hnd Hfd u' v' a' He.
  - by apply elem_of_nil in He.
  - apply elem_of_candidates_cons in Hfd as (fd0 & x & Hfd0 & Hx & ->).
    rewrite fmap_cons in Hnd. apply NoDup_cons in Hnd as [Hhead Hnd].
    rewrite flow_of_set_flow. apply elem_of_cons in He as [He|He].
    + simplify_eq. by rewrite decide_True.
    + rewrite decide_False; [by apply (IH fd0) |].
      intros [-> ->]. apply Hhead. apply list_elem_of_fmap. by exists (u, v, a').
Qed.

Lemma candidates_complete es (f : Flow) :
  NoDup ((λ e, (e.1.1, e.1.2)) <$> es) →
  (∀ u v a, (u, v, a) ∈ es → 0 ≤ f u v ≤ capacity a) →
  ∃ fd, fd ∈ candidates_over es base
        ∧ ∀ u v a, (u, v, a) ∈ es → flow_of fd u v = f u v.
Proof.
  induction es as [|[[u v] a] es IH]; intros Hnd Hf.
  - exists base. split; [by apply list_elem_of_singleton |].
    intros u v a He. by apply elem_of_nil in He.
  - rewrite fmap_cons in Hnd. apply NoDup_cons in Hnd as [Hhead Hnd].
    destruct (IH Hnd) as (fd0 & Hfd0 & Hagree).
    { intros u' v' a' He. apply Hf. by right. }
    exists (set_flow u v (f u v) fd0). split.
    + apply elem_of_candidates_cons. exists fd0, (f u v).
      split; [done |]. split; [| done]. apply (Hf u v a). by left.
    + intros u' v' a' He. rewrite flow_of_set_flow.
      apply elem_of_cons in He as [He|He].
      * simplify_eq. by rewrite decide_True.
      * rewrite decide_False; [by apply (Hagree u' v' a') |].
        intros [-> ->]. apply Hhead. apply list_elem_of_fmap. by exists (u, v, a').
Qed.

End over.

Lemma argmax_elem score d l : argmax score d l ∈ d :: l.
Proof.
  induction l as [|x l IH]; simpl; [by left |].
  case_bool_decide; [right; by left |].
  apply elem_of_cons in IH as [->|IH]; [by left | right; by right].
Qed.

Lemma argmax_max score d l x : x ∈ d :: l → score x ≤ score (argmax score d l).
Proof.
  induction l as [|y l IH]; simpl.
  - intros ->%list_elem_of_singleton. done.
  - intros Hx. case_bool_decide as Hlt.
    + apply elem_of_cons in Hx as [->|Hx]; [specialize (IH ltac:(by left)); lia |].
      apply elem_of_cons in Hx as [->|Hx]; [lia |].
      specialize (IH ltac:(by right)). lia.
    + apply elem_of_cons in Hx as [->|Hx]; [apply IH; by left |].
      apply elem_of_cons in Hx as [->|Hx]; [lia | apply IH; by right].
Qed.

End ExhaustiveFacts.

Module ExhaustiveContract.
Import Exhaustive ExhaustiveFacts.

Lemma candidates_feasible g fd :
  wf g → fd ∈ candidates g → flow_shape g fd ∧ capacity_ok g (flow_of fd).
Proof.
  intros Hwf Hfd. split.
  - apply (candidates_shape g (zero_flow g) (edge_list g)); try done.
    + apply zero_flow_shape.
    + intros u v a. apply elem_of_edge_list.
  - intros u v a He. apply (candidates_range (zero_flow g) (edge_list g)); try done.
    + apply NoDup_edge_keys.
    + by apply elem_of_edge_list.
Qed.

Lemma candidates_cover g (f : Flow) :
  capacity_ok g f →
  ∃ fd, fd ∈ candidates g ∧ ∀ u v a, edge g u v = Some a → flow_of fd u v = f u v.
Proof.
  intros Hcap.
  destruct (candidates_complete (zero_flow g) (edge_list g) f) as (fd & Hfd & Hagree).
  - apply NoDup_edge_keys.
  - intros u v a He%elem_of_edge_list. by apply (Hcap u v a).
  - exists fd. split; [done |]. intros u v a He. apply (Hagree u v a).
    by apply elem_of_edge_list.
Qed.

Lemma conserving_iff g s t fd :
  conserving g s t fd
  ↔ ∀ n, is_Some (nodes g !! n) → n ≠ s → n ≠ t →
         in_flow g (flow_of fd) n = out_flow g (flow_of fd) n.
Proof.
  unfold conserving. rewrite Forall_forall. split.
  - intros H n Hn%elem_of_node_list ??. destruct (H n Hn) as [?|[?|?]]; done.
  - intros H n Hn%elem_of_node_list.
    destruct (decide (n = s)); [auto |]. destruct (decide (n = t)); auto.
Qed.

Lemma meets_demands_iff g fd :
  meets_demands g fd
  ↔ ∀ n, is_Some (nodes g !! n) →
         in_flow g (flow_of fd) n - out_flow g (flow_of fd) n = demand g n.
Proof.
  unfold meets_demands. rewrite Forall_forall. split.
  - intros H n Hn%elem_of_node_list. by apply H.
  - intros H n Hn%elem_of_node_list. by apply H.
Qed.

Lemma maximum_flow_correct g s t :
  wf g → caps_nonneg g →
  flow_shape g (maximum_flow g s t).2
  ∧ st_flow g s t (flow_of (maximum_flow g s t).2) (maximum_flow g s t).1
  ∧ ∀ f F, st_flow g s t f F → F ≤ (maximum_flow g s t).1.
Proof.
  intros Hwf Hcaps. unfold maximum_flow.
  destruct (filter (conserving g s t) (candidates g)) as [|fd0 l] eqn:Hfilter.
  - exfalso. destruct (candidates_cover g (λ _ _, 0)) as (fd & Hfd & Hagree).
    { intros u v a He. specialize (Hcaps u v a He). lia. }
    assert (fd ∈ filter (conserving g s t) (candidates g)) as Hin.
    { apply list_elem_of_filter. split; [| done]. apply conserving_iff.
      intros n _ _ _.
      rewrite (in_flow_ext g _ (λ _ _, 0)), (out_flow_ext g _ (λ _ _, 0)) by done.
      unfold in_flow, out_flow. rewrite !zsum_zero; [done | |].
      - intros [[u v] a] _. by case_decide.
      - intros [[u v] a] _. by case_decide. }
    rewrite Hfilter in Hin. by apply elem_of_nil in Hin.
  - set (score := λ fd, value g s (flow_of fd)).
    set (best := argmax score fd0 l). simpl.
    assert (best ∈ filter (conserving g s t) (candidates g)) as Hbest.
    { rewrite Hfilter. apply argmax_elem. }
    apply list_elem_of_filter in Hbest as [Hcons Hcand].
    destruct (candidates_feasible g best Hwf Hcand) as [Hshape Hcap].
    split; [done |]. split.
    + split; [done |]. split; [by apply conserving_iff | done].
    + intros f F (Hfcap & Hfcons & HF).
      destruct (candidates_cover g f Hfcap) as (fd & Hfd & Hagree).
      assert (fd ∈ fd0 :: l) as Hin.
      { rewrite <- Hfilter. apply list_elem_of_filter. split; [| done].
        apply conserving_iff. intros n Hn Hns Hnt.
        rewrite (in_flow_ext g _ f), (out_flow_ext g _ f) by done. by apply Hfcons. }
      pose proof (argmax_max score fd0 l fd Hin) as Hle.
      unfold score at 1, value in Hle.
      rewrite (in_flow_ext g _ f), (out_flow_ext g _ f) in Hle by done.
      fold best in Hle. unfold score, value in Hle. unfold value. lia.
Qed.

Lemma min_cost_flow_correct g :
  wf g →
  match min_cost_flow g with
  | FlowFound fd =>
      flow_shape g fd
      ∧ demand_flow g (flow_of fd)
      ∧ ∀ f, demand_flow g f → cost g (flow_of fd) ≤ cost g f
  | NetworkXUnfeasible => ∀ f, ¬ demand_flow g f
  end.
Proof.
  intros Hwf. unfold min_cost_flow.
  assert (∀ f, demand_flow g f →
    ∃ fd, fd ∈ filter (meets_demands g) (candidates g)
          ∧ cost g (flow_of fd) = cost g f) as Hcover.
  { intros f [Hfcap Hfdem].
    destruct (candidates_cover g f Hfcap) as (fd & Hfd & Hagree).
    exists fd. split; [| by apply cost_ext].
    apply list_elem_of_filter. split; [| done].
    apply meets_demands_iff. intros n Hn.
    rewrite (in_flow_ext g _ f), (out_flow_ext g _ f) by done. by apply Hfdem. }
  destruct (filter (meets_demands g) (candidates g)) as [|fd0 l] eqn:Hfilter.
  - intros f Hf. destruct (Hcover f Hf) as (fd & Hfd & _).
    by apply elem_of_nil in Hfd.
  - set (score := λ fd, - cost g (flow_of fd)).
    set (best := argmax score fd0 l).
    assert (best ∈ filter (meets_demands g) (candidates g)) as Hbest.
    { rewrite Hfilter. apply argmax_elem. }
    apply list_elem_of_filter in Hbest as [Hdem Hcand].
    destruct (candidates_feasible g best Hwf Hcand) as [Hshape Hcap].
    split; [done |]. split.
    + split; [done | by apply meets_demands_iff].
    + intros f Hf. destruct (Hcover f Hf) as (fd & Hfd & <-).
      pose proof (argmax_max score fd0 l fd Hfd) as Hle.
      fold best in Hle. unfold score in Hle. lia.
Qed.

End ExhaustiveContract.

Global Instance exhaustive_contract : SolverContract exhaustive.
Proof.
  split.
  - intros g s t Hwf Hcaps _ _ _. by apply ExhaustiveContract.maximum_flow_correct.
  - intros g Hwf _. by apply ExhaustiveContract.min_cost_flow_correct.
Qed.

(** ** [extract_allocations] *)

Lemma foldl_bind {A B C} (f : A → B → A) (h : C → list B) (l : list C) (a : A) :
  foldl f a (l ≫= h) = foldl (λ a x, foldl f a (h x)) a l.
Proof.
  revert a. induction l as [|x l IH]; intros a; csimpl; [done |].
  by rewrite foldl_app, IH.
Qed.

Lemma record_flow_append ride acc item :
  record_flow ride acc item
  = if bool_decide (0 < item.2)
    then append_ride acc (Py.replace "_in" "" item.1, ride)
    else acc.
Proof.
  destruct item as [v x]. unfold record_flow, append_ride. simpl.
  destruct acc as [al|]; simpl; [| by case_bool_decide].
  by case_bool_decide.
Qed.

Lemma foldl_record_flow ride acc (l : list (string * Z)) :
  foldl (record_flow ride) acc l
  = foldl append_ride acc
      ((λ item, (Py.replace "_in" "" item.1, ride)) <$> filter (λ item, 0 < item.2) l).
Proof.
  revert acc. induction l as [|item l IH]; intros acc; simpl; [done |].
  rewrite IH, record_flow_append, filter_cons.
  case_bool_decide; [by rewrite decide_True | by rewrite decide_False].
Qed.

Lemma record_ride_appends fd acc ride :
  record_ride fd acc ride = foldl append_ride acc (appends_of fd ride).
Proof.
  unfold record_ride, appends_of. destruct (fd !! ride); [| done].
  apply foldl_record_flow.
Qed.

Lemma extract_allocations_appends fd rides (offers : Offers) :
  extract_allocations fd rides offers
  = foldl append_ride (Some ((λ _, []) <$> offers)) (appends fd rides).
Proof.
  unfold extract_allocations, appends. rewrite foldl_bind.
  generalize (Some ((λ _ : list string, @nil string) <$> offers)).
  induction rides as [|r rides IH]; intros acc; simpl; [done |].
  by rewrite IH, record_ride_appends.
Qed.

Lemma foldl_append_ride_None evs : foldl append_ride None evs = None.
Proof. induction evs; simpl; done. Qed.

Lemma appended_cons k e evs :
  appended k (e :: evs) = if decide (e.1 = k) then e.2 :: appended k evs else appended k evs.
Proof. unfold appended. rewrite filter_cons. by case_decide. Qed.

(** A run of appends succeeds exactly when every key exists; it then
    extends the list under each key by the rides appended under it, in
    order, and leaves the set of keys alone. *)
Lemma foldl_append_ride_Some evs (al al' : Allocations) :
  foldl append_ride (Some al) evs = Some al' →
  Forall (λ e, is_Some (al !! e.1)) evs
  ∧ ∀ k, al' !! k = (λ l, l ++ appended k evs) <$> al !! k.
Proof.
  revert al. induction evs as [|[k r] evs IH]; intros al Hrun; simpl in Hrun.
  - simplify_eq. split; [done |]. intros k. unfold appended. simpl.
    destruct (al' !! k); simpl; [by rewrite app_nil_r | done].
  - destruct (al !! k) as [l|] eqn:Hk; simpl in Hrun;
      [| by rewrite foldl_append_ride_None in Hrun].
    apply IH in Hrun as [Hall Hlook]. split.
    + constructor; [simpl; eauto |].
      eapply Forall_impl; [done |]. intros e. simpl.
      destruct (decide (k = e.1)) as [<-|]; [eauto |].
      by rewrite lookup_insert_ne.
    + intros k'. rewrite Hlook, appended_cons. simpl.
      destruct (decide (k = k')) as [<-|Hne].
      * rewrite lookup_insert_eq, Hk. simpl. by rewrite <- (assoc_L (++)).
      * by rewrite lookup_insert_ne.
Qed.

Lemma foldl_append_ride_total evs (al : Allocations) :
  Forall (λ e, is_Some (al !! e.1)) evs →
  is_Some (foldl append_ride (Some al) evs).
Proof.
  revert al. induction evs as [|[k r] evs IH]; intros al Hall; simpl; [eauto |].
  apply Forall_cons in Hall as [[l Hk] Hall]. simpl in Hk. rewrite Hk. simpl.
  apply IH. eapply Forall_impl; [done |]. intros e. simpl.
  destruct (decide (k = e.1)) as [<-|]; [rewrite lookup_insert_eq; eauto |].
  by rewrite lookup_insert_ne.
Qed.

(** What [extract_allocations] returns, when it returns. *)
Lemma extract_allocations_Some fd rides (offers : Offers) al :
  extract_allocations fd rides offers = Some al →
  Forall (λ e, is_Some (offers !! e.1)) (appends fd rides)
  ∧ ∀ k, al !! k = (λ _, appended k (appends fd rides)) <$> offers !! k.
Proof.
  rewrite extract_allocations_appends. intros [Hall Hlook]%foldl_append_ride_Some.
  split.
  - eapply Forall_impl; [done |]. intros e. simpl. by rewrite lookup_fmap, fmap_is_Some.
  - intros k. rewrite Hlook, lookup_fmap. by destruct (offers !! k).
Qed.

(** It raises [KeyError] only when some key to append under is missing. *)
Lemma extract_allocations_total fd rides (offers : Offers) :
  Forall (λ e, is_Some (offers !! e.1)) (appends fd rides) →
  is_Some (extract_allocations fd rides offers).
Proof.
  intros Hall. rewrite extract_allocations_appends.
  apply foldl_append_ride_total. eapply Forall_impl; [done |].
  intros e. simpl. by rewrite lookup_fmap, fmap_is_Some.
Qed.

(** ** The network of a valid input *)

Lemma elem_of_reserved_nodes (offers : Offers) n :
  n ∈ reserved_nodes offers
  ↔ n = SOURCE ∨ n = SINK
    ∨ ∃ L offs, offers !! L = Some offs
        ∧ (n = leader_in L ∨ n = leader_out L
           ∨ ∃ i, (i < length offs)%nat ∧ n = slot_node L i).
Proof.
  unfold reserved_nodes, leader_nodes. rewrite !elem_of_cons, list_elem_of_bind.
  do 2 (apply or_iff_compat_l). split.
  - intros ([L offs] & Hin & HL%elem_of_map_to_list). simpl in Hin.
    exists L, offs. split; [done |].
    rewrite !elem_of_cons, list_elem_of_fmap in Hin.
    destruct Hin as [?|[?|(i & -> & Hi%elem_of_seq)]]; [auto | auto |].
    right. right. exists i. split; [lia | done].
  - intros (L & offs & HL & Hn). exists (L, offs).
    split; [| by apply elem_of_map_to_list]. simpl.
    rewrite !elem_of_cons, list_elem_of_fmap.
    destruct Hn as [?|[?|(i & Hi & ->)]]; [auto | auto |].
    right. right. exists i. split; [done |]. apply elem_of_seq. lia.
Qed.

Section valid.
Context (rides : list string) (offers : Offers).
Hypothesis Hvalid : valid_input rides offers.

Lemma ride_not_reserved r : r ∈ rides → r ∉ reserved_nodes offers.
Proof.
  destruct Hvalid as [_ Hres]. intros Hr. by eapply Forall_forall in Hres.
Qed.

Lemma ride_not_source r : r ∈ rides → r ≠ SOURCE.
Proof.
  intros Hr%ride_not_reserved ->. apply Hr, elem_of_reserved_nodes. auto.
Qed.

Lemma ride_not_sink r : r ∈ rides → r ≠ SINK.
Proof.
  intros Hr%ride_not_reserved ->. apply Hr, elem_of_reserved_nodes. auto.
Qed.

Lemma ride_not_leader_in r L offs :
  r ∈ rides → offers !! L = Some offs → r ≠ leader_in L.
Proof.
  intros Hr%ride_not_reserved HL ->. apply Hr, elem_of_reserved_nodes.
  right. right. exists L, offs. auto.
Qed.

Lemma ride_not_leader_out r L offs :
  r ∈ rides → offers !! L = Some offs → r ≠ leader_out L.
Proof.
  intros Hr%ride_not_reserved HL ->. apply Hr, elem_of_reserved_nodes.
  right. right. exists L, offs. auto.
Qed.

Lemma ride_not_slot r L offs i :
  r ∈ rides → offers !! L = Some offs → (i < length offs)%nat → r ≠ slot_node L i.
Proof.
  intros Hr%ride_not_reserved HL Hi ->. apply Hr, elem_of_reserved_nodes.
  right. right. exists L, offs. split; [done |]. right. right. eauto.
Qed.

(** The edges out of a ride node lead to the leaders who offer the ride. *)
Lemma edges_from_ride r v a :
  r ∈ rides → edge (built rides offers) r v = Some a →
  ∃ L offs, offers !! L = Some offs ∧ r ∈ offs ∧ v = leader_in L
            ∧ a = {| capacity := 1; weight := 0 |}.
Proof.
  intros Hr He%built_sound.
  inversion He as [r' Hr' Hu Hv | L offs i HL Hi Hu Hv | L offs i HL Hi Hu Hv
                   | L offs HL Hu Hv | L offs r' HL Hr' Hrides' Hu Hv]; subst.
  - by apply ride_not_source in Hr.
  - by eapply ride_not_leader_in in Hr.
  - by eapply ride_not_slot in Hr.
  - by eapply ride_not_leader_out in Hr.
  - eauto 10.
Qed.

(** The only edge into a ride node comes from the source. *)
Lemma edges_into_ride r u a :
  r ∈ rides → edge (built rides offers) u r = Some a →
  u = SOURCE ∧ a = {| capacity := 1; weight := 0 |}.
Proof.
  intros Hr He%built_sound.
  inversion He as [r' Hr' Hu Hv | L offs i HL Hi Hu Hv | L offs i HL Hi Hu Hv
                   | L offs HL Hu Hv | L offs r' HL Hr' Hrides' Hu Hv]; subst.
  - done.
  - by eapply ride_not_slot in Hr.
  - by eapply ride_not_leader_out in Hr.
  - by apply ride_not_sink in Hr.
  - by eapply ride_not_leader_in in Hr.
Qed.

(** No edge enters the source. *)
Lemma edges_into_source u a : edge (built rides offers) u SOURCE = Some a → False.
Proof.
  intros He%built_sound.
  inversion He as [r' Hr' Hu Hv | L offs i HL Hi Hu Hv | L offs i HL Hi Hu Hv
                   | L offs HL Hu Hv | L offs r' HL Hr' Hrides' Hu Hv]; subst;
    try name_clash.
  by apply ride_not_source in Hr'.
Qed.

(** The edges out of the source lead to the rides. *)
Lemma edges_from_source v a :
  edge (built rides offers) SOURCE v = Some a →
  v ∈ rides ∧ a = {| capacity := 1; weight := 0 |}.
Proof.
  intros He%built_sound.
  inversion He as [r' Hr' Hu Hv | L offs i HL Hi Hu Hv | L offs i HL Hi Hu Hv
                   | L offs HL Hu Hv | L offs r' HL Hr' Hrides' Hu Hv]; subst;
    try name_clash.
  - done.
  - by apply ride_not_source in Hrides'.
Qed.

End valid.

(** ** Flows through the network of a valid input *)

Lemma in_flow_select g f n (l : list (string * string * EdgeAttr)) :
  NoDup l → (∀ u v a, (u, v, a) ∈ l ↔ edge g u v = Some a ∧ v = n) →
  in_flow g f n = zsum (λ e, f e.1.1 e.1.2) l.
Proof.
  intros Hnd Hl. unfold in_flow.
  rewrite (zsum_ext _ (λ e, if decide (e.1.2 = n) then f e.1.1 e.1.2 else 0))
    by (by intros [[??]?] _).
  apply (zsum_edges_select g (λ e, e.1.2 = n)); [done |].
  intros [[u v] a]. by rewrite Hl, elem_of_edge_list.
Qed.

Lemma out_flow_select g f n (l : list (string * string * EdgeAttr)) :
  NoDup l → (∀ u v a, (u, v, a) ∈ l ↔ edge g u v = Some a ∧ u = n) →
  out_flow g f n = zsum (λ e, f e.1.1 e.1.2) l.
Proof.
  intros Hnd Hl. unfold out_flow.
  rewrite (zsum_ext _ (λ e, if decide (e.1.1 = n) then f e.1.1 e.1.2 else 0))
    by (by intros [[??]?] _).
  apply (zsum_edges_select g (λ e, e.1.1 = n)); [done |].
  intros [[u v] a]. by rewrite Hl, elem_of_edge_list.
Qed.

Section valid_flows.
Context (rides : list string) (offers : Offers).
Hypothesis Hvalid : valid_input rides offers.
Let g := built rides offers.

Lemma ride_is_node r : r ∈ rides → is_Some (nodes g !! r).
Proof.
  intros Hr. destruct (built_tidy rides offers) as (Hwf & _).
  eapply (Hwf SOURCE r). apply built_edges. by constructor.
Qed.

Lemma in_flow_ride f r : r ∈ rides → in_flow g f r = f SOURCE r.
Proof.
  intros Hr.
  rewrite (in_flow_select g f r [(SOURCE, r, {| capacity := 1; weight := 0 |})]).
  - simpl. lia.
  - apply NoDup_singleton.
  - intros u v a. rewrite list_elem_of_singleton. split.
    + intros [= -> -> ->]. split; [| done]. apply built_edges. by constructor.
    + intros [He ->]. by destruct (edges_into_ride rides offers Hvalid r u a Hr He) as [-> ->].
Qed.

Lemma in_flow_source f : in_flow g f SOURCE = 0.
Proof.
  apply zsum_zero. intros [[u v] a] He%elem_of_edge_list.
  case_decide; [subst | done]. by apply edges_into_source in He.
Qed.

Lemma out_flow_source f : out_flow g f SOURCE = zsum (λ r, f SOURCE r) rides.
Proof.
  rewrite (out_flow_select g f SOURCE
             ((λ r, (SOURCE, r, {| capacity := 1; weight := 0 |})) <$> rides)).
  - by rewrite zsum_fmap.
  - apply NoDup_fmap_2; [| apply Hvalid]. intros r r' ?. by simplify_eq.
  - intros u v a. rewrite list_elem_of_fmap. split.
    + intros (r & [= -> -> ->] & Hr). split; [| done]. apply built_edges. by constructor.
    + intros [He ->]. destruct (edges_from_source rides offers Hvalid v a He) as [Hv ->].
      by exists v.
Qed.

(** The value of a flow is the number of units that pass through the
    ride nodes. *)
Lemma flow_value_rides f F :
  st_flow g SOURCE SINK f F → F = zsum (out_flow g f) rides.
Proof.
  intros (_ & Hcons & HF). rewrite out_flow_source, in_flow_source in HF.
  rewrite <- HF, Z.sub_0_r. apply zsum_ext. intros r Hr.
  rewrite <- in_flow_ride by done. apply Hcons.
  - by apply ride_is_node.
  - by apply (ride_not_source rides offers).
  - by apply (ride_not_sink rides offers).
Qed.

Lemma ride_flow_unit f F r :
  st_flow g SOURCE SINK f F → r ∈ rides → 0 ≤ out_flow g f r ≤ 1.
Proof.
  intros (Hcap & Hcons & _) Hr.
  rewrite <- (Hcons r), in_flow_ride by
    (done || by apply ride_is_node || by apply (ride_not_source rides offers)
     || by apply (ride_not_sink rides offers)).
  apply (Hcap SOURCE r {| capacity := 1; weight := 0 |}).
  apply built_edges. by constructor.
Qed.

End valid_flows.

(** ** Appends and flow *)

Lemma length_bind_zsum {A B} (h : A → list B) (l : list A) :
  Z.of_nat (length (l ≫= h)) = zsum (λ x, Z.of_nat (length (h x))) l.
Proof.
  induction l as [|x l IH]; csimpl; [done |]. rewrite length_app. lia.
Qed.

Lemma length_positive (l : list (string * Z)) :
  (∀ item, item ∈ l → 0 ≤ item.2 ≤ 1) →
  Z.of_nat (length (filter (λ item, 0 < item.2) l)) = zsum (λ item, item.2) l.
Proof.
  induction l as [|item l IH]; intros Hl; simpl; [done |].
  rewrite filter_cons. pose proof (Hl item (list_elem_of_here _ _)).
  rewrite <- IH by (intros; apply Hl; by right).
  case_decide; simpl; lia.
Qed.

(** The entries of [flow_dict[u]] are the flows on the edges out of [u]. *)
Lemma flow_dict_entries g fd u nb :
  fd !! u = Some nb → dom nb = dom (succ g u) →
  map_to_list nb ≡ₚ (λ item, (item.1, flow_of fd u item.1)) <$> map_to_list (succ g u).
Proof.
  intros Hu Hdom.
  assert (∀ v, flow_of fd u v = default 0 (nb !! v)) as Hflow.
  { intros v. unfold flow_of. by rewrite Hu. }
  apply NoDup_Permutation.
  - apply NoDup_map_to_list.
  - apply NoDup_fmap_2_strong; [| apply NoDup_map_to_list].
    intros [v a] [v' a'] Hv%elem_of_map_to_list Hv'%elem_of_map_to_list [= <- _].
    congruence.
  - intros [v x]. rewrite elem_of_map_to_list, list_elem_of_fmap. split.
    + intros Hv. assert (v ∈ dom (succ g u)) as [a Ha]%elem_of_dom.
      { rewrite <- Hdom. apply elem_of_dom. eauto. }
      exists (v, a). simpl. rewrite Hflow, Hv. split; [done |].
      by apply elem_of_map_to_list.
    + intros ([v' a] & [= -> ->] & Ha%elem_of_map_to_list). simpl.
      assert (v' ∈ dom nb) as [y Hy]%elem_of_dom.
      { rewrite Hdom. apply elem_of_dom. eauto. }
      by rewrite Hflow, Hy.
Qed.

Lemma flow_dict_out_flow g fd u nb :
  fd !! u = Some nb → dom nb = dom (succ g u) →
  zsum (λ item, item.2) (map_to_list nb) = out_flow g (flow_of fd) u.
Proof.
  intros Hu Hdom. rewrite (zsum_perm _ _ _ (flow_dict_entries g fd u nb Hu Hdom)).
  rewrite zsum_fmap, out_flow_succ. apply zsum_ext. by intros [v a] _.
Qed.

Lemma flow_shape_lookup g fd u :
  flow_shape g fd → is_Some (nodes g !! u) →
  ∃ nb, fd !! u = Some nb ∧ dom nb = dom (succ g u).
Proof.
  intros [Hd Hin] Hu. assert (u ∈ dom fd) as [nb Hnb]%elem_of_dom.
  { rewrite Hd. by apply elem_of_dom. }
  exists nb. split; [done |]. by apply Hin.
Qed.

Lemma appends_of_ride fd r e : e ∈ appends_of fd r → e.2 = r.
Proof.
  unfold appends_of. destruct (fd !! r); [| by intros ?%elem_of_nil].
  by intros (item & -> & _)%list_elem_of_fmap.
Qed.

Lemma appends_NoDup_gen fd (l : list string) :
  NoDup l → (∀ r, r ∈ l → (length (appends_of fd r) ≤ 1)%nat) →
  NoDup (l ≫= appends_of fd).*2.
Proof.
  induction 1 as [|r l Hr Hl IH]; intros Hlen; csimpl; [constructor |].
  rewrite fmap_app. apply NoDup_app. split; [| split].
  - specialize (Hlen r ltac:(by left)).
    destruct (appends_of fd r) as [|e [|e' ?]]; simpl in *; [constructor | | lia].
    apply NoDup_singleton.
  - intros x (e & -> & He%appends_of_ride)%list_elem_of_fmap.
    intros (e' & He' & Hin)%list_elem_of_fmap.
    apply list_elem_of_bind in Hin as (r' & Hin%appends_of_ride & Hr').
    congruence.
  - apply IH. intros r' Hr'. apply Hlen. by right.
Qed.

Section valid_appends.
Context (rides : list string) (offers : Offers) (fd : FlowDict) (F : Z).
Hypothesis Hvalid : valid_input rides offers.
Let g := built rides offers.
Hypothesis Hshape : flow_shape g fd.
Hypothesis Hflow : st_flow g SOURCE SINK (flow_of fd) F.

(** A ride is appended once for each unit of flow that leaves its node. *)
Lemma length_appends_of r :
  r ∈ rides → Z.of_nat (length (appends_of fd r)) = out_flow g (flow_of fd) r.
Proof.
  intros Hr.
  destruct (flow_shape_lookup g fd r Hshape (ride_is_node rides offers r Hr))
    as (nb & Hnb & Hdom).
  unfold appends_of, positive_flows. rewrite Hnb, length_fmap, length_positive.
  - by apply (flow_dict_out_flow g).
  - intros [v x] Hv%elem_of_map_to_list. simpl.
    assert (v ∈ dom (succ g r)) as [a Ha]%elem_of_dom.
    { rewrite <- Hdom. apply elem_of_dom. eauto. }
    destruct (edges_from_ride rides offers Hvalid r v a Hr Ha) as (L & offs & _ & _ & _ & ->).
    destruct Hflow as (Hcap & _). specialize (Hcap r v _ Ha).
    unfold flow_of in Hcap. rewrite Hnb in Hcap. simpl in Hcap.
    by rewrite Hv in Hcap.
Qed.

(** As many rides are appended, over all leaders, as units flow. *)
Lemma length_appends : Z.of_nat (length (appends fd rides)) = F.
Proof.
  unfold appends. rewrite length_bind_zsum.
  rewrite (flow_value_rides rides offers Hvalid (flow_of fd) F Hflow).
  apply zsum_ext. intros r Hr. by apply length_appends_of.
Qed.

(** No ride is appended twice. *)
Lemma appends_rides_NoDup : NoDup (appends fd rides).*2.
Proof.
  apply appends_NoDup_gen; [apply Hvalid |].
  intros r Hr. pose proof (length_appends_of r Hr) as Hlen.
  pose proof (ride_flow_unit rides offers Hvalid (flow_of fd) F r Hflow Hr) as Hunit.
  fold g in Hunit. lia.
Qed.

End valid_appends.

(** ** Counting the assigned rides *)

Lemma zsum_ones {A} (l : list A) : zsum (λ _, 1) l = Z.of_nat (length l).
Proof. induction l as [|x l IH]; simpl; lia. Qed.

Lemma allocations_entries (offers : Offers) evs (al : Allocations) :
  (∀ k, al !! k = (λ _, appended k evs) <$> offers !! k) →
  map_to_list al ≡ₚ (λ item, (item.1, appended item.1 evs)) <$> map_to_list offers.
Proof.
  intros Hal. apply NoDup_Permutation.
  - apply NoDup_map_to_list.
  - apply NoDup_fmap_2_strong; [| apply NoDup_map_to_list].
    intros [k v] [k' v'] Hk%elem_of_map_to_list Hk'%elem_of_map_to_list [= <- _].
    congruence.
  - intros [k l]. rewrite elem_of_map_to_list, list_elem_of_fmap, Hal. split.
    + intros (offs & Hk & ->)%fmap_Some. exists (k, offs).
      split; [done | by apply elem_of_map_to_list].
    + intros ([k' offs] & [= -> ->] & Hk%elem_of_map_to_list). simpl.
      by rewrite Hk.
Qed.

(** When every append finds its key, the lists of the result hold, in
    total, one ride per append. *)
Lemma assigned_total_appends (offers : Offers) evs (al : Allocations) :
  (∀ k, al !! k = (λ _, appended k evs) <$> offers !! k) →
  Forall (λ e, is_Some (offers !! e.1)) evs →
  assigned_total al = Z.of_nat (length evs).
Proof.
  intros Hal Hkeys. unfold assigned_total.
  rewrite (zsum_perm _ _ _ (allocations_entries offers evs al Hal)), zsum_fmap.
  rewrite (zsum_ext _ (λ item, zsum (λ e : string * string,
             if decide (e.1 = item.1) then 1 else 0) evs)).
  2:{ intros [k offs] _. simpl. unfold appended.
      by rewrite length_fmap, <- zsum_ones, zsum_filter. }
  rewrite zsum_swap, <- zsum_ones. apply zsum_ext. intros e He.
  eapply Forall_forall in Hkeys as [offs Hoffs]; [| done].
  transitivity (zsum (λ k, if decide (k = e.1) then 1 else 0) (map_to_list offers).*1).
  { rewrite zsum_fmap. apply zsum_ext. intros [k v] _. simpl.
    repeat case_decide; congruence. }
  apply (zsum_single (e.1) (λ _, 1)); [apply NoDup_fst_map_to_list |].
  apply list_elem_of_fmap. exists (e.1, offs). split; [done |].
  by apply elem_of_map_to_list.
Qed.

(** ** The three calls in sequence *)

Lemma populate_graph_built rides offers :
  (populate_graph rides offers).1 = (built rides offers, SOURCE, SINK).
Proof. done. Qed.

Lemma solve_unfold nx rides offers :
  solve nx rides offers
  = '(g', (F, fd), out2) ← assign_ride_leaders nx (built rides offers) SOURCE SINK;
    al ← extract_allocations fd rides offers;
    Some {| allocation := al; filled_count := F; flow_dict := fd;
            final_graph := g'; stdout := (populate_graph rides offers).2 ++ out2 |}.
Proof. done. Qed.

Lemma source_not_sink : SOURCE ≠ SINK.
Proof. done. Qed.

Section solve.
Context (nx : FlowSolver) `{!SolverContract nx}.
Context (rides : list string) (offers : Offers).
Let g := built rides offers.

(** With a solver that honours its contract the second call always
    returns: the flow found by the first phase meets the demands set for
    the second. *)
Lemma assign_built :
  ∃ g' fd,
    assign_ride_leaders nx g SOURCE SINK
    = Some (g', ((maximum_flow nx g SOURCE SINK).1, fd), [])
    ∧ adj g' = adj g
    ∧ (∀ n, is_Some (nodes g' !! n) ↔ is_Some (nodes g !! n))
    ∧ (∀ n, n ≠ SOURCE → n ≠ SINK → nodes g' !! n = nodes g !! n)
    ∧ max_flow_min_cost g SOURCE SINK (maximum_flow nx g SOURCE SINK).1 fd.
Proof.
  destruct (built_tidy rides offers) as (Hwf & Hcaps & Hdem).
  destruct (built_nodes_source_sink rides offers) as [Hs Ht].
  apply assign_ride_leaders_ok; auto using source_not_sink.
Qed.

Lemma solve_Some o :
  solve nx rides offers = Some o →
  max_flow_min_cost g SOURCE SINK (filled_count o) (flow_dict o)
  ∧ adj (final_graph o) = adj g
  ∧ extract_allocations (flow_dict o) rides offers = Some (allocation o)
  ∧ stdout o = (populate_graph rides offers).2.
Proof.
  rewrite solve_unfold.
  destruct assign_built as (g' & fd & Hassign & Hadj & _ & _ & Hopt).
  unfold g in Hassign. rewrite Hassign. simpl.
  destruct (extract_allocations fd rides offers) as [al|] eqn:Hal; simpl; [| done].
  intros [= <-]. simpl. rewrite app_nil_r. done.
Qed.

Lemma solve_is_Some :
  (∀ fd, max_flow_min_cost g SOURCE SINK (maximum_flow nx g SOURCE SINK).1 fd →
         is_Some (extract_allocations fd rides offers)) →
  is_Some (solve nx rides offers).
Proof.
  intros Hex. rewrite solve_unfold.
  destruct assign_built as (g' & fd & Hassign & _ & _ & _ & Hopt).
  unfold g in Hassign. rewrite Hassign. simpl.
  destruct (Hex fd Hopt) as [al ->]. simpl. eauto.
Qed.

End solve.

(** ** The claims *)




(** ** Appends under plain leader ids *)

Section plain.
Context (rides : list string) (offers : Offers) (fd : FlowDict).
Hypothesis Hvalid : valid_input rides offers.
Hypothesis Hplain : plain_leader_ids offers.
Let g := built rides offers.
Hypothesis Hshape : flow_shape g fd.

Lemma replace_leader_in_plain L offs :
  offers !! L = Some offs → Py.replace "_in" "" (leader_in L) = L.
Proof. intros HL. apply replace_leader_in. by apply (Hplain L offs). Qed.

(** A ride is appended under a key exactly when the key is a leader who
    offered the ride and the edge from the ride to that leader carries
    flow. *)
Lemma elem_of_appends_of_plain k r :
  r ∈ rides →
  (k, r) ∈ appends_of fd r
  ↔ ∃ offs, offers !! k = Some offs ∧ r ∈ offs ∧ 0 < flow_of fd r (leader_in k).
Proof.
  intros Hr.
  destruct (flow_shape_lookup g fd r Hshape (ride_is_node rides offers r Hr))
    as (nb & Hnb & Hdom).
  unfold appends_of, positive_flows. rewrite Hnb, list_elem_of_fmap. split.
  - intros ([v x] & [= ->] & [Hx Hv%elem_of_map_to_list]%list_elem_of_filter).
    simpl in *. assert (v ∈ dom (succ g r)) as [a Ha]%elem_of_dom.
    { rewrite <- Hdom. apply elem_of_dom. eauto. }
    destruct (edges_from_ride rides offers Hvalid r v a Hr Ha)
      as (L & offs & HL & Hoffs & -> & _).
    rewrite (replace_leader_in_plain L offs HL). exists offs.
    split; [done |]. split; [done |]. unfold flow_of. by rewrite Hnb; simpl; rewrite Hv.
  - intros (offs & HL & Hoffs & Hpos). unfold flow_of in Hpos.
    rewrite Hnb in Hpos. simpl in Hpos.
    destruct (nb !! leader_in k) as [x|] eqn:Hx; simpl in Hpos; [| lia].
    exists (leader_in k, x). simpl. rewrite (replace_leader_in_plain k offs HL).
    split; [done |]. apply list_elem_of_filter. split; [done |].
    by apply elem_of_map_to_list.
Qed.

Lemma appends_keys_plain : Forall (λ e, is_Some (offers !! e.1)) (appends fd rides).
Proof.
  apply Forall_forall. intros [k r] (r' & He & Hr')%list_elem_of_bind.
  pose proof (appends_of_ride fd r' _ He) as Heq. simpl in Heq. subst r'.
  apply elem_of_appends_of_plain in He as (offs & HL & _); [| done].
  simpl. eauto.
Qed.

Lemma extract_allocations_plain_total : is_Some (extract_allocations fd rides offers).
Proof. apply extract_allocations_total, appends_keys_plain. Qed.

End plain.

Lemma NoDup_snd_unique {A B} (l : list (A * B)) a b r :
  NoDup (l.*2) → (a, r) ∈ l → (b, r) ∈ l → a = b.
Proof.
  induction l as [|[x y] l IH]; csimpl; intros Hnd Ha Hb.
  - by apply elem_of_nil in Ha.
  - apply NoDup_cons in Hnd as [Hy Hnd].
    apply elem_of_cons in Ha as [Ha|Ha], Hb as [Hb|Hb]; simplify_eq.
    + done.
    + exfalso. apply Hy. apply list_elem_of_fmap. by exists (b, y).
    + exfalso. apply Hy. apply list_elem_of_fmap. by exists (a, y).
    + by apply IH.
Qed.

Lemma elem_of_appended k r evs : r ∈ appended k evs ↔ (k, r) ∈ evs.
Proof.
  unfold appended. rewrite list_elem_of_fmap. split.
  - intros ([k' r'] & -> & [Hk He]%list_elem_of_filter). simpl in *. by subst.
  - intros He. exists (k, r). split; [done |]. by apply list_elem_of_filter.
Qed.

Lemma appended_NoDup k evs : NoDup (evs.*2) → NoDup (appended k evs).
Proof.
  intros Hnd. eapply sublist_NoDup; [done |].
  unfold appended. apply fmap_sublist, sublist_filter.
Qed.





(** ** Empty inputs *)

Lemma zero_st_flow g s t : caps_nonneg g → st_flow g s t (λ _ _, 0) 0.
Proof.
  intros Hcaps.
  assert (∀ n, in_flow g (λ _ _, 0) n = 0) as Hin.
  { intros n. apply zsum_zero. intros [[u v] a] _. by case_decide. }
  assert (∀ n, out_flow g (λ _ _, 0) n = 0) as Hout.
  { intros n. apply zsum_zero. intros [[u v] a] _. by case_decide. }
  split; [| split].
  - intros u v a He. specialize (Hcaps u v a He). lia.
  - intros n _ _ _. by rewrite Hin, Hout.
  - by rewrite Hin, Hout.
Qed.

Lemma extract_allocations_no_appends fd rides (offers : Offers) :
  appends fd rides = [] →
  extract_allocations fd rides offers = Some ((λ _, []) <$> offers).
Proof. intros H. by rewrite extract_allocations_appends, H. Qed.

Lemma appends_nil fd (l : list string) :
  (∀ r, r ∈ l → appends_of fd r = []) → l ≫= appends_of fd = [].
Proof.
  induction l as [|r l IH]; intros Hnone; csimpl; [done |].
  rewrite Hnone by (by left). apply IH. intros r' Hr'. apply Hnone. by right.
Qed.

Section no_leaders.
Context (rides : list string).
Hypothesis Hsource : SOURCE ∉ rides.
Hypothesis Hsink : SINK ∉ rides.
Let g := built rides (∅ : Offers).

Lemma no_leaders_edges u v a :
  edge g u v = Some a → u = SOURCE ∧ v ∈ rides.
Proof.
  intros He%built_sound.
  inversion He as [r' Hr' Hu Hv | L offs i HL Hi Hu Hv | L offs i HL Hi Hu Hv
                   | L offs HL Hu Hv | L offs r' HL Hr' Hrides' Hu Hv]; subst;
    try (by rewrite lookup_empty in HL).
  done.
Qed.

Lemma no_leaders_value f F : st_flow g SOURCE SINK f F → F ≤ 0.
Proof.
  intros Hf. destruct (built_tidy rides ∅) as (Hwf & _).
  destruct (built_nodes_source_sink rides ∅) as [Hs Ht].
  pose proof (cut_bound g SOURCE SINK f F
                (λ n, if decide (n = SINK) then 1 else 0)
                Hwf Hf source_not_sink Hs Ht) as Hcut.
  cbv beta in Hcut. rewrite decide_True, decide_False in Hcut by done.
  unfold cut_value in Hcut. rewrite zsum_zero in Hcut; [lia |].
  intros [[u v] a] [-> Hv]%elem_of_edge_list%no_leaders_edges.
  rewrite decide_False by (intros ->; done).
  rewrite decide_False by done. lia.
Qed.

Lemma no_leaders_appends fd : flow_shape g fd → appends fd rides = [].
Proof.
  intros Hshape. unfold appends. apply appends_nil.
  assert (∀ r, r ∈ rides → appends_of fd r = []) as Hnone; [| done].
  { intros r Hr.
    destruct (flow_shape_lookup g fd r Hshape (ride_is_node rides ∅ r Hr))
      as (nb & Hnb & Hdom).
    assert (nb = ∅) as ->.
    { apply map_empty. intros v. apply not_elem_of_dom. rewrite Hdom.
      apply not_elem_of_dom. destruct (succ g r !! v) as [a|] eqn:Ha; [| done].
      apply no_leaders_edges in Ha as [-> _]. done. }
    unfold appends_of, positive_flows. by rewrite Hnb, map_to_list_empty. }
Qed.

End no_leaders.




(** ** An unfeasible demand *)

Lemma extract_allocations_empty_flow rides (offers : Offers) :
  extract_allocations ∅ rides offers = Some ((λ _, []) <$> offers).
Proof.
  apply extract_allocations_no_appends. unfold appends. apply appends_nil.
  intros r _. unfold appends_of. by rewrite lookup_empty.
Qed.




(** ** Offers of rides that do not exist *)

Lemma add_offers_stdout (rides : list string) st item :
  (add_offers rides st item).2 = st.2 ++ warnings_of rides item.
Proof.
  destruct item as [L offs]. unfold add_offers, warnings_of. simpl.
  revert st. induction offs as [|r offs IH]; intros st; simpl.
  - by rewrite app_nil_r.
  - rewrite IH, filter_cons. case_bool_decide; simpl.
    + by rewrite decide_False by auto.
    + rewrite decide_True by done. by rewrite <- (assoc_L (++)).
Qed.

Lemma all_offers_stdout (rides : list string) l st :
  (foldl (add_offers rides) st l).2 = st.2 ++ (l ≫= warnings_of rides).
Proof.
  revert st. induction l as [|item l IH]; intros st; csimpl.
  - by rewrite app_nil_r.
  - by rewrite IH, add_offers_stdout, <- (assoc_L (++)).
Qed.

Lemma populate_graph_stdout rides (offers : Offers) :
  (populate_graph rides offers).2 = map_to_list offers ≫= warnings_of rides.
Proof. unfold populate_graph. simpl. by rewrite all_offers_stdout. Qed.



(** ** The optimum does not depend on the solver *)

Lemma optimum_unique g s t F fd F' fd' :
  max_flow_min_cost g s t F fd → max_flow_min_cost g s t F' fd' →
  F = F' ∧ cost g (flow_of fd) = cost g (flow_of fd').
Proof.
  intros (_ & Hf & Hmax & Hmin) (_ & Hf' & Hmax' & Hmin').
  pose proof (Hmax _ _ Hf'). pose proof (Hmax' _ _ Hf).
  assert (F = F') as <- by lia. split; [done |].
  pose proof (Hmin _ Hf'). pose proof (Hmin' _ Hf). lia.
Qed.

(** The [filled_count] of any solver that honours the contract is the one
    the exhaustive solver computes. *)
Lemma filled_count_exhaustive rides (offers : Offers) F fd :
  max_flow_min_cost (built rides offers) SOURCE SINK F fd →
  F = (Exhaustive.maximum_flow (built rides offers) SOURCE SINK).1.
Proof.
  intros Hopt.
  destruct (assign_built exhaustive rides offers) as (_ & fd' & _ & _ & _ & _ & Hopt').
  by destruct (optimum_unique _ _ _ _ _ _ _ Hopt Hopt').
Qed.

(** ** One ride with one leader who offers it *)

Lemma elem_of_appends_of g fd r e :
  flow_shape g fd → is_Some (nodes g !! r) → e ∈ appends_of fd r →
  ∃ v a, edge g r v = Some a ∧ e = (Py.replace "_in" "" v, r).
Proof.
  intros Hshape Hr He.
  destruct (flow_shape_lookup g fd r Hshape Hr) as (nb & Hnb & Hdom).
  unfold appends_of, positive_flows in He. rewrite Hnb in He.
  apply list_elem_of_fmap in He as ([v x] & -> & [_ Hv%elem_of_map_to_list]%list_elem_of_filter).
  assert (v ∈ dom (succ g r)) as [a Ha]%elem_of_dom.
  { rewrite <- Hdom. apply elem_of_dom. eauto. }
  by exists v, a.
Qed.

Section one_ride_one_leader.
Context (r L : string) (offers : Offers) (fd : FlowDict).
Hypothesis Hvalid : valid_input [r] offers.
Hypothesis Honly : ∀ L' offs, offers !! L' = Some offs → r ∈ offs → L' = L.
Hypothesis Hopt : max_flow_min_cost (built [r] offers) SOURCE SINK 1 fd.

Lemma forced_append : appends fd [r] = [(Py.replace "_in" "" (leader_in L), r)].
Proof.
  destruct Hopt as (Hshape & Hflow & _).
  pose proof (length_appends [r] offers fd 1 Hvalid Hshape Hflow) as Hlen.
  assert (∀ e, e ∈ appends fd [r] → e = (Py.replace "_in" "" (leader_in L), r)) as Hall.
  { intros e He. unfold appends in He. csimpl in He. rewrite app_nil_r in He.
    assert (r ∈ [r]) as Hr by (by left).
    destruct (elem_of_appends_of _ fd r e Hshape (ride_is_node [r] offers r Hr) He)
      as (v & a & Hedge & ->).
    destruct (edges_from_ride [r] offers Hvalid r v a Hr Hedge)
      as (L' & offs & HL' & Hoffs & -> & _).
    by rewrite (Honly L' offs HL' Hoffs). }
  destruct (appends fd [r]) as [|e [|e' l]]; simpl in Hlen; [lia | | lia].
  f_equal. apply Hall. by left.
Qed.

End one_ride_one_leader.

(** [solve] with a solver that honours the contract, in one equation. *)
Lemma solve_extract (nx : FlowSolver) `{!SolverContract nx} rides (offers : Offers) :
  ∃ g' fd,
    max_flow_min_cost (built rides offers) SOURCE SINK
      (maximum_flow nx (built rides offers) SOURCE SINK).1 fd
    ∧ adj g' = adj (built rides offers)
    ∧ solve nx rides offers
      = ((λ al, {| allocation := al;
                  filled_count := (maximum_flow nx (built rides offers) SOURCE SINK).1;
                  flow_dict := fd; final_graph := g';
                  stdout := (populate_graph rides offers).2 |})
         <$> extract_allocations fd rides offers).
Proof.
  destruct (assign_built nx rides offers) as (g' & fd & Hassign & Hadj & _ & _ & Hopt).
  exists g', fd. split; [done |]. split; [done |].
  rewrite solve_unfold, Hassign. simpl.
  destruct (extract_allocations fd rides offers); simpl; [| done].
  by rewrite app_nil_r.
Qed.

Lemma suffix_offers_valid : valid_input one_ride suffix_offers.
Proof. apply (bool_decide_unpack _). by vm_compute. Qed.

Lemma merged_offers_valid : valid_input one_ride merged_offers.
Proof. apply (bool_decide_unpack _). by vm_compute. Qed.

(** C8, the code against the claim: [leader.replace('_in', '')] removes
    every occurrence of ["_in"], not only the suffix that names the
    [LeaderIn] node.  With the one leader ["A_in"] offering the one ride,
    the flow goes from the ride to the node ["A_in_in"], the key looked up
    is ["A"], and [extract_allocations] raises [KeyError]: no mapping is
    returned, whichever solver that honours the contract is used. *)
Theorem leader_id_with_in_raises_key_error (nx : FlowSolver) `{!SolverContract nx} :
  solve nx one_ride suffix_offers = None.
Proof.
  destruct (solve_extract nx one_ride suffix_offers) as (g' & fd & Hopt & _ & ->).
  pose proof (filled_count_exhaustive _ _ _ _ Hopt) as HF.
  rewrite HF in Hopt. clear HF.
  replace (Exhaustive.maximum_flow (built one_ride suffix_offers) SOURCE SINK).1
    with 1 in Hopt by (by vm_compute).
  assert (appends fd one_ride = [("A", "R1")]) as Happ.
  { apply (forced_append "R1" "A_in" suffix_offers fd suffix_offers_valid); [| done].
    intros L' offs HL' _. unfold suffix_offers in HL'.
    by apply lookup_singleton_Some in HL' as [<- _]. }
  destruct (extract_allocations fd one_ride suffix_offers) as [al|] eqn:Hal;
    [exfalso | reflexivity].
  apply extract_allocations_Some in Hal as [Hkeys _].
  rewrite Happ in Hkeys. apply Forall_cons in Hkeys as [[x Hx] _].
  by vm_compute in Hx.
Qed.

Lemma leader_id_with_in_raises_key_error_witness :
  solve exhaustive one_ride suffix_offers = None.
Proof. exact (leader_id_with_in_raises_key_error exhaustive). Defined.

(** The same on [extract_allocations] alone, with the flow dictionary
    written out. *)
Lemma extract_allocations_key_error :
  extract_allocations {[ "R1" := {[ "A_in_in" := 1 ]} ]} one_ride suffix_offers = None.
Proof. by vm_compute. Qed.

(** C3, the code against the claim: with the leaders ["A_inB"], who offers
    the one ride, and ["AB"], who offers nothing, the key computed for the
    node ["A_inB_in"] is ["AB"]: the ride is recorded under the leader who
    did not offer it, whichever solver that honours the contract is
    used. *)
Theorem ride_recorded_under_another_leader (nx : FlowSolver) `{!SolverContract nx} :
  ∃ o, solve nx one_ride merged_offers = Some o
       ∧ allocation o !! "AB" = Some ["R1"]
       ∧ merged_offers !! "AB" = Some []
       ∧ allocation o !! "A_inB" = Some [].
Proof.
  destruct (solve_extract nx one_ride merged_offers) as (g' & fd & Hopt & _ & ->).
  pose proof (filled_count_exhaustive _ _ _ _ Hopt) as HF.
  rewrite HF in Hopt. clear HF.
  replace (Exhaustive.maximum_flow (built one_ride merged_offers) SOURCE SINK).1
    with 1 in Hopt by (by vm_compute).
  assert (appends fd one_ride = [("AB", "R1")]) as Happ.
  { apply (forced_append "R1" "A_inB" merged_offers fd merged_offers_valid); [| done].
    intros L' offs HL' Hoffs. unfold merged_offers in HL'.
    apply lookup_insert_Some in HL' as [[<- _]|[_ HL']]; [done |].
    apply lookup_singleton_Some in HL' as [_ <-]. by apply elem_of_nil in Hoffs. }
  destruct (extract_allocations_total fd one_ride merged_offers) as [al Hal].
  { rewrite Happ. constructor; [| done]. apply (bool_decide_unpack _). by vm_compute. }
  rewrite Hal. eexists. split; [reflexivity |].
  apply extract_allocations_Some in Hal as [_ Hlook].
  cbn [allocation]. rewrite !Hlook, Happ. by vm_compute.
Qed.

Lemma ride_recorded_under_another_leader_witness :
  ∃ o, solve exhaustive one_ride merged_offers = Some o
       ∧ allocation o !! "AB" = Some ["R1"]
       ∧ merged_offers !! "AB" = Some []
       ∧ allocation o !! "A_inB" = Some [].
Proof. exact (ride_recorded_under_another_leader exhaustive). Defined.

(** ** The allocation under plain leader ids, exactly *)

Lemma flow_of_no_edge g fd u v :
  flow_shape g fd → edge g u v = None → flow_of fd u v = 0.
Proof.
  intros [_ Hin] He. unfold flow_of.
  destruct (fd !! u) as [nb|] eqn:Hnb; simpl; [| done].
  destruct (nb !! v) as [x|] eqn:Hv; simpl; [| done].
  assert (v ∈ dom (succ g u)) as [a Ha]%elem_of_dom.
  { rewrite <- (Hin u nb Hnb). apply elem_of_dom. eauto. }
  unfold edge in He. congruence.
Qed.

Lemma list_all_same {A} `{!EqDecision A} (a : A) (l : list A) :
  NoDup l → (∀ y, y ∈ l → y = a) → l = if decide (a ∈ l) then [a] else [].
Proof.
  intros Hnd Hall. destruct l as [|x [|y l]].
  - by rewrite decide_False by (by intros ?%elem_of_nil).
  - rewrite (Hall x) by (by left). rewrite decide_True by (by left). done.
  - exfalso. apply NoDup_cons in Hnd as [Hx _]. apply Hx.
    rewrite (Hall x), (Hall y) by (by left || (right; by left)). by left.
Qed.

Section plain_exact.
Context (rides : list string) (offers : Offers) (fd : FlowDict).
Hypothesis Hvalid : valid_input rides offers.
Hypothesis Hplain : plain_leader_ids offers.
Let g := built rides offers.
Hypothesis Hshape : flow_shape g fd.

Lemma appends_of_NoDup r : r ∈ rides → NoDup (appends_of fd r).
Proof.
  intros Hr.
  destruct (flow_shape_lookup g fd r Hshape (ride_is_node rides offers r Hr))
    as (nb & Hnb & Hdom).
  unfold appends_of, positive_flows. rewrite Hnb.
  apply NoDup_fmap_2_strong; [| apply NoDup_filter, NoDup_map_to_list].
  intros [v x] [v' x'] [_ Hv%elem_of_map_to_list]%list_elem_of_filter
    [_ Hv'%elem_of_map_to_list]%list_elem_of_filter [= Heq]. simpl in Heq.
  assert (∀ w y, nb !! w = Some y →
            ∃ L offs, offers !! L = Some offs ∧ w = leader_in L) as Hkey.
  { intros w y Hw. assert (w ∈ dom (succ g r)) as [a Ha]%elem_of_dom.
    { rewrite <- Hdom. apply elem_of_dom. eauto. }
    destruct (edges_from_ride rides offers Hvalid r w a Hr Ha)
      as (L & offs & HL & _ & -> & _). eauto. }
  destruct (Hkey v x Hv) as (L & offs & HL & ->).
  destruct (Hkey v' x' Hv') as (L' & offs' & HL' & ->).
  rewrite (replace_leader_in_plain offers Hplain L offs HL) in Heq.
  rewrite (replace_leader_in_plain offers Hplain L' offs' HL') in Heq.
  subst L'. f_equal. congruence.
Qed.

Lemma appended_of_plain k offs r :
  offers !! k = Some offs → r ∈ rides →
  appended k (appends_of fd r)
  = if decide (0 < flow_of fd r (leader_in k)) then [r] else [].
Proof.
  intros Hk Hr. unfold appended.
  rewrite (list_all_same (k, r) (filter (λ e, e.1 = k) (appends_of fd r))).
  - case_decide as Hin.
    + apply list_elem_of_filter in Hin as [_ Hin].
      apply (elem_of_appends_of_plain rides offers fd Hvalid Hplain Hshape) in Hin
        as (offs' & _ & _ & Hpos); [| done].
      by rewrite decide_True.
    + rewrite decide_False; [done |]. intros Hpos. apply Hin.
      apply list_elem_of_filter. split; [done |].
      apply (elem_of_appends_of_plain rides offers fd Hvalid Hplain Hshape); [done |].
      destruct (edge g r (leader_in k)) as [a|] eqn:He.
      * destruct (edges_from_ride rides offers Hvalid r _ a Hr He)
          as (L & offs' & HL & Hoffs & ->%leader_in_inj & _).
        exists offs'. done.
      * rewrite (flow_of_no_edge g fd r (leader_in k) Hshape He) in Hpos. lia.
  - apply NoDup_filter. by apply appends_of_NoDup.
  - intros [k' r'] [Hk' He]%list_elem_of_filter. simpl in Hk'. subst k'.
    pose proof (appends_of_ride fd r _ He) as Heq. simpl in Heq. by subst r'.
Qed.

(** The list of a leader holds the rides whose edge to the leader
    carries flow, in the order of [rides]. *)
Lemma appended_plain k offs :
  offers !! k = Some offs →
  appended k (appends fd rides) = filter (λ r, 0 < flow_of fd r (leader_in k)) rides.
Proof.
  intros Hk. unfold appends.
  assert (∀ r, r ∈ rides → r ∈ rides) as Hsub by done.
  revert Hsub. generalize rides at 1 3 4 as l.
  induction l as [|r l IH]; intros Hsub; [done |].
  csimpl. unfold appended in *. rewrite filter_app, fmap_app, filter_cons.
  rewrite IH by (intros; apply Hsub; by right).
  fold (appended k (appends_of fd r)).
  rewrite (appended_of_plain k offs r Hk) by (apply Hsub; by left).
  by case_decide.
Qed.

(** The flow on an edge from a ride to a leader is 0 or 1. *)
Lemma ride_leader_flow_unit r k :
  capacity_ok g (flow_of fd) → r ∈ rides → 0 ≤ flow_of fd r (leader_in k) ≤ 1.
Proof.
  intros Hcap Hr. destruct (edge g r (leader_in k)) as [a|] eqn:He.
  - destruct (edges_from_ride rides offers Hvalid r _ a Hr He) as (_ & _ & _ & _ & _ & ->).
    apply (Hcap _ _ _ He).
  - rewrite (flow_of_no_edge g fd r (leader_in k) Hshape He). lia.
Qed.

End plain_exact.

(** ** Checking flows and bounds by computation *)

Lemma st_flow_listed_sound g s t f F : st_flow_listed g s t f F → st_flow g s t f F.
Proof.
  intros (Hcap & Hcons & HF). split; [| split; [| done]].
  - intros u v a He%elem_of_edge_list.
    eapply Forall_forall in Hcap; [| done]. done.
  - intros n Hn%elem_of_node_list Hs Ht.
    eapply Forall_forall in Hcons; [| done]. naive_solver.
Qed.

Lemma capacity_ok_listed g f :
  capacity_ok g f → Forall (λ e, 0 ≤ f e.1.1 e.1.2 ≤ capacity e.2) (edge_list g).
Proof.
  intros Hcap. apply Forall_forall. intros [[u v] a] He%elem_of_edge_list.
  by apply (Hcap u v a).
Qed.

Lemma in_flow_in_edges g f n :
  in_flow g f n = zsum (λ e, f e.1.1 e.1.2) (in_edges g n).
Proof.
  unfold in_flow, in_edges. rewrite zsum_filter. apply zsum_ext. by intros [[??]?] _.
Qed.

Lemma out_flow_out_edges g f n :
  out_flow g f n = zsum (λ e, f e.1.1 e.1.2) (out_edges g n).
Proof.
  unfold out_flow, out_edges. rewrite zsum_filter. apply zsum_ext. by intros [[??]?] _.
Qed.

Lemma cost_listed g f :
  cost g f = zsum (λ e, weight e.2 * f e.1.1 e.1.2) (edge_list g).
Proof. apply zsum_ext. by intros [[??]?] _. Qed.

(** Weak duality for the cost of a flow of a given value. *)
Lemma dual_bound_st g s t f F (π : string → Z) :
  wf g → st_flow g s t f F → s ≠ t →
  is_Some (nodes g !! s) → is_Some (nodes g !! t) →
  dual_value_st g s t F π ≤ cost g f.
Proof.
  intros Hwf Hf Hst Hs Ht.
  pose proof (st_flow_node_sum g s t f F π Hf Hst Hs Ht) as Hsum.
  pose proof (st_flow_sink g s t f F Hwf Hf Hst Hs Ht) as Hsink.
  rewrite potential_identity in Hsum by done.
  destruct Hf as (Hcap & _ & HF). unfold dual_value_st, cost.
  replace ((π t - π s) * F)
    with (zsum (λ '(u, v, _), (π v - π u) * f u v) (edge_list g)).
  2:{ rewrite Hsum, Hsink. replace (in_flow g f s - out_flow g f s) with (- F) by lia.
      lia. }
  rewrite <- zsum_plus. apply zsum_le. intros [[u v] a] He.
  apply elem_of_edge_list, Hcap in He. nia.
Qed.

Lemma length_filter_pos {A} (h : A → Z) (l : list A) :
  (∀ x, x ∈ l → 0 ≤ h x ≤ 1) →
  Z.of_nat (length (filter (λ x, 0 < h x) l)) = zsum h l.
Proof.
  induction l as [|x l IH]; intros Hl; simpl; [done |].
  rewrite filter_cons. pose proof (Hl x (list_elem_of_here _ _)).
  rewrite <- IH by (intros; apply Hl; by right).
  case_decide; simpl; lia.
Qed.

(** ** Scenario A *)

Lemma scenario_valid : valid_input scenario_rides scenario_offers.
Proof. apply (bool_decide_unpack _). by vm_compute. Qed.

Lemma scenario_plain : plain_leader_ids scenario_offers.
Proof. apply (bool_decide_unpack _). by vm_compute. Qed.

Lemma scenario_flow_ok :
  st_flow (built scenario_rides scenario_offers) SOURCE SINK scenario_flow 5.
Proof. apply st_flow_listed_sound. apply (bool_decide_unpack _). by vm_compute. Qed.

Lemma scenario_flow_cost : cost (built scenario_rides scenario_offers) scenario_flow = 2.
Proof. by vm_compute. Qed.

Lemma scenario_cut_value :
  cut_value (built scenario_rides scenario_offers) scenario_cut = 5.
Proof. by vm_compute. Qed.

Lemma scenario_dual_value :
  dual_value_st (built scenario_rides scenario_offers) SOURCE SINK 5 scenario_potential = 2.
Proof. by vm_compute. Qed.

(** Decides a closed decidable proposition by evaluation. *)
Ltac by_evaluation := apply (bool_decide_unpack _); by vm_compute.

Section scenario.
Context (F : Z) (fd : FlowDict).
Let g := built scenario_rides scenario_offers.
Hypothesis Hopt : max_flow_min_cost g SOURCE SINK F fd.

Lemma scenario_filled : F = 5.
Proof.
  destruct Hopt as (_ & Hflow & Hmax & _).
  pose proof (Hmax _ _ scenario_flow_ok) as Hge.
  destruct (built_tidy scenario_rides scenario_offers) as (Hwf & _).
  destruct (built_nodes_source_sink scenario_rides scenario_offers) as [Hs Ht].
  pose proof (cut_bound g SOURCE SINK _ F scenario_cut Hwf Hflow source_not_sink Hs Ht)
    as Hcut.
  unfold g in Hcut. rewrite scenario_cut_value in Hcut.
  change (scenario_cut SINK) with 1 in Hcut.
  change (scenario_cut SOURCE) with 0 in Hcut. lia.
Qed.

Lemma scenario_cost : cost g (flow_of fd) = 2.
Proof.
  pose proof scenario_filled as HF.
  destruct Hopt as (_ & Hflow & _ & Hmin). subst F.
  pose proof (Hmin _ scenario_flow_ok) as Hle.
  unfold g in Hle. rewrite scenario_flow_cost in Hle.
  destruct (built_tidy scenario_rides scenario_offers) as (Hwf & _).
  destruct (built_nodes_source_sink scenario_rides scenario_offers) as [Hs Ht].
  pose proof (dual_bound_st g SOURCE SINK _ 5 scenario_potential Hwf Hflow
                source_not_sink Hs Ht) as Hge.
  unfold g in Hge. rewrite scenario_dual_value in Hge. unfold g. lia.
Qed.

End scenario.

Section scenario_loads.
Context (fd : FlowDict).
Let g := built scenario_rides scenario_offers.
Let f := flow_of fd.
Hypothesis Hflow : st_flow g SOURCE SINK f 5.
Hypothesis Hcost : cost g f = 2.

(** Conservation at the node [n] of the scenario graph, written out over
    the edges into and out of [n]. *)
Ltac conserve n :=
  let H := fresh "Hnode" in
  assert (in_flow g f n = out_flow g f n) as H
    by (apply Hflow; by_evaluation);
  rewrite in_flow_in_edges, out_flow_out_edges in H;
  let li := eval vm_compute in (in_edges g n) in
  let lo := eval vm_compute in (out_edges g n) in
  replace (in_edges g n) with li in H by (by vm_compute);
  replace (out_edges g n) with lo in H by (by vm_compute);
  cbn [zsum fst snd] in H.

Lemma scenario_loads :
  1 ≤ f "R1" "X_in" + f "R2" "X_in" + f "R3" "X_in" ≤ 2
  ∧ 1 ≤ f "R1" "Y_in" + f "R2" "Y_in" + f "R4" "Y_in" + f "R5" "Y_in" ≤ 2
  ∧ 1 ≤ f "R3" "Z_in" + f "R4" "Z_in" + f "R5" "Z_in" ≤ 2.
Proof.
  pose proof (capacity_ok_listed g f (proj1 Hflow)) as Hcap.
  pose proof Hcost as Hc. rewrite cost_listed in Hc.
  destruct Hflow as (_ & _ & Hvalue).
  rewrite in_flow_in_edges, out_flow_out_edges in Hvalue.
  let l := eval vm_compute in (edge_list g) in
  replace (edge_list g) with l in Hcap, Hc by (by vm_compute).
  let li := eval vm_compute in (in_edges g SOURCE) in
  let lo := eval vm_compute in (out_edges g SOURCE) in
  replace (in_edges g SOURCE) with li in Hvalue by (by vm_compute);
  replace (out_edges g SOURCE) with lo in Hvalue by (by vm_compute).
  cbn [zsum fst snd weight] in Hc, Hvalue.
  repeat (apply Forall_cons in Hcap as [? Hcap]). cbn [fst snd capacity] in *.
  conserve "R1". conserve "R2". conserve "R3". conserve "R4". conserve "R5".
  conserve "R6".
  conserve "X_in". conserve "Y_in". conserve "Z_in".
  conserve "X_slot_0". conserve "X_slot_1". conserve "X_slot_2".
  conserve "Y_slot_0". conserve "Y_slot_1". conserve "Y_slot_2". conserve "Y_slot_3".
  conserve "Z_slot_0". conserve "Z_slot_1". conserve "Z_slot_2".
  lia.
Qed.

End scenario_loads.

(** ** The lists of the three leaders of the scenario *)

Section scenario_lists.
Context (fd : FlowDict).
Let g := built scenario_rides scenario_offers.
Hypothesis Hshape : flow_shape g fd.
Hypothesis Hflow : st_flow g SOURCE SINK (flow_of fd) 5.
Hypothesis Hcost : cost g (flow_of fd) = 2.

(** The flow on a pair of nodes that is not an edge of the scenario
    graph. *)
Ltac no_flow u v :=
  let H := fresh "Hzero" in
  assert (flow_of fd u v = 0) as H
    by (apply (flow_of_no_edge g); [exact Hshape | by vm_compute]).

Lemma scenario_list_length leader :
  Z.of_nat (length (filter (λ r, 0 < flow_of fd r (leader_in leader)) scenario_rides))
  = zsum (λ r, flow_of fd r (leader_in leader)) scenario_rides.
Proof.
  apply length_filter_pos. intros r Hr.
  apply (ride_leader_flow_unit scenario_rides scenario_offers fd scenario_valid
           Hshape r leader (proj1 Hflow) Hr).
Qed.

Lemma scenario_list_X :
  (1 ≤ length (filter (λ r, (0 < flow_of fd r (leader_in "X"))%Z) scenario_rides) ≤ 2)%nat.
Proof.
  pose proof (scenario_list_length "X") as Hlen.
  pose proof (scenario_loads fd Hflow Hcost) as (HX & _ & _).
  unfold scenario_rides in Hlen at 2. cbn [zsum] in Hlen.
  change (leader_in "X") with "X_in" in Hlen |- *.
  no_flow "R4" "X_in". no_flow "R5" "X_in". no_flow "R6" "X_in".
  rewrite Hzero, Hzero0, Hzero1 in Hlen. lia.
Qed.

Lemma scenario_list_Y :
  (1 ≤ length (filter (λ r, (0 < flow_of fd r (leader_in "Y"))%Z) scenario_rides) ≤ 2)%nat.
Proof.
  pose proof (scenario_list_length "Y") as Hlen.
  pose proof (scenario_loads fd Hflow Hcost) as (_ & HY & _).
  unfold scenario_rides in Hlen at 2. cbn [zsum] in Hlen.
  change (leader_in "Y") with "Y_in" in Hlen |- *.
  no_flow "R3" "Y_in". no_flow "R6" "Y_in".
  rewrite Hzero, Hzero0 in Hlen. lia.
Qed.

Lemma scenario_list_Z :
  (1 ≤ length (filter (λ r, (0 < flow_of fd r (leader_in "Z"))%Z) scenario_rides) ≤ 2)%nat.
Proof.
  pose proof (scenario_list_length "Z") as Hlen.
  pose proof (scenario_loads fd Hflow Hcost) as (_ & _ & HZ).
  unfold scenario_rides in Hlen at 2. cbn [zsum] in Hlen.
  change (leader_in "Z") with "Z_in" in Hlen |- *.
  no_flow "R1" "Z_in". no_flow "R2" "Z_in". no_flow "R6" "Z_in".
  rewrite Hzero, Hzero0, Hzero1 in Hlen. lia.
Qed.

Lemma scenario_no_sixth leader :
  leader ∈ ["X"; "Y"; "Z"] →
  "R6" ∉ filter (λ r, 0 < flow_of fd r (leader_in leader)) scenario_rides.
Proof.
  intros Hleader [Hpos _]%list_elem_of_filter.
  assert (flow_of fd "R6" (leader_in leader) = 0) as Hsix; [| lia].
  apply (flow_of_no_edge g); [exact Hshape |]. clear Hpos.
  apply elem_of_cons in Hleader as [Heq|Hleader]; [subst leader; by vm_compute |].
  apply elem_of_cons in Hleader as [Heq|Hleader]; [subst leader; by vm_compute |].
  apply elem_of_cons in Hleader as [Heq|Hleader]; [subst leader; by vm_compute |].
  by apply elem_of_nil in Hleader.
Qed.

Lemma scenario_lists leader :
  leader ∈ ["X"; "Y"; "Z"] →
  let l := filter (λ r, 0 < flow_of fd r (leader_in leader)) scenario_rides in
  (1 ≤ length l ≤ 2)%nat ∧ "R6" ∉ l.
Proof.
  intros Hleader l. subst l.
  split; [| exact (scenario_no_sixth leader Hleader)].
  apply elem_of_cons in Hleader as [Heq|Hleader];
    [rewrite Heq; exact scenario_list_X |].
  apply elem_of_cons in Hleader as [Heq|Hleader];
    [rewrite Heq; exact scenario_list_Y |].
  apply elem_of_cons in Hleader as [Heq|Hleader];
    [rewrite Heq; exact scenario_list_Z |].
  apply elem_of_nil in Hleader. destruct Hleader.
Qed.

End scenario_lists.

(** Scenario A with any solver that honours the contract: five rides are
    filled, at cost 2; every leader gets one or two rides, and R6, which
    nobody offers, goes to no one. *)
Lemma scenario_outcome (nx : FlowSolver) `{!SolverContract nx} :
  ∃ o, solve nx scenario_rides scenario_offers = Some o
       ∧ filled_count o = 5
       ∧ total_cost o = 2
       ∧ assigned_total (allocation o) = 5
       ∧ ∀ leader, leader ∈ ["X"; "Y"; "Z"] →
           ∃ l, allocation o !! leader = Some l
                ∧ (1 ≤ length l ≤ 2)%nat ∧ "R6" ∉ l.
Proof.
  destruct (solve_extract nx scenario_rides scenario_offers)
    as (g' & fd & Hopt & Hadj & Hsolve).
  pose proof (scenario_filled _ fd Hopt) as HF. rewrite HF in Hopt, Hsolve.
  pose proof (scenario_cost 5 fd Hopt) as Hcost.
  destruct Hopt as (Hshape & Hflow & _).
  destruct (extract_allocations_plain_total scenario_rides scenario_offers fd
              scenario_valid scenario_plain Hshape) as [al Hal].
  rewrite Hal in Hsolve. eexists. split; [exact Hsolve |].
  apply extract_allocations_Some in Hal as [Hkeys Hlook].
  cbn [filled_count allocation fmap option_fmap option_map].
  split; [done |]. split.
  { unfold total_cost. cbn [final_graph flow_dict]. by rewrite (cost_adj _ g' _ Hadj). }
  split.
  { rewrite (assigned_total_appends scenario_offers _ _ Hlook Hkeys).
    by apply (length_appends scenario_rides scenario_offers fd 5 scenario_valid). }
  intros leader Hleader.
  assert (is_Some (scenario_offers !! leader)) as [offs Hoffs].
  { apply elem_of_cons in Hleader as [Heq|Hleader]; [rewrite Heq; by_evaluation |].
    apply elem_of_cons in Hleader as [Heq|Hleader]; [rewrite Heq; by_evaluation |].
    apply elem_of_cons in Hleader as [Heq|Hleader]; [rewrite Heq; by_evaluation |].
    apply elem_of_nil in Hleader. destruct Hleader. }
  exists (filter (λ r, 0 < flow_of fd r (leader_in leader)) scenario_rides).
  split; [| exact (scenario_lists fd Hshape Hflow Hcost leader Hleader)].
  rewrite Hlook, Hoffs. simpl. f_equal.
  by apply (appended_plain scenario_rides scenario_offers fd scenario_valid
              scenario_plain Hshape leader offs).
Qed.

(** C5 (as amended).  On the input of scenario A the solve fills 5 rides,
    not 6: nobody offers R6.  The cost of the flow is 2, every leader
    receives one or two rides, five in all, and R6 is in no list. *)
Theorem scenario_A_fills_five (nx : FlowSolver) `{!SolverContract nx} :
  ∃ o, solve nx scenario_rides scenario_offers = Some o
       ∧ filled_count o = 5
       ∧ total_cost o = 2
       ∧ assigned_total (allocation o) = 5
       ∧ ∀ leader, leader ∈ ["X"; "Y"; "Z"] →
           ∃ l, allocation o !! leader = Some l
                ∧ (1 ≤ length l ≤ 2)%nat ∧ "R6" ∉ l.
Proof. exact (scenario_outcome nx). Qed.

Lemma scenario_A_fills_five_witness :
  ∃ o, solve exhaustive scenario_rides scenario_offers = Some o
       ∧ filled_count o = 5
       ∧ total_cost o = 2
       ∧ assigned_total (allocation o) = 5
       ∧ ∀ leader, leader ∈ ["X"; "Y"; "Z"] →
           ∃ l, allocation o !! leader = Some l
                ∧ (1 ≤ length l ≤ 2)%nat ∧ "R6" ∉ l.
Proof. exact (scenario_A_fills_five exhaustive). Defined.

(** C5, the claim as stated fails: a solver that honours the contract
    returns [filled_count] 5 and cost 2 on scenario A, not 6 and 3. *)
Lemma scenario_A_not_six :
  ∃ o, solve exhaustive scenario_rides scenario_offers = Some o
       ∧ filled_count o = 5 ∧ filled_count o ≠ 6
       ∧ total_cost o = 2 ∧ total_cost o ≠ 3.
Proof.
  destruct (scenario_outcome exhaustive) as (o & Ho & HF & Hc & _).
  exists o. split; [exact Ho |]. rewrite HF, Hc.
  split; [reflexivity |]. split; [discriminate |]. split; [reflexivity | discriminate].
Qed.

(** * Further properties of the tool *)

(** ** The nodes of the network *)

(** A property that holds of the empty graph and survives the addition of
    every node the construction names holds of the result. *)
Section closed_nodes.
Context (rides : list string) (offers : Offers) (P : DiGraph → Prop).
Let named (n : string) : Prop := n ∈ rides ∨ n ∈ reserved_nodes offers.
Hypothesis P_node : ∀ n d g, named n → P g → P (add_node n d g).
Hypothesis P_edge : ∀ u v c w g, named u → named v → P g → P (add_edge u v c w g).

Lemma named_source : named SOURCE.
Proof. right. apply elem_of_reserved_nodes. auto. Qed.

Lemma named_sink : named SINK.
Proof. right. apply elem_of_reserved_nodes. auto. Qed.

Lemma named_leader_in L offs : offers !! L = Some offs → named (leader_in L).
Proof. intros HL. right. apply elem_of_reserved_nodes. right. right. eauto 6. Qed.

Lemma named_leader_out L offs : offers !! L = Some offs → named (leader_out L).
Proof. intros HL. right. apply elem_of_reserved_nodes. right. right. eauto 7. Qed.

Lemma named_slot L offs i :
  offers !! L = Some offs → (i < length offs)%nat → named (slot_node L i).
Proof. intros HL Hi. right. apply elem_of_reserved_nodes. right. right. eauto 9. Qed.

Lemma populate_closed_nodes : P DiGraph.empty → P (built rides offers).
Proof.
  intros H0. unfold built, populate_graph. simpl.
  apply (foldl_invariant (λ st, P st.1)).
  - simpl. apply foldl_invariant.
    + unfold add_rides. apply foldl_invariant.
      * apply P_node; [apply named_sink |]. apply P_node; [apply named_source | done].
      * intros g r Hr Hg. apply P_edge; [apply named_source | by left |].
        apply P_node; [by left | done].
    + intros g [L offs] HL%elem_of_map_to_list Hg. unfold add_leader.
      apply P_edge; [by eapply named_leader_out | apply named_sink |].
      unfold add_slots. apply foldl_invariant.
      * apply P_node; [by eapply named_leader_out |].
        apply P_node; [by eapply named_leader_in | done].
      * intros g' i Hi%elem_of_seq Hg'.
        assert (named (slot_node L i)) by (eapply named_slot; [done | lia]).
        apply P_edge; [done | by eapply named_leader_out |].
        apply P_edge; [by eapply named_leader_in | done |].
        by apply P_node.
  - intros st [L offs] HL%elem_of_map_to_list Hst. unfold add_offers.
    apply (foldl_invariant (λ st, P st.1)); [done |].
    intros [g' out] r Hr Hg'. simpl in *. case_bool_decide; simpl; [| done].
    apply P_edge; [by left | by eapply named_leader_in | done].
Qed.

End closed_nodes.

Lemma leader_node_present rides (offers : Offers) L offs n :
  offers !! L = Some offs → n ∈ leader_nodes (L, offs) →
  is_Some (nodes (built rides offers) !! n).
Proof.
  intros HL Hn. unfold built, populate_graph. simpl.
  set (g1 := add_rides rides _).
  pose proof (all_offers_grows rides (map_to_list offers)
                (foldl add_leader g1 (map_to_list offers), [])) as [H23 _].
  apply H23. simpl.
  apply (foldl_reach (λ g, is_Some (nodes g !! n)) _ _ (L, offs)).
  - by apply elem_of_map_to_list.
  - intros g. unfold add_leader. apply grows_add_edge.
    unfold leader_nodes in Hn. simpl in Hn.
    apply elem_of_cons in Hn as [->|Hn]; [| apply elem_of_cons in Hn as [->|Hn]].
    + apply add_slots_grows, grows_add_node. rewrite is_node_add_node. auto.
    + apply add_slots_grows. rewrite is_node_add_node. auto.
    + apply list_elem_of_fmap in Hn as (i & -> & Hi). unfold add_slots.
      apply (foldl_reach (λ g, is_Some (nodes g !! slot_node L i)) _ _ i); [done | |].
      * intros g'. rewrite !is_node_add_edge. auto.
      * intros g' j. apply add_slot_grows.
  - intros g y. apply add_leader_grows.
Qed.

(** X1.  The nodes of the graph returned by [populate_graph] are the
    source, the sink, the rides and, for every leader, the leader's in
    node, out node and one slot node per offer; a ride id that is offered
    but is not in [rides] does not become a node. *)
Theorem populate_graph_nodes (rides : list string) (leader_offers : Offers) (n : string) :
  is_Some (nodes (built rides leader_offers) !! n)
  ↔ n = SOURCE ∨ n = SINK ∨ n ∈ rides
    ∨ ∃ leader offers,
        leader_offers !! leader = Some offers
        ∧ (n = leader_in leader ∨ n = leader_out leader
           ∨ ∃ i, (i < length offers)%nat ∧ n = slot_node leader i).
Proof.
  split.
  - revert n.
    apply (populate_closed_nodes rides leader_offers
             (λ g, ∀ n, is_Some (nodes g !! n) → _)).
    + intros m d g Hm Hg n. rewrite is_node_add_node. intros [->|Hn]; [| by apply Hg].
      destruct Hm as [Hm|Hm%elem_of_reserved_nodes]; tauto.
    + intros u v c w g Hu Hv Hg n. rewrite is_node_add_edge.
      intros [->|[->|Hn]]; [| | by apply Hg].
      * destruct Hu as [Hu|Hu%elem_of_reserved_nodes]; tauto.
      * destruct Hv as [Hv|Hv%elem_of_reserved_nodes]; tauto.
    + intros n [x Hx]. done.
  - intros [->|[->|[Hr|(L & offs & HL & Hn)]]].
    + apply built_nodes_source_sink.
    + apply built_nodes_source_sink.
    + by apply ride_is_node.
    + apply (leader_node_present rides leader_offers L offs n HL).
      unfold leader_nodes. simpl.
      destruct Hn as [->|[->|(i & Hi & ->)]]; [by left | right; by left |].
      right. right. apply list_elem_of_fmap. exists i. split; [done |].
      apply elem_of_seq. lia.
Qed.

(** ** The graph handed to the solvers *)

Lemma edge_spec_weight_nonneg rides offers u v a :
  edge_spec rides offers u v a → 0 ≤ weight a.
Proof. destruct 1; simpl; lia. Qed.

(** X2.  In the graph returned by [populate_graph], whatever the input,
    every edge joins two nodes and has a capacity and a weight that are
    not negative, and no node has a demand other than 0. *)
Theorem populate_graph_well_formed (rides : list string) (leader_offers : Offers) :
  let graph := built rides leader_offers in
  (∀ u v a, edge graph u v = Some a →
            is_Some (nodes graph !! u) ∧ is_Some (nodes graph !! v)
            ∧ 0 ≤ capacity a ∧ 0 ≤ weight a)
  ∧ ∀ n, demand graph n = 0.
Proof.
  intros graph. destruct (built_tidy rides leader_offers) as (Hwf & Hcaps & Hdem).
  split; [| done]. intros u v a He.
  destruct (Hwf u v a He) as [Hu Hv]. split; [done |]. split; [done |].
  split; [by apply (Hcaps u v) |].
  apply built_sound in He. by apply edge_spec_weight_nonneg in He.
Qed.

(** ** The second phase always finds a flow *)

Lemma assign_ride_leaders_graph nx graph source sink graph' r out :
  assign_ride_leaders nx graph source sink = Some (graph', r, out) →
  with_demands graph source sink (maximum_flow nx graph source sink).1 = Some graph'.
Proof.
  unfold assign_ride_leaders, with_demands.
  destruct (set_demand source _ graph) as [g1|]; simpl; [| done].
  destruct (set_demand sink _ g1) as [g2|]; simpl; [| done].
  destruct (min_cost_flow nx g2); by intros [= <- _ _].
Qed.

Lemma with_demands_demand graph source sink F graph' n :
  source ≠ sink →
  with_demands graph source sink F = Some graph' →
  demand graph' n
  = if decide (n = sink) then F else if decide (n = source) then - F else demand graph n.
Proof.
  intros Hst. unfold with_demands.
  destruct (set_demand source (- F) graph) as [g1|] eqn:H1; simpl; [| done].
  intros H2. rewrite (set_demand_demand _ _ _ _ n H2).
  case_decide; [done |]. by rewrite (set_demand_demand _ _ _ _ n H1).
Qed.

(** X3.  On a graph whose edges join nodes, with capacities that are not
    negative and no demand set, and with two different nodes as source and
    sink, [assign_ride_leaders] with a solver that honours the contract
    never reaches its [except] branch: it prints nothing and returns the
    value of the maximum flow, which is not negative, with a flow
    dictionary that has an entry for every node and meets the demand [-F]
    at the source, [F] at the sink and 0 elsewhere. *)
Theorem assign_ride_leaders_always_feasible (nx : FlowSolver) `{!SolverContract nx}
    (graph : DiGraph) (source sink : string) :
  tidy graph →
  is_Some (nodes graph !! source) → is_Some (nodes graph !! sink) → source ≠ sink →
  ∃ graph' F flow_dict,
    assign_ride_leaders nx graph source sink = Some (graph', (F, flow_dict), [])
    ∧ F = (maximum_flow nx graph source sink).1
    ∧ 0 ≤ F
    ∧ dom flow_dict = dom (nodes graph)
    ∧ demand graph' source = - F
    ∧ demand graph' sink = F
    ∧ (∀ n, n ≠ source → n ≠ sink → demand graph' n = 0)
    ∧ demand_flow graph' (flow_of flow_dict).
Proof.
  intros (Hwf & Hcaps & Hdem) Hs Ht Hst.
  destruct (assign_ride_leaders_ok nx graph source sink Hwf Hcaps Hs Ht Hst)
    as (g' & fd & Hassign & Hadj & Hnodes & _ & (Hshape & Hflow & Hmax & _)).
  { intros n _ _. apply Hdem. }
  pose proof (assign_ride_leaders_graph _ _ _ _ _ _ _ Hassign) as Hwith.
  pose proof (with_demands_demand _ _ _ _ _ source Hst Hwith) as Hds.
  pose proof (with_demands_demand _ _ _ _ _ sink Hst Hwith) as Hdt.
  rewrite decide_False, decide_True in Hds by done. rewrite decide_True in Hdt by done.
  assert (∀ n, n ≠ source → n ≠ sink → demand g' n = 0) as Hdn.
  { intros n Hns Hnt. rewrite (with_demands_demand _ _ _ _ _ n Hst Hwith).
    rewrite !decide_False by done. apply Hdem. }
  exists g', (maximum_flow nx graph source sink).1, fd.
  split; [done |]. split; [done |].
  split; [apply (Hmax _ _ (zero_st_flow graph source sink Hcaps)) |].
  split; [apply Hshape |]. do 3 (split; [done |]).
  by apply (st_flow_demand_flow graph g' source sink
              (maximum_flow nx graph source sink).1).
Qed.

Lemma assign_ride_leaders_always_feasible_witness :
  ∃ graph' flow_dict,
    assign_ride_leaders exhaustive (built one_ride one_offer) SOURCE SINK
    = Some (graph', (1, flow_dict), [])
    ∧ demand graph' SOURCE = -1 ∧ demand graph' SINK = 1.
Proof.
  destruct (assign_ride_leaders_always_feasible exhaustive
              (built one_ride one_offer) SOURCE SINK)
    as (g' & F & fd & Hassign & HF & _ & _ & Hds & Hdt & _).
  - apply built_tidy.
  - apply built_nodes_source_sink.
  - apply built_nodes_source_sink.
  - done.
  - assert (F = 1) as -> by (rewrite HF; by vm_compute).
    exists g', fd. split; [exact Hassign |]. split; [exact Hds | exact Hdt].
Defined.

(** ** How many rides can be filled *)

Lemma offered_iff (offers : Offers) r :
  offered offers r ↔ ∃ L offs, offers !! L = Some offs ∧ r ∈ offs.
Proof.
  unfold offered. rewrite Exists_exists. split.
  - intros ([L offs] & HL%elem_of_map_to_list & Hr). eauto.
  - intros (L & offs & HL & Hr). exists (L, offs). split; [| done].
    by apply elem_of_map_to_list.
Qed.

Lemma zsum_le_filter {A} (P : A → Prop) `{!∀ x, Decision (P x)} (h : A → Z) l :
  (∀ x, x ∈ l → 0 ≤ h x ≤ 1) → (∀ x, x ∈ l → ¬ P x → h x = 0) →
  0 ≤ zsum h l ≤ Z.of_nat (length (filter P l)).
Proof.
  induction l as [|x l IH]; intros Hunit Hzero; simpl; [lia |].
  destruct IH as [IH0 IH1].
  { intros y Hy. apply Hunit. by right. }
  { intros y Hy. apply Hzero. by right. }
  pose proof (Hunit x (list_elem_of_here _ _)) as Hx.
  rewrite filter_cons. case_decide as HP; simpl; [lia |].
  rewrite (Hzero x) by (done || by left). lia.
Qed.

Section unoffered.
Context (rides : list string) (offers : Offers).
Hypothesis Hvalid : valid_input rides offers.
Let g := built rides offers.

Lemma out_flow_unoffered f r : r ∈ rides → ¬ offered offers r → out_flow g f r = 0.
Proof.
  intros Hr Hno. rewrite out_flow_succ.
  apply zsum_zero. intros [v a] Hv%elem_of_map_to_list. exfalso. apply Hno.
  destruct (edges_from_ride rides offers Hvalid r v a Hr Hv) as (L & offs & HL & Hoffs & _).
  apply offered_iff. eauto.
Qed.

Lemma flow_value_bounds f F :
  st_flow g SOURCE SINK f F →
  0 ≤ F ≤ Z.of_nat (length (filter (offered offers) rides)).
Proof.
  intros Hf. rewrite (flow_value_rides rides offers Hvalid f F Hf).
  apply zsum_le_filter.
  - intros r Hr. by apply (ride_flow_unit rides offers Hvalid f F).
  - intros r Hr Hno. by apply out_flow_unoffered.
Qed.

End unoffered.

(** X4.  For every valid input the returned [filled_count] is not
    negative and is at most the number of rides that at least one leader
    offers; so it is at most the number of rides. *)
Theorem filled_count_bounds (nx : FlowSolver) `{!SolverContract nx}
    (rides : list string) (leader_offers : Offers) (o : Outcome) :
  valid_input rides leader_offers →
  solve nx rides leader_offers = Some o →
  0 ≤ filled_count o ≤ Z.of_nat (length (filter (offered leader_offers) rides))
  ∧ (length (filter (offered leader_offers) rides) ≤ length rides)%nat.
Proof.
  intros Hvalid Ho.
  apply (solve_Some nx rides leader_offers) in Ho as ((_ & Hflow & _) & _).
  split; [by apply (flow_value_bounds rides leader_offers Hvalid _ _ Hflow) |].
  apply length_filter.
Qed.

Lemma filled_count_bounds_witness :
  ∃ o, solve exhaustive ["R1"; "R2"] one_offer = Some o
       ∧ 0 ≤ filled_count o ≤ 1.
Proof.
  assert (is_Some (solve exhaustive ["R1"; "R2"] one_offer)) as [o Ho].
  { apply (bool_decide_unpack _). by vm_compute. }
  exists o. split; [exact Ho |].
  destruct (filled_count_bounds exhaustive ["R1"; "R2"] one_offer o) as [Hb _].
  - apply (bool_decide_unpack _). by vm_compute.
  - exact Ho.
  - exact Hb.
Defined.

(** ** The result does not depend on the solver *)



(** ** What [extract_allocations] returns, for any flow dictionary *)

Lemma elem_of_appends fd (rides : list string) k r :
  (k, r) ∈ appends fd rides
  ↔ r ∈ rides
    ∧ ∃ nb node flow, fd !! r = Some nb ∧ nb !! node = Some flow ∧ 0 < flow
                      ∧ Py.replace "_in" "" node = k.
Proof.
  unfold appends. rewrite list_elem_of_bind. split.
  - intros (r' & He & Hr'). pose proof (appends_of_ride fd r' _ He) as Heq.
    simpl in Heq. subst r'. split; [done |]. unfold appends_of in He.
    destruct (fd !! r) as [nb|] eqn:Hnb; [| by apply elem_of_nil in He].
    apply list_elem_of_fmap in He as ([node flow] & [= ->] & Hin).
    apply list_elem_of_filter in Hin as [Hpos Hin%elem_of_map_to_list].
    exists nb, node, flow. done.
  - intros (Hr & nb & node & flow & Hnb & Hnode & Hpos & <-).
    exists r. split; [| done]. unfold appends_of. rewrite Hnb.
    apply list_elem_of_fmap. exists (node, flow). split; [done |].
    apply list_elem_of_filter. split; [done |]. by apply elem_of_map_to_list.
Qed.

(** X6.  [extract_allocations] raises a [KeyError] exactly when, for some
    ride of [rides], the flow dictionary has a positive entry under a node
    name that [replace('_in', '')] does not turn into a leader id;
    entries that are zero or negative, and rides without an entry in the
    dictionary, are passed over. *)
Theorem extract_allocations_key_error_iff (flow_dict : FlowDict) (rides : list string)
    (leader_offers : Offers) :
  extract_allocations flow_dict rides leader_offers = None
  ↔ ∃ ride nb node flow,
      ride ∈ rides ∧ flow_dict !! ride = Some nb ∧ nb !! node = Some flow ∧ 0 < flow
      ∧ leader_offers !! Py.replace "_in" "" node = None.
Proof.
  split.
  - intros Hnone.
    destruct (decide (Forall (λ e, is_Some (leader_offers !! e.1))
                        (appends flow_dict rides))) as [Hall|Hnot].
    + apply (extract_allocations_total flow_dict rides leader_offers) in Hall
        as [al Hal]. congruence.
    + apply not_Forall_Exists in Hnot; [| apply _].
      apply Exists_exists in Hnot as ([k r] & Hin & Hk). simpl in Hk.
      apply elem_of_appends in Hin as (Hr & nb & node & flow & Hnb & Hnode & Hpos & <-).
      exists r, nb, node, flow. do 4 (split; [done |]).
      by apply eq_None_not_Some.
  - intros (r & nb & node & flow & Hr & Hnb & Hnode & Hpos & Hkey).
    destruct (extract_allocations flow_dict rides leader_offers) as [al|] eqn:Hal;
      [| done].
    apply extract_allocations_Some in Hal as [Hall _]. exfalso.
    rewrite Forall_forall in Hall.
    destruct (Hall (Py.replace "_in" "" node, r)) as [x Hx]; [| simpl in Hx; congruence].
    apply elem_of_appends. split; [done |]. exists nb, node, flow. done.
Qed.

(** X7.  Whenever [extract_allocations] returns, whatever the flow
    dictionary is, the keys of the result are the leader ids of
    [leader_offers], and a ride is in the list of a leader exactly when it
    is one of [rides] and the flow dictionary holds, under that ride, a
    positive entry whose node name [replace('_in', '')] turns into the
    leader's id. *)
Theorem extract_allocations_result (flow_dict : FlowDict) (rides : list string)
    (leader_offers : Offers) (allocations : Allocations) :
  extract_allocations flow_dict rides leader_offers = Some allocations →
  dom allocations = dom leader_offers
  ∧ ∀ leader l ride,
      allocations !! leader = Some l →
      ride ∈ l
      ↔ ride ∈ rides
        ∧ ∃ nb node flow,
            flow_dict !! ride = Some nb ∧ nb !! node = Some flow ∧ 0 < flow
            ∧ Py.replace "_in" "" node = leader.
Proof.
  intros [_ Hlook]%extract_allocations_Some. split.
  - apply set_eq. intros k. by rewrite !elem_of_dom, Hlook, fmap_is_Some.
  - intros leader l ride Hl. rewrite Hlook in Hl.
    apply fmap_Some in Hl as (offs & _ & ->).
    by rewrite elem_of_appended, elem_of_appends.
Qed.

Lemma extract_allocations_result_witness :
  extract_allocations {[ "R1" := {[ "A_in" := 1 ]} ]} one_ride one_offer
  = Some {[ "A" := ["R1"] ]}
  ∧ dom ({[ "A" := ["R1"] ]} : Allocations) = dom one_offer.
Proof.
  assert (extract_allocations {[ "R1" := {[ "A_in" := 1 ]} ]} one_ride one_offer
          = Some {[ "A" := ["R1"] ]}) as Hex by (by vm_compute).
  split; [exact Hex |].
  exact (proj1 (extract_allocations_result _ _ _ _ Hex)).
Defined.

(** ** Leader ids without ["_in"] *)

Section plain_outcome.
Context (nx : FlowSolver) `{!SolverContract nx}.
Context (rides : list string) (offers : Offers).
Hypothesis Hvalid : valid_input rides offers.
Hypothesis Hplain : plain_leader_ids offers.

(** The three calls return, and each list is read off the flow. *)
Lemma plain_outcome :
  ∃ o, solve nx rides offers = Some o
       ∧ max_flow_min_cost (built rides offers) SOURCE SINK (filled_count o) (flow_dict o)
       ∧ ∀ k, allocation o !! k
              = (λ _, filter (λ r, 0 < flow_of (flow_dict o) r (leader_in k)) rides)
                <$> offers !! k.
Proof.
  destruct (solve_is_Some nx rides offers) as [o Ho].
  { intros fd (Hshape & _). by apply extract_allocations_plain_total. }
  exists o. split; [done |].
  apply (solve_Some nx rides offers) in Ho as (Hopt & _ & Hex & _).
  split; [done |]. intros k.
  apply extract_allocations_Some in Hex as [_ Hlook]. rewrite Hlook.
  destruct (offers !! k) as [offs|] eqn:Hk; simpl; [| done]. f_equal.
  by apply (appended_plain rides offers (flow_dict o) Hvalid Hplain (proj1 Hopt) k offs).
Qed.

Lemma positive_flow_offered fd r k offs :
  flow_shape (built rides offers) fd → r ∈ rides → offers !! k = Some offs →
  0 < flow_of fd r (leader_in k) → r ∈ offs.
Proof.
  intros Hshape Hr Hk Hpos.
  destruct (edge (built rides offers) r (leader_in k)) as [a|] eqn:He.
  - destruct (edges_from_ride rides offers Hvalid r _ a Hr He)
      as (L & offs' & HL & Hoffs & ->%leader_in_inj & _). congruence.
  - rewrite (flow_of_no_edge _ fd r (leader_in k) Hshape He) in Hpos. lia.
Qed.

End plain_outcome.

(** X8.  For every valid input in which no leader id contains ["_in"],
    the three calls return an allocation (no [KeyError]), its keys are the
    leader ids, and every ride in the list of a leader is one of [rides]
    that this leader offered. *)
Theorem plain_ids_allocate_only_offered_rides (nx : FlowSolver) `{!SolverContract nx}
    (rides : list string) (leader_offers : Offers) :
  valid_input rides leader_offers → plain_leader_ids leader_offers →
  ∃ o, solve nx rides leader_offers = Some o
       ∧ dom (allocation o) = dom leader_offers
       ∧ ∀ leader l ride,
           allocation o !! leader = Some l → ride ∈ l →
           ride ∈ rides
           ∧ ∃ offers, leader_offers !! leader = Some offers ∧ ride ∈ offers.
Proof.
  intros Hvalid Hplain.
  destruct (plain_outcome nx rides leader_offers Hvalid Hplain) as (o & Ho & Hopt & Hlook).
  exists o. split; [done |]. split.
  - apply set_eq. intros k. by rewrite !elem_of_dom, Hlook, fmap_is_Some.
  - intros leader l ride Hl Hride. rewrite Hlook in Hl.
    apply fmap_Some in Hl as (offs & Hk & ->).
    apply list_elem_of_filter in Hride as [Hpos Hr]. split; [done |].
    exists offs. split; [done |].
    by apply (positive_flow_offered rides leader_offers Hvalid (flow_dict o) ride leader offs
                (proj1 Hopt)).
Qed.

Lemma plain_ids_allocate_only_offered_rides_witness :
  ∃ o, solve exhaustive one_ride one_offer = Some o
       ∧ dom (allocation o) = dom one_offer.
Proof.
  destruct (plain_ids_allocate_only_offered_rides exhaustive one_ride one_offer)
    as (o & Ho & Hdom & _).
  - apply (bool_decide_unpack _). by vm_compute.
  - apply (bool_decide_unpack _). by vm_compute.
  - exists o. split; [exact Ho | exact Hdom].
Defined.

(** X9.  For every valid input in which no leader id contains ["_in"],
    the list of a leader holds exactly the rides whose edge to the
    leader's in node carries flow in the returned flow dictionary, in the
    order in which they stand in [rides]. *)
Theorem allocation_lists_follow_flow (nx : FlowSolver) `{!SolverContract nx}
    (rides : list string) (leader_offers : Offers) (o : Outcome)
    (leader : string) (l : list string) :
  valid_input rides leader_offers → plain_leader_ids leader_offers →
  solve nx rides leader_offers = Some o →
  allocation o !! leader = Some l →
  l = filter (λ ride, 0 < flow_of (flow_dict o) ride (leader_in leader)) rides
  ∧ l `sublist_of` rides.
Proof.
  intros Hvalid Hplain Ho Hl.
  destruct (plain_outcome nx rides leader_offers Hvalid Hplain) as (o' & Ho' & _ & Hlook).
  assert (o' = o) as -> by congruence.
  rewrite Hlook in Hl. apply fmap_Some in Hl as (offs & _ & ->).
  split; [done | apply sublist_filter].
Qed.

Lemma allocation_lists_follow_flow_witness :
  ∃ o, solve exhaustive one_ride one_offer = Some o
       ∧ allocation o !! "A" = Some ["R1"]
       ∧ ["R1"] `sublist_of` one_ride.
Proof.
  assert (∃ o, solve exhaustive one_ride one_offer = Some o
               ∧ allocation o !! "A" = Some ["R1"]) as (o & Ho & Hl).
  { destruct (solve exhaustive one_ride one_offer) as [o|] eqn:Ho;
      [| exfalso; revert Ho; by vm_compute].
    exists o. split; [reflexivity |].
    revert Ho. vm_compute. by intros [= <-]. }
  exists o. split; [exact Ho |]. split; [exact Hl |].
  refine (proj2 (allocation_lists_follow_flow exhaustive one_ride one_offer o "A" ["R1"]
                   _ _ Ho Hl)).
  - apply (bool_decide_unpack _). by vm_compute.
  - apply (bool_decide_unpack _). by vm_compute.
Defined.

(** X10.  For every valid input in which no leader id contains ["_in"], no
    leader is given more rides than the leader's offer list is long. *)
Theorem leader_load_within_offers (nx : FlowSolver) `{!SolverContract nx}
    (rides : list string) (leader_offers : Offers) (o : Outcome)
    (leader : string) (l offers : list string) :
  valid_input rides leader_offers → plain_leader_ids leader_offers →
  solve nx rides leader_offers = Some o →
  allocation o !! leader = Some l → leader_offers !! leader = Some offers →
  (length l ≤ length offers)%nat.
Proof.
  intros Hvalid Hplain Ho Hl Hoffs.
  destruct (plain_outcome nx rides leader_offers Hvalid Hplain) as (o' & Ho' & Hopt & Hlook).
  assert (o' = o) as -> by congruence.
  rewrite Hlook, Hoffs in Hl. simpl in Hl. injection Hl as <-.
  apply submseteq_length, NoDup_submseteq.
  - apply NoDup_filter, Hvalid.
  - intros ride [Hpos Hr]%list_elem_of_filter.
    by apply (positive_flow_offered rides leader_offers Hvalid (flow_dict o) ride leader offers
                (proj1 Hopt)).
Qed.

Lemma leader_load_within_offers_witness :
  ∃ o l, solve exhaustive one_ride one_offer = Some o
         ∧ allocation o !! "A" = Some l ∧ (length l ≤ 1)%nat.
Proof.
  assert (∃ o, solve exhaustive one_ride one_offer = Some o
               ∧ allocation o !! "A" = Some ["R1"]) as (o & Ho & Hl).
  { destruct (solve exhaustive one_ride one_offer) as [o|] eqn:Ho;
      [| exfalso; revert Ho; by vm_compute].
    exists o. split; [reflexivity |].
    revert Ho. vm_compute. by intros [= <-]. }
  exists o, ["R1"]. split; [exact Ho |]. split; [exact Hl |].
  refine (leader_load_within_offers exhaustive one_ride one_offer o "A" ["R1"] ["R1"]
            _ _ Ho Hl _).
  - apply (bool_decide_unpack _). by vm_compute.
  - apply (bool_decide_unpack _). by vm_compute.
  - reflexivity.
Defined.

(** ** Flows made of paths *)

Section paths_flow.
Context (g : DiGraph) (ps : list (list (string * string))).
Hypothesis Hedges : ∀ p e, p ∈ ps → e ∈ p → is_Some (edge g e.1 e.2).

(** A sum over the edges of the graph, weighted by the flow, is a sum
    over the edges of the paths. *)
Lemma zsum_edges_paths (h : string * string → Z) :
  zsum (λ e, h (e.1.1, e.1.2) * paths_flow ps e.1.1 e.1.2) (edge_list g)
  = zsum (λ p, zsum h p) ps.
Proof.
  unfold paths_flow.
  transitivity (zsum (λ e : string * string * EdgeAttr,
                  zsum (λ p, zsum (λ e' : string * string,
                    if decide ((e.1.1, e.1.2) = e') then h e' else 0) p) ps)
                  (edge_list g)).
  { apply zsum_ext. intros [[u v] a] _. simpl.
    rewrite <- zsum_scale. apply zsum_ext. intros p _.
    rewrite <- zsum_scale. apply zsum_ext. intros e' _.
    destruct (decide (e' = (u, v))) as [->|Hne].
    - rewrite decide_True by done. lia.
    - rewrite decide_False by congruence. lia. }
  rewrite zsum_swap. apply zsum_ext. intros p Hp.
  rewrite zsum_swap. apply zsum_ext. intros e' He'.
  transitivity (zsum (λ k, if decide (k = e') then h k else 0)
                  ((λ e : string * string * EdgeAttr, (e.1.1, e.1.2)) <$> edge_list g)).
  { rewrite zsum_fmap. apply zsum_ext. intros [[u v] a] _. simpl.
    destruct (decide ((u, v) = e')) as [<-|]; done. }
  apply zsum_single; [apply NoDup_edge_keys |].
  destruct (Hedges p e' Hp He') as [a Ha]. apply list_elem_of_fmap.
  exists (e'.1, e'.2, a). split; [by destruct e' |].
  apply elem_of_edge_list. done.
Qed.

Lemma in_flow_paths n :
  in_flow g (paths_flow ps) n
  = zsum (λ p, zsum (λ e, if decide (e.2 = n) then 1 else 0) p) ps.
Proof.
  rewrite <- zsum_edges_paths. apply zsum_ext. intros [[u v] a] _. simpl.
  case_decide; lia.
Qed.

Lemma out_flow_paths n :
  out_flow g (paths_flow ps) n
  = zsum (λ p, zsum (λ e, if decide (e.1 = n) then 1 else 0) p) ps.
Proof.
  rewrite <- zsum_edges_paths. apply zsum_ext. intros [[u v] a] _. simpl.
  case_decide; lia.
Qed.

Lemma cost_paths :
  cost g (paths_flow ps)
  = zsum (λ p, zsum (λ e, default 0 (weight <$> edge g e.1 e.2)) p) ps.
Proof.
  rewrite <- (zsum_edges_paths (λ e, default 0 (weight <$> edge g e.1 e.2))).
  apply zsum_ext. intros [[u v] a] He%elem_of_edge_list. simpl. by rewrite He.
Qed.

End paths_flow.

(** Along the five edges of a unit path, what leaves a node minus what
    enters it is 1 at the source, -1 at the sink and 0 elsewhere. *)
Lemma unit_path_balance x n :
  zsum (λ e : string * string, if decide (e.1 = n) then 1 else 0) (unit_path x)
  - zsum (λ e : string * string, if decide (e.2 = n) then 1 else 0) (unit_path x)
  = (if decide (SOURCE = n) then 1 else 0) - (if decide (SINK = n) then 1 else 0).
Proof. unfold unit_path. cbn [zsum fst snd]. lia. Qed.

Lemma paths_flow_nonneg ps u v : 0 ≤ paths_flow ps u v.
Proof.
  unfold paths_flow. apply zsum_nonneg. intros p _. apply zsum_nonneg.
  intros e _. case_decide; lia.
Qed.

(** ** The slots of an assignment *)

Lemma slots_cost_S n : slots_cost (S n) = slots_cost n + Z.of_nat n.
Proof. unfold slots_cost. rewrite seq_S, zsum_app. simpl. lia. Qed.

Lemma load_cons e m L :
  load (e :: m) L = if decide (e.2 = L) then S (load m L) else load m L.
Proof. unfold load. rewrite filter_cons. by case_decide. Qed.

Lemma slotted_fst m : (slotted m).*1 = m.
Proof. induction m as [|e m IH]; csimpl; [done | by rewrite IH]. Qed.

Lemma elem_of_slotted m x : x ∈ slotted m → x.1 ∈ m ∧ (x.2 < load m x.1.2)%nat.
Proof.
  induction m as [|e m IH]; simpl; [by intros ?%elem_of_nil |].
  intros [->|Hx]%elem_of_cons; simpl.
  - split; [by left |]. rewrite load_cons, decide_True by done. lia.
  - destruct (IH Hx) as [Hin Hlt]. split; [by right |].
    rewrite load_cons. case_decide; lia.
Qed.

(** No two pairs of an assignment share a slot of a leader. *)
Lemma slotted_NoDup m : NoDup ((λ x : string * string * nat, (x.1.2, x.2)) <$> slotted m).
Proof.
  induction m as [|e m IH]; csimpl; [constructor |].
  apply NoDup_cons. split; [| done].
  intros (x & [= HL Hi] & [_ Hlt]%elem_of_slotted)%list_elem_of_fmap.
  rewrite <- HL, <- Hi in Hlt. lia.
Qed.

Lemma slotted_cost_of m L :
  zsum (λ x : string * string * nat, if decide (x.1.2 = L) then Z.of_nat x.2 else 0)
       (slotted m)
  = slots_cost (load m L).
Proof.
  induction m as [|e m IH]; simpl; [done |].
  rewrite IH, load_cons.
  destruct (decide (e.2 = L)) as [<-|HL]; [rewrite slots_cost_S; lia | lia].
Qed.

Lemma zsum_group {A} (k : A → string) (h : A → Z) (l : list A) (keys : list string) :
  NoDup keys → (∀ x, x ∈ l → k x ∈ keys) →
  zsum h l = zsum (λ key, zsum (λ x, if decide (k x = key) then h x else 0) l) keys.
Proof.
  intros Hnd Hin. rewrite zsum_swap. apply zsum_ext. intros x Hx.
  transitivity (zsum (λ key, if decide (key = k x) then h x else 0) keys).
  - symmetry. apply (zsum_single (k x) (λ _, h x) keys Hnd (Hin x Hx)).
  - apply zsum_ext. intros key _. repeat case_decide; congruence.
Qed.

Lemma slotted_cost (offers : Offers) m :
  (∀ e, e ∈ m → is_Some (offers !! e.2)) →
  zsum (λ x : string * string * nat, Z.of_nat x.2) (slotted m) = assignment_cost offers m.
Proof.
  intros Hm. unfold assignment_cost.
  rewrite (zsum_group (λ x : string * string * nat, x.1.2) _ _ (map_to_list offers).*1).
  - rewrite zsum_fmap. apply zsum_ext. intros [L offs] _. simpl. apply slotted_cost_of.
  - apply NoDup_fst_map_to_list.
  - intros x [Hx _]%elem_of_slotted. destruct (Hm _ Hx) as [offs HL].
    apply list_elem_of_fmap. exists (x.1.2, offs). split; [done |].
    by apply elem_of_map_to_list.
Qed.

Lemma zsum_indicator_NoDup {A K} `{!EqDecision K} (k : A → K) (a : K) (l : list A) :
  NoDup (k <$> l) → 0 ≤ zsum (λ x, if decide (k x = a) then 1 else 0) l ≤ 1.
Proof.
  induction l as [|x l IH]; csimpl; intros Hnd; [lia |].
  apply NoDup_cons in Hnd as [Hx Hnd]. specialize (IH Hnd).
  case_decide as Hk; [| lia].
  rewrite zsum_zero; [lia |]. intros y Hy. rewrite decide_False; [done |].
  intros Hy'. apply Hx. rewrite Hk, <- Hy'. apply list_elem_of_fmap. eauto.
Qed.

Lemma zsum_indicator_load m L :
  zsum (λ x : string * string * nat, if decide (x.1.2 = L) then 1 else 0) (slotted m)
  = Z.of_nat (load m L).
Proof.
  transitivity (zsum (λ e : string * string, if decide (e.2 = L) then 1 else 0) m).
  { rewrite <- (slotted_fst m) at 2. by rewrite zsum_fmap. }
  unfold load. rewrite <- zsum_ones, zsum_filter. done.
Qed.

Section assignment.
Context (rides : list string) (offers : Offers) (m : list (string * string)).
Hypothesis Hm : assignment rides offers m.

Lemma assignment_elem e :
  e ∈ m → e.1 ∈ rides ∧ ∃ offs, offers !! e.2 = Some offs ∧ e.1 ∈ offs.
Proof. intros He. destruct Hm as [_ Hall]. by eapply Forall_forall in Hall. Qed.

(** A leader is paired with no more rides than the leader's offer list is
    long. *)
Lemma load_le_offers L offs : offers !! L = Some offs → (load m L ≤ length offs)%nat.
Proof.
  intros HL. unfold load.
  rewrite <- (length_fmap fst). apply submseteq_length, NoDup_submseteq.
  - eapply sublist_NoDup; [apply Hm | apply fmap_sublist, sublist_filter].
  - intros r ([r' L'] & -> & [HL' He]%list_elem_of_filter)%list_elem_of_fmap.
    simpl in *. subst L'.
    destruct (assignment_elem _ He) as (_ & offs' & HL' & Hr). simpl in *. congruence.
Qed.

Lemma slotted_elem x :
  x ∈ slotted m →
  x.1.1 ∈ rides
  ∧ ∃ offs, offers !! x.1.2 = Some offs ∧ x.1.1 ∈ offs ∧ (x.2 < length offs)%nat.
Proof.
  intros [Hx Hlt]%elem_of_slotted.
  destruct (assignment_elem _ Hx) as (Hr & offs & HL & Hoffs).
  split; [done |]. exists offs. split; [done |]. split; [done |].
  pose proof (load_le_offers _ _ HL). lia.
Qed.

(** The edges of the unit paths are edges of the network, with these
    attributes. *)
Lemma unit_path_edges x e :
  x ∈ slotted m → e ∈ unit_path x →
  ∃ a, edge_spec rides offers e.1 e.2 a
       ∧ weight a = if decide (e = (slot_node x.1.2 x.2, leader_out x.1.2))
                    then Z.of_nat x.2 else 0.
Proof.
  intros (Hr & offs & HL & Hoffs & Hi)%slotted_elem He. unfold unit_path in He.
  repeat (apply elem_of_cons in He as [->|He]); [| | | | | by apply elem_of_nil in He];
    simpl; eexists; (split; [econstructor; eauto |]); simpl.
  - rewrite decide_False; [done |]. intros [= H _]. name_clash.
  - rewrite decide_False; [done |]. intros [= _ H]. name_clash.
  - rewrite decide_False; [done |]. intros [= H _]. name_clash.
  - by rewrite decide_True.
  - rewrite decide_False; [done |]. intros [= H _]. name_clash.
Qed.

End assignment.

(** ** The flow of an assignment *)

Section assignment_flow.
Context (rides : list string) (offers : Offers) (m : list (string * string)).
Hypothesis Hvalid : valid_input rides offers.
Hypothesis Hm : assignment rides offers m.
Let g := built rides offers.

Lemma assignment_paths_edges p e :
  p ∈ unit_path <$> slotted m → e ∈ p → is_Some (edge g e.1 e.2).
Proof.
  intros (x & -> & Hx)%list_elem_of_fmap He.
  destruct (unit_path_edges rides offers m Hm x e Hx He) as (a & Hs & _).
  by apply built_present in Hs.
Qed.

Lemma assignment_flow_unfold u v :
  assignment_flow m u v
  = zsum (λ x, zsum (λ e, if decide (e = (u, v)) then 1 else 0) (unit_path x))
         (slotted m).
Proof. unfold assignment_flow, paths_flow. by rewrite zsum_fmap. Qed.

(** Closes a goal in which a ride is said to be a node the tool makes up. *)
Ltac ride_clash :=
  exfalso;
  match goal with
  | Hr : ?r ∈ rides |- _ =>
      apply (ride_not_reserved rides offers Hvalid r Hr);
      apply elem_of_reserved_nodes; solve [eauto 12]
  end.

Ltac same_kind :=
  repeat match goal with
         | H : leader_in _ = leader_in _ |- _ => apply leader_in_inj in H
         | H : leader_out _ = leader_out _ |- _ => apply leader_out_inj in H
         | H : slot_node _ _ = slot_node _ _ |- _ => apply slot_node_inj in H as [??]
         end.

(** Decides every equation between edges in the goal, and drops the
    cases in which two nodes of different kinds would be equal. *)
Ltac count_units :=
  unfold unit_path; cbn [zsum fst snd];
  repeat match goal with
         | |- context [decide (?a = ?b)] =>
             destruct (decide (a = b)) as [?|?];
             simplify_eq; same_kind; simplify_eq;
             try congruence; try name_clash; try ride_clash
         end;
  try lia.

Lemma slotted_rides_NoDup :
  NoDup ((λ x : string * string * nat, x.1.1) <$> slotted m).
Proof.
  replace ((λ x : string * string * nat, x.1.1) <$> slotted m) with (m.*1);
    [apply Hm |].
  rewrite <- (slotted_fst m) at 1. by rewrite <- list_fmap_compose.
Qed.

Lemma assignment_flow_capacity : capacity_ok g (assignment_flow m).
Proof.
  intros u v a He. split; [apply paths_flow_nonneg |].
  apply built_sound in He. rewrite assignment_flow_unfold.
  destruct He as [r Hr | L offs i HL Hi | L offs i HL Hi | L offs HL
                  | L offs r HL Hr Hrides]; simpl.
  - etrans; [| apply (zsum_indicator_NoDup (λ x : string * string * nat, x.1.1) r
                        (slotted m) slotted_rides_NoDup)].
    apply zsum_le.
    intros [[rx Lx] ix] (Hrx & offs & HLx & Hoffs & Hix)%(slotted_elem rides offers m Hm).
    simpl in *. count_units.
  - etrans; [| apply (zsum_indicator_NoDup (λ x : string * string * nat, (x.1.2, x.2))
                        (L, i) (slotted m) (slotted_NoDup m))].
    apply zsum_le.
    intros [[rx Lx] ix] (Hrx & offs' & HLx & Hoffs & Hix)%(slotted_elem rides offers m Hm).
    simpl in *. count_units.
  - etrans; [| apply (zsum_indicator_NoDup (λ x : string * string * nat, (x.1.2, x.2))
                        (L, i) (slotted m) (slotted_NoDup m))].
    apply zsum_le.
    intros [[rx Lx] ix] (Hrx & offs' & HLx & Hoffs & Hix)%(slotted_elem rides offers m Hm).
    simpl in *. count_units.
  - pose proof (load_le_offers rides offers m Hm L offs HL) as Hload.
    etrans; [| apply Nat2Z.inj_le, Hload]. rewrite <- zsum_indicator_load.
    apply zsum_le.
    intros [[rx Lx] ix] (Hrx & offs' & HLx & Hoffs & Hix)%(slotted_elem rides offers m Hm).
    simpl in *. count_units.
  - etrans; [| apply (zsum_indicator_NoDup (λ x : string * string * nat, x.1.1) r
                        (slotted m) slotted_rides_NoDup)].
    apply zsum_le.
    intros [[rx Lx] ix] (Hrx & offs' & HLx & Hoffs & Hix)%(slotted_elem rides offers m Hm).
    simpl in *. count_units.
Qed.

Lemma length_slotted : length (slotted m) = length m.
Proof. rewrite <- (slotted_fst m) at 2. by rewrite length_fmap. Qed.

Lemma assignment_flow_balance n :
  out_flow g (assignment_flow m) n - in_flow g (assignment_flow m) n
  = zsum (λ _, (if decide (SOURCE = n) then 1 else 0) - (if decide (SINK = n) then 1 else 0))
         (slotted m).
Proof.
  unfold assignment_flow.
  rewrite (in_flow_paths g _ assignment_paths_edges),
          (out_flow_paths g _ assignment_paths_edges).
  rewrite !zsum_fmap, <- zsum_minus. apply zsum_ext. intros x _.
  apply unit_path_balance.
Qed.

(** The flow of an assignment is a flow from the source to the sink whose
    value is the number of pairs. *)
Lemma assignment_flow_st_flow :
  st_flow g SOURCE SINK (assignment_flow m) (Z.of_nat (length m)).
Proof.
  split; [apply assignment_flow_capacity |]. split.
  - intros n _ Hs Ht.
    pose proof (assignment_flow_balance n) as Hb.
    rewrite zsum_zero in Hb; [lia |].
    intros x _. rewrite !decide_False by done. lia.
  - rewrite assignment_flow_balance.
    rewrite (zsum_ext _ (λ _, 1)), zsum_ones, length_slotted; [done |].
    intros x _. rewrite decide_True, decide_False by done. lia.
Qed.

(** Its cost is the cost of the slots taken. *)
Lemma assignment_flow_cost : cost g (assignment_flow m) = assignment_cost offers m.
Proof.
  unfold assignment_flow. rewrite (cost_paths g _ assignment_paths_edges), zsum_fmap.
  rewrite <- slotted_cost.
  2:{ intros e He. destruct (assignment_elem rides offers m Hm e He) as (_ & offs & HL & _).
      eauto. }
  apply zsum_ext. intros x Hx. unfold compose.
  transitivity (zsum (λ e, if decide (e = (slot_node x.1.2 x.2, leader_out x.1.2))
                           then Z.of_nat x.2 else 0) (unit_path x)).
  { apply zsum_ext. intros e He.
    destruct (unit_path_edges rides offers m Hm x e Hx He) as (a & Hs & Hw).
    apply built_edges in Hs. fold g in Hs. rewrite Hs. simpl. done. }
  destruct x as [[rx Lx] ix]. simpl. count_units.
Qed.

End assignment_flow.

(** ** The filled count is the greatest possible *)

(** X11.  For every valid input, no way of giving rides to leaders who
    offered them, each ride to one leader at most, fills more rides than
    the returned [filled_count]. *)
Theorem filled_count_is_maximum (nx : FlowSolver) `{!SolverContract nx}
    (rides : list string) (leader_offers : Offers) (o : Outcome)
    (m : list (string * string)) :
  valid_input rides leader_offers →
  solve nx rides leader_offers = Some o →
  assignment rides leader_offers m →
  Z.of_nat (length m) ≤ filled_count o.
Proof.
  intros Hvalid Ho Hm.
  apply (solve_Some nx rides leader_offers) in Ho as ((_ & _ & Hmax & _) & _).
  apply (Hmax (assignment_flow m)).
  by apply assignment_flow_st_flow.
Qed.

Lemma filled_count_is_maximum_witness :
  ∃ o, solve exhaustive one_ride one_offer = Some o ∧ 1 ≤ filled_count o.
Proof.
  assert (is_Some (solve exhaustive one_ride one_offer)) as [o Ho].
  { apply (bool_decide_unpack _). by vm_compute. }
  exists o. split; [exact Ho |].
  refine (filled_count_is_maximum exhaustive one_ride one_offer o [("R1", "A")] _ Ho _).
  - apply (bool_decide_unpack _). by vm_compute.
  - split.
    + apply NoDup_singleton.
    + apply Forall_singleton. split; [by left |]. exists ["R1"]. split; [reflexivity | by left].
Defined.

(** ** The flow through the nodes of a leader *)

Lemma slots_sum_bounds (x : nat → Z) n :
  (∀ i, (i < n)%nat → 0 ≤ x i ≤ 1) → 0 ≤ zsum x (seq 0 n) ≤ Z.of_nat n.
Proof.
  induction n as [|n IH]; intros Hx; [simpl; lia |].
  rewrite seq_S, zsum_app. simpl.
  specialize (Hx n ltac:(lia)) as Hn.
  destruct IH as [IH0 IH1]; [intros i Hi; apply Hx; lia |]. lia.
Qed.

(** Filling [k] of the slots costs at least as much as filling the first
    [k] of them. *)
Lemma slots_cost_le (x : nat → Z) n :
  (∀ i, (i < n)%nat → 0 ≤ x i ≤ 1) →
  slots_cost (Z.to_nat (zsum x (seq 0 n))) ≤ zsum (λ i, Z.of_nat i * x i) (seq 0 n).
Proof.
  induction n as [|n IH]; intros Hx; [done |].
  rewrite !seq_S, !zsum_app. simpl.
  specialize (Hx n ltac:(lia)) as Hn.
  assert (∀ i, (i < n)%nat → 0 ≤ x i ≤ 1) as Hx' by (intros i Hi; apply Hx; lia).
  specialize (IH Hx'). pose proof (slots_sum_bounds x n Hx') as Hs.
  assert (x n = 0 ∨ x n = 1) as [->| ->] by lia.
  - rewrite !Z.add_0_r, Z.mul_0_r, Z.add_0_r. done.
  - replace (Z.to_nat (zsum x (seq 0 n) + (1 + 0))) with (S (Z.to_nat (zsum x (seq 0 n))))
      by lia.
    rewrite slots_cost_S. lia.
Qed.

Section leader_flows.
Context (rides : list string) (offers : Offers).
Hypothesis Hvalid : valid_input rides offers.
Let g := built rides offers.

Ltac ride_clash :=
  exfalso;
  match goal with
  | Hr : ?r ∈ rides |- _ =>
      apply (ride_not_reserved rides offers Hvalid r Hr);
      apply elem_of_reserved_nodes; solve [eauto 12]
  end.

Ltac same_kind :=
  repeat match goal with
         | H : leader_in _ = leader_in _ |- _ => apply leader_in_inj in H
         | H : leader_out _ = leader_out _ |- _ => apply leader_out_inj in H
         | H : slot_node _ _ = slot_node _ _ |- _ => apply slot_node_inj in H as [??]
         end.

Ltac other_kinds :=
  simplify_eq; same_kind; simplify_eq;
  try done; try name_clash; try ride_clash.

Lemma in_flow_slot f L offs i :
  offers !! L = Some offs → (i < length offs)%nat →
  in_flow g f (slot_node L i) = f (leader_in L) (slot_node L i).
Proof.
  intros HL Hi.
  rewrite (in_flow_select g f _
             [(leader_in L, slot_node L i, {| capacity := 1; weight := 0 |})]).
  - simpl. lia.
  - apply NoDup_singleton.
  - intros u v a. rewrite list_elem_of_singleton. split.
    + intros [= -> -> ->]. split; [| done]. apply built_edges. by econstructor.
    + intros [He%built_sound Hv].
      destruct He as [r Hr | L' offs' i' HL' Hi' | L' offs' i' HL' Hi' | L' offs' HL'
                      | L' offs' r HL' Hr Hrides]; other_kinds.
Qed.

Lemma out_flow_slot f L offs i :
  offers !! L = Some offs → (i < length offs)%nat →
  out_flow g f (slot_node L i) = f (slot_node L i) (leader_out L).
Proof.
  intros HL Hi.
  rewrite (out_flow_select g f _
             [(slot_node L i, leader_out L, {| capacity := 1; weight := Z.of_nat i |})]).
  - simpl. lia.
  - apply NoDup_singleton.
  - intros u v a. rewrite list_elem_of_singleton. split.
    + intros [= -> -> ->]. split; [| done]. apply built_edges. by econstructor.
    + intros [He%built_sound Hu].
      destruct He as [r Hr | L' offs' i' HL' Hi' | L' offs' i' HL' Hi' | L' offs' HL'
                      | L' offs' r HL' Hr Hrides]; other_kinds.
Qed.

Lemma out_flow_leader_in f L offs :
  offers !! L = Some offs →
  out_flow g f (leader_in L)
  = zsum (λ i, f (leader_in L) (slot_node L i)) (seq 0 (length offs)).
Proof.
  intros HL.
  rewrite (out_flow_select g f _
             ((λ i, (leader_in L, slot_node L i, {| capacity := 1; weight := 0 |}))
                <$> seq 0 (length offs))).
  - by rewrite zsum_fmap.
  - apply NoDup_fmap_2; [| apply NoDup_seq].
    intros i j [= Hij%slot_node_inj]. apply Hij.
  - intros u v a. rewrite list_elem_of_fmap. split.
    + intros (i & [= -> -> ->] & Hi%elem_of_seq). split; [| done].
      apply built_edges. econstructor; [done | lia].
    + intros [He%built_sound Hu].
      destruct He as [r Hr | L' offs' i' HL' Hi' | L' offs' i' HL' Hi' | L' offs' HL'
                      | L' offs' r HL' Hr Hrides]; other_kinds.
      exists i'. split; [done |]. apply elem_of_seq. lia.
Qed.

Lemma in_flow_leader_in f L offs :
  offers !! L = Some offs →
  in_flow g f (leader_in L)
  = zsum (λ r, f r (leader_in L)) (filter (λ r, r ∈ offs) rides).
Proof.
  intros HL.
  rewrite (in_flow_select g f _
             ((λ r, (r, leader_in L, {| capacity := 1; weight := 0 |}))
                <$> filter (λ r, r ∈ offs) rides)).
  - by rewrite zsum_fmap.
  - apply NoDup_fmap_2; [| apply NoDup_filter, Hvalid].
    by intros r r' [= ->].
  - intros u v a. rewrite list_elem_of_fmap. split.
    + intros (r & [= -> -> ->] & [Hoffs Hr]%list_elem_of_filter). split; [| done].
      apply built_edges. by econstructor.
    + intros [He%built_sound Hv].
      destruct He as [r Hr | L' offs' i' HL' Hi' | L' offs' i' HL' Hi' | L' offs' HL'
                      | L' offs' r HL' Hr Hrides]; other_kinds.
      exists r. split; [done |]. by apply list_elem_of_filter.
Qed.

End leader_flows.

(** ** The cost of a flow, leader by leader *)

Section leveling.
Context (rides : list string) (offers : Offers) (fd : FlowDict) (F : Z).
Hypothesis Hvalid : valid_input rides offers.
Let g := built rides offers.
Let f := flow_of fd.
Hypothesis Hshape : flow_shape g fd.
Hypothesis Hflow : st_flow g SOURCE SINK f F.

(** The edges that carry a weight: from the slots to the out nodes. *)
Let slot_edges (item : string * list string) : list (string * string * EdgeAttr) :=
  (λ i, (slot_node item.1 i, leader_out item.1,
         {| capacity := 1; weight := Z.of_nat i |})) <$> seq 0 (length item.2).

Lemma elem_of_slot_edges e :
  e ∈ map_to_list offers ≫= slot_edges
  ↔ ∃ L offs i, offers !! L = Some offs ∧ (i < length offs)%nat
                ∧ e = (slot_node L i, leader_out L,
                       {| capacity := 1; weight := Z.of_nat i |}).
Proof.
  rewrite list_elem_of_bind. split.
  - intros ([L offs] & (i & -> & Hi%elem_of_seq)%list_elem_of_fmap
            & HL%elem_of_map_to_list).
    exists L, offs, i. split; [done |]. split; [simpl in Hi; lia | done].
  - intros (L & offs & i & HL & Hi & ->). exists (L, offs).
    split; [| by apply elem_of_map_to_list].
    apply list_elem_of_fmap. exists i. split; [done |]. apply elem_of_seq. simpl. lia.
Qed.

Lemma slot_edges_NoDup : NoDup (map_to_list offers ≫= slot_edges).
Proof.
  apply NoDup_bind.
  - intros [L offs] [L' offs'] e H1%elem_of_map_to_list H2%elem_of_map_to_list He1 He2.
    unfold slot_edges in He1, He2. simpl in *.
    apply list_elem_of_fmap in He1 as (i & -> & _).
    apply list_elem_of_fmap in He2 as (i' & [= HLL%slot_node_inj _ _] & _).
    destruct HLL as [-> _]. f_equal. congruence.
  - intros [L offs] _. unfold slot_edges. apply NoDup_fmap_2; [| apply NoDup_seq].
    intros i j [= Hij%slot_node_inj]. apply Hij.
  - apply NoDup_map_to_list.
Qed.

Lemma cost_by_leader :
  cost g f
  = zsum (λ item, zsum (λ i, Z.of_nat i * f (slot_node item.1 i) (leader_out item.1))
                       (seq 0 (length item.2)))
         (map_to_list offers).
Proof.
  rewrite cost_listed.
  rewrite (zsum_ext _ (λ e, if decide (e ∈ map_to_list offers ≫= slot_edges)
                            then weight e.2 * f e.1.1 e.1.2 else 0)).
  - rewrite (zsum_edges_select g _ _ (map_to_list offers ≫= slot_edges)).
    + rewrite zsum_bind. apply zsum_ext. intros [L offs] _. unfold slot_edges.
      by rewrite zsum_fmap.
    + apply slot_edges_NoDup.
    + intros e. split; [| tauto]. intros He. split; [| done].
      apply elem_of_slot_edges in He as (L & offs & i & HL & Hi & ->).
      apply elem_of_edge_list, built_edges. by econstructor.
  - intros [[u v] a] He%elem_of_edge_list%built_sound. simpl.
    case_decide as Hin; [done |].
    destruct He as [r Hr | L' offs' i' HL' Hi' | L' offs' i' HL' Hi' | L' offs' HL'
                    | L' offs' r HL' Hr Hrides]; simpl; try lia.
    exfalso. apply Hin, elem_of_slot_edges. eauto 8.
Qed.

Lemma slot_flow_unit L offs i :
  offers !! L = Some offs → (i < length offs)%nat →
  0 ≤ f (slot_node L i) (leader_out L) ≤ 1.
Proof.
  intros HL Hi. destruct Hflow as (Hcap & _).
  apply (Hcap _ _ {| capacity := 1; weight := Z.of_nat i |}).
  apply built_edges. by econstructor.
Qed.

(** What passes through the slots of a leader is what the rides send to
    the leader. *)
Lemma leader_throughput L offs :
  offers !! L = Some offs →
  zsum (λ i, f (slot_node L i) (leader_out L)) (seq 0 (length offs))
  = zsum (λ r, f r (leader_in L)) rides.
Proof.
  intros HL. destruct Hflow as (_ & Hcons & _). unfold g in *.
  transitivity (zsum (λ i, f (leader_in L) (slot_node L i)) (seq 0 (length offs))).
  { apply zsum_ext. intros i Hi%elem_of_seq.
    rewrite <- (out_flow_slot rides offers Hvalid f L offs i HL) by lia.
    rewrite <- (in_flow_slot rides offers Hvalid f L offs i HL) by lia.
    symmetry. apply Hcons.
    - apply populate_graph_nodes. right. right. right. exists L, offs.
      split; [done |]. right. right. exists i. split; [lia | done].
    - apply slot_not_source.
    - apply slot_not_sink. }
  rewrite <- (out_flow_leader_in rides offers Hvalid f L offs HL).
  rewrite <- Hcons.
  - rewrite (in_flow_leader_in rides offers Hvalid f L offs HL), zsum_filter.
    apply zsum_ext. intros r Hr. case_decide as Hoffs; [done |].
    symmetry. apply (flow_of_no_edge g); [done |].
    destruct (edge g r (leader_in L)) as [a|] eqn:He; [| done].
    destruct (edges_from_ride rides offers Hvalid r _ a Hr He)
      as (L' & offs' & HL' & Hoffs' & ->%leader_in_inj & _). congruence.
  - apply populate_graph_nodes. right. right. right. exists L, offs. auto.
  - apply leader_in_not_source.
  - apply leader_in_not_sink.
Qed.

Lemma ride_to_leader_unit r L : r ∈ rides → 0 ≤ f r (leader_in L) ≤ 1.
Proof.
  intros Hr. destruct Hflow as (Hcap & _).
  destruct (edge g r (leader_in L)) as [a|] eqn:He.
  - destruct (edges_from_ride rides offers Hvalid r _ a Hr He) as (_ & _ & _ & _ & _ & ->).
    apply (Hcap _ _ _ He).
  - unfold f. rewrite (flow_of_no_edge g fd r (leader_in L) Hshape He). lia.
Qed.

(** The cost of a flow is at least the cost of the first slots of every
    leader, as many as the leader is sent rides. *)
Lemma cost_at_least_leveling :
  zsum (λ item, slots_cost (length (filter (λ r, 0 < f r (leader_in item.1)) rides)))
       (map_to_list offers)
  ≤ cost g f.
Proof.
  rewrite cost_by_leader. apply zsum_le. intros [L offs] HL%elem_of_map_to_list. simpl.
  etrans; [| apply slots_cost_le; intros i Hi; by apply (slot_flow_unit L offs)].
  rewrite (leader_throughput L offs HL).
  rewrite <- (length_filter_pos (λ r, f r (leader_in L)) rides)
    by (intros r Hr; by apply ride_to_leader_unit).
  by rewrite Nat2Z.id.
Qed.

End leveling.

(** ** The allocation is as level as can be *)

Lemma map_entries {A B} (h : string → B) (source : gmap string A) (target : gmap string B) :
  (∀ k, target !! k = (λ _, h k) <$> source !! k) →
  map_to_list target ≡ₚ (λ item, (item.1, h item.1)) <$> map_to_list source.
Proof.
  intros Hal. apply NoDup_Permutation.
  - apply NoDup_map_to_list.
  - apply NoDup_fmap_2_strong; [| apply NoDup_map_to_list].
    intros [k v] [k' v'] Hk%elem_of_map_to_list Hk'%elem_of_map_to_list [= <- _].
    congruence.
  - intros [k l]. rewrite elem_of_map_to_list, list_elem_of_fmap, Hal. split.
    + intros (x & Hk & ->)%fmap_Some. exists (k, x).
      split; [done | by apply elem_of_map_to_list].
    + intros ([k' x] & [= -> ->] & Hk%elem_of_map_to_list). simpl.
      by rewrite Hk.
Qed.

Section most_level.
Context (nx : FlowSolver) `{!SolverContract nx}.
Context (rides : list string) (offers : Offers) (o : Outcome).
Hypothesis Hvalid : valid_input rides offers.
Hypothesis Hplain : plain_leader_ids offers.
Hypothesis Ho : solve nx rides offers = Some o.

Lemma outcome_lists k :
  allocation o !! k
  = (λ _, filter (λ r, 0 < flow_of (flow_dict o) r (leader_in k)) rides) <$> offers !! k.
Proof.
  destruct (plain_outcome nx rides offers Hvalid Hplain) as (o' & Ho' & _ & Hlook).
  assert (o' = o) as -> by congruence. apply Hlook.
Qed.

Lemma outcome_optimal :
  max_flow_min_cost (built rides offers) SOURCE SINK (filled_count o) (flow_dict o)
  ∧ total_cost o = cost (built rides offers) (flow_of (flow_dict o)).
Proof.
  apply (solve_Some nx rides offers) in Ho as (Hopt & Hadj & _).
  split; [done |]. unfold total_cost. by rewrite (cost_adj _ _ _ Hadj).
Qed.

Lemma leveling_cost_outcome :
  leveling_cost (allocation o)
  = zsum (λ item, slots_cost (length (filter
            (λ r, 0 < flow_of (flow_dict o) r (leader_in item.1)) rides)))
         (map_to_list offers).
Proof.
  unfold leveling_cost.
  rewrite (zsum_perm _ _ _ (map_entries _ offers (allocation o) outcome_lists)).
  by rewrite zsum_fmap.
Qed.

Lemma leveling_cost_le_total_cost : leveling_cost (allocation o) ≤ total_cost o.
Proof.
  destruct outcome_optimal as ((Hshape & Hflow & _) & ->).
  rewrite leveling_cost_outcome.
  by apply (cost_at_least_leveling rides offers (flow_dict o) (filled_count o)).
Qed.

Lemma total_cost_le_assignment m :
  assignment rides offers m → Z.of_nat (length m) = filled_count o →
  total_cost o ≤ assignment_cost offers m.
Proof.
  intros Hm Hlen. destruct outcome_optimal as ((_ & _ & _ & Hmin) & ->).
  rewrite <- (assignment_flow_cost rides offers m Hm).
  apply Hmin. rewrite <- Hlen. by apply assignment_flow_st_flow.
Qed.

End most_level.



(** ** The allocation as an assignment *)

Lemma load_swap (evs : list (string * string)) k :
  load (prod_swap <$> evs) k = length (appended k evs).
Proof.
  unfold load, appended. rewrite length_fmap.
  induction evs as [|[k' r] evs IH]; csimpl; [done |].
  rewrite !filter_cons. simpl. case_decide; simpl; by rewrite IH.
Qed.

Section allocation_assignment.
Context (nx : FlowSolver) `{!SolverContract nx}.
Context (rides : list string) (offers : Offers) (o : Outcome).
Hypothesis Hvalid : valid_input rides offers.
Hypothesis Hplain : plain_leader_ids offers.
Hypothesis Ho : solve nx rides offers = Some o.

Let evs := appends (flow_dict o) rides.

Lemma outcome_appends :
  flow_shape (built rides offers) (flow_dict o)
  ∧ st_flow (built rides offers) SOURCE SINK (flow_of (flow_dict o)) (filled_count o)
  ∧ Forall (λ e, is_Some (offers !! e.1)) evs
  ∧ ∀ k, allocation o !! k = (λ _, appended k evs) <$> offers !! k.
Proof.
  apply (solve_Some nx rides offers) in Ho as ((Hshape & Hflow & _) & _ & Hex & _).
  apply extract_allocations_Some in Hex as [Hkeys Hlook]. done.
Qed.

(** The appends, read as pairs (ride, leader), are an assignment. *)
Lemma appends_assignment : assignment rides offers (prod_swap <$> evs).
Proof.
  destruct outcome_appends as (Hshape & Hflow & Hkeys & Hlook). split.
  - rewrite <- list_fmap_compose.
    replace ((fst ∘ prod_swap) <$> evs) with (evs.*2)
      by (apply list_fmap_ext; by intros ? []).
    by apply (appends_rides_NoDup rides offers (flow_dict o) (filled_count o)).
  - apply Forall_fmap, Forall_forall. intros [k r] (r' & He & Hr')%list_elem_of_bind.
    pose proof (appends_of_ride _ r' _ He) as Heq. simpl in Heq. subst r'.
    apply (elem_of_appends_of_plain rides offers _ Hvalid Hplain Hshape) in He
      as (offs & HL & Hoffs & _); [| done].
    simpl. eauto.
Qed.

Lemma length_appends_outcome : Z.of_nat (length (prod_swap <$> evs)) = filled_count o.
Proof.
  destruct outcome_appends as (Hshape & Hflow & _). rewrite length_fmap.
  by apply (length_appends rides offers (flow_dict o)).
Qed.

Lemma assignment_cost_appends :
  assignment_cost offers (prod_swap <$> evs) = leveling_cost (allocation o).
Proof.
  destruct outcome_appends as (_ & _ & _ & Hlook).
  unfold assignment_cost, leveling_cost.
  rewrite (zsum_perm _ _ _ (map_entries (λ k, appended k evs) offers (allocation o) Hlook)).
  rewrite zsum_fmap. apply zsum_ext. intros [k offs] _. simpl. by rewrite load_swap.
Qed.

Lemma allocation_pairs_appends : allocation_pairs (allocation o) ≡ₚ prod_swap <$> evs.
Proof.
  destruct outcome_appends as (Hshape & Hflow & Hkeys & Hlook).
  pose proof (appends_rides_NoDup rides offers (flow_dict o) (filled_count o)
                Hvalid Hshape Hflow) as Hnd.
  apply NoDup_Permutation.
  - unfold allocation_pairs. apply NoDup_bind.
    + intros [k l] [k' l'] e Hk Hk' (r & -> & _)%list_elem_of_fmap
        (r' & [= _ Hkk] & _)%list_elem_of_fmap.
      simpl in *. subst k'. f_equal.
      apply elem_of_map_to_list in Hk, Hk'. congruence.
    + intros [k l] Hk%elem_of_map_to_list. simpl.
      apply NoDup_fmap_2; [by intros r r' [= ->] |].
      rewrite Hlook in Hk. apply fmap_Some in Hk as (offs & _ & ->).
      by apply appended_NoDup.
    + apply NoDup_map_to_list.
  - apply (NoDup_fmap_1 fst). rewrite <- list_fmap_compose.
    replace ((fst ∘ prod_swap) <$> evs) with (evs.*2)
      by (apply list_fmap_ext; by intros ? []).
    done.
  - intros [r k]. unfold allocation_pairs.
    rewrite list_elem_of_bind, list_elem_of_fmap. split.
    + intros ([k' l] & (r' & [= -> ->] & Hr)%list_elem_of_fmap & Hk%elem_of_map_to_list).
      simpl in *. rewrite Hlook in Hk. apply fmap_Some in Hk as (offs & _ & ->).
      apply elem_of_appended in Hr. by exists (k', r').
    + intros ([k' r'] & [= -> ->] & He).
      rewrite Forall_forall in Hkeys. destruct (Hkeys _ He) as [offs Hoffs]. simpl in *.
      exists (k', appended k' evs). split.
      * apply list_elem_of_fmap. exists r'. split; [done |]. by apply elem_of_appended.
      * apply elem_of_map_to_list. by rewrite Hlook, Hoffs.
Qed.

End allocation_assignment.

Global Instance assignment_proper rides offers :
  Proper ((≡ₚ) ==> iff) (assignment rides offers).
Proof.
  intros m m' Hperm. unfold assignment. by rewrite Hperm.
Qed.

(** X13.  For every valid input in which no leader id contains ["_in"],
    the pairs (ride, leader) of the returned allocation give every ride to
    one leader at most, who offered it, and there are [filled_count] of
    them: the greatest number any such assignment can have is reached. *)
Theorem allocation_is_an_assignment (nx : FlowSolver) `{!SolverContract nx}
    (rides : list string) (leader_offers : Offers) (o : Outcome) :
  valid_input rides leader_offers → plain_leader_ids leader_offers →
  solve nx rides leader_offers = Some o →
  assignment rides leader_offers (allocation_pairs (allocation o))
  ∧ Z.of_nat (length (allocation_pairs (allocation o))) = filled_count o.
Proof.
  intros Hvalid Hplain Ho.
  pose proof (allocation_pairs_appends nx rides leader_offers o Hvalid Ho) as Hperm.
  rewrite Hperm. split.
  - by apply (appends_assignment nx rides leader_offers o).
  - by apply (length_appends_outcome nx rides leader_offers o).
Qed.

Lemma allocation_is_an_assignment_witness :
  ∃ o, solve exhaustive one_ride one_offer = Some o
       ∧ assignment one_ride one_offer (allocation_pairs (allocation o)).
Proof.
  assert (is_Some (solve exhaustive one_ride one_offer)) as [o Ho].
  { apply (bool_decide_unpack _). by vm_compute. }
  exists o. split; [exact Ho |].
  refine (proj1 (allocation_is_an_assignment exhaustive one_ride one_offer o _ _ Ho)).
  - apply (bool_decide_unpack _). by vm_compute.
  - apply (bool_decide_unpack _). by vm_compute.
Defined.



(** * minimal_example.py *)

(** ** Runs *)

Lemma run_bind_ok {S A B} (m : Run S A) (f : A → Run S B) s out s' out' x :
  m s out = ((s', out'), inr x) → (m ≫= f) s out = f x s' out'.
Proof. intros H. unfold mbind, run_bind. by rewrite H. Qed.

Lemma run_bind_raise {S A B} (m : Run S A) (f : A → Run S B) s out w e :
  m s out = (w, inl e) → (m ≫= f) s out = (w, inl e).
Proof. intros H. unfold mbind, run_bind. rewrite H. by destruct w. Qed.

(** A loop whose body only prints. *)
Lemma for_each_print {S A} (l : list A) (h : A → string) (s : S) out :
  for_each l (λ x, print (h x)) s out = ((s, out ++ (h <$> l)), inr tt).
Proof.
  revert out. induction l as [|x l IH]; intros out; csimpl.
  - by rewrite app_nil_r.
  - rewrite (run_bind_ok _ _ s out s (out ++ [h x]) tt) by done.
    by rewrite IH, <- (assoc_L (++)).
Qed.

(** A loop over a body that leaves the state alone and, on each element,
    either prints one line or raises. *)
Lemma for_each_ok {S A} (l : list A) (body : A → Run S unit) (h : A → list string)
    (s : S) out :
  (∀ x out, x ∈ l → body x s out = ((s, out ++ h x), inr tt)) →
  for_each l body s out = ((s, out ++ (l ≫= h)), inr tt).
Proof.
  revert out. induction l as [|x l IH]; intros out Hbody; csimpl.
  - by rewrite app_nil_r.
  - rewrite (run_bind_ok _ _ s out s (out ++ h x) tt) by (apply Hbody; by left).
    rewrite IH by (intros; apply Hbody; by right).
    by rewrite <- (assoc_L (++)).
Qed.

Lemma for_each_raise {S A} (P : Raised → Prop) (l : list A) (body : A → Run S unit)
    (s : S) out x :
  x ∈ l →
  (∀ y out, y ∈ l → (∃ out', body y s out = ((s, out'), inr tt))
                    ∨ ∃ out' e, P e ∧ body y s out = ((s, out'), inl e)) →
  (∀ out, ∃ out' e, body x s out = ((s, out'), inl e)) →
  ∃ out' e, P e ∧ for_each l body s out = ((s, out'), inl e).
Proof.
  revert out. induction l as [|y l IH]; intros out Hx Hall Hbad.
  - by apply elem_of_nil in Hx.
  - simpl. destruct (Hall y out (list_elem_of_here _ _)) as [[out' Hy]|(out' & e & He & Hy)].
    + rewrite (run_bind_ok _ _ _ _ _ _ _ Hy).
      apply elem_of_cons in Hx as [->|Hx].
      * destruct (Hbad out) as (out'' & e & He). congruence.
      * apply IH; [done | | done]. intros z out'' Hz. apply Hall. by right.
    + rewrite (run_bind_raise _ _ _ _ _ _ Hy). eauto.
Qed.

Module MinimalExampleFacts.
Import MinimalExample.

Lemma edge_weight_ok G out u v a :
  is_Some (nodes G !! u) → edge G u v = Some a →
  edge_weight u v G out = ((G, out), inr (weight a)).
Proof.
  intros [d Hu] He. unfold edge_weight.
  rewrite (run_bind_ok _ _ G out G out G) by done. by rewrite Hu, He.
Qed.

Lemma edge_weight_raise G out u v :
  nodes G !! u = None ∨ edge G u v = None →
  ∃ key, edge_weight u v G out = ((G, out), inl (KeyError key)).
Proof.
  intros Hbad. unfold edge_weight.
  rewrite (run_bind_ok _ _ G out G out G) by done.
  destruct (nodes G !! u) as [d|]; [| by eauto].
  destruct (edge G u v) as [a|]; [| by eauto]. by destruct Hbad.
Qed.

Lemma flow_entry_ok G out u entry :
  readable G u entry.1 →
  (w ← edge_weight u entry.1;
   print ("Flow from " +:+ u +:+ " to " +:+ entry.1 +:+ ": "
          +:+ str_of_int entry.2 +:+ ", cost: " +:+ str_of_int (w * entry.2))) G out
  = ((G, out ++ [flow_line G u entry]), inr tt).
Proof.
  intros [Hu [a He]].
  rewrite (run_bind_ok _ _ _ _ _ _ _ (edge_weight_ok G out u entry.1 a Hu He)).
  unfold flow_line. by rewrite He.
Qed.

Lemma flow_entry_raise G out u entry :
  ¬ readable G u entry.1 →
  ∃ key,
    (w ← edge_weight u entry.1;
     print ("Flow from " +:+ u +:+ " to " +:+ entry.1 +:+ ": "
            +:+ str_of_int entry.2 +:+ ", cost: " +:+ str_of_int (w * entry.2))) G out
    = ((G, out), inl (KeyError key)).
Proof.
  intros Hbad. destruct (edge_weight_raise G out u entry.1) as [key Hkey].
  - unfold readable in Hbad.
    destruct (nodes G !! u); [| by left]. destruct (edge G u entry.1); [| by right].
    exfalso. apply Hbad. eauto.
  - exists key. by rewrite (run_bind_raise _ _ _ _ _ _ Hkey).
Qed.

Lemma print_flow_ok flow_dict G out :
  (∀ u nb v x, flow_dict !! u = Some nb → nb !! v = Some x → readable G u v) →
  print_flow flow_dict G out
  = ((G, out ++ (nl +:+ "Flow on each edge:")
             :: (map_to_list flow_dict ≫= λ item, flow_line G item.1 <$> map_to_list item.2)),
     inr tt).
Proof.
  intros Hall. unfold print_flow.
  rewrite (run_bind_ok _ _ G out G (out ++ [nl +:+ "Flow on each edge:"]) tt) by done.
  rewrite (for_each_ok _ _ (λ item, flow_line G item.1 <$> map_to_list item.2)).
  - by rewrite <- (assoc_L (++)).
  - intros [u nb] out' Hu%elem_of_map_to_list. simpl.
    rewrite (for_each_ok _ _ (λ entry, [flow_line G u entry])).
    + assert (map_to_list nb ≫= (λ entry, [flow_line G u entry])
              = flow_line G u <$> map_to_list nb) as ->; [| done].
      induction (map_to_list nb) as [|e l IH]; csimpl; [done | by rewrite IH].
    + intros [v x] out'' Hv%elem_of_map_to_list. apply flow_entry_ok. simpl.
      by apply (Hall u nb v x).
Qed.

Global Instance readable_dec G u v : Decision (readable G u v).
Proof. unfold readable. apply _. Defined.

Lemma print_flow_raise flow_dict G out u nb v x :
  flow_dict !! u = Some nb → nb !! v = Some x → ¬ readable G u v →
  ∃ out' key, print_flow flow_dict G out = ((G, out'), inl (KeyError key)).
Proof.
  intros Hu Hv Hbad. unfold print_flow.
  rewrite (run_bind_ok _ _ G out G (out ++ [nl +:+ "Flow on each edge:"]) tt) by done.
  assert (∀ u' nb' out', 
    (∃ out'', for_each (map_to_list nb') (λ entry,
        w ← edge_weight u' entry.1;
        print ("Flow from " +:+ u' +:+ " to " +:+ entry.1 +:+ ": "
               +:+ str_of_int entry.2 +:+ ", cost: " +:+ str_of_int (w * entry.2))) G out'
      = ((G, out''), inr tt))
    ∨ ∃ out'' e, is_key_error e ∧ for_each (map_to_list nb') (λ entry,
        w ← edge_weight u' entry.1;
        print ("Flow from " +:+ u' +:+ " to " +:+ entry.1 +:+ ": "
               +:+ str_of_int entry.2 +:+ ", cost: " +:+ str_of_int (w * entry.2))) G out'
      = ((G, out''), inl e)) as Hinner.
  { intros u' nb' out'.
    destruct (decide (Forall (λ entry, readable G u' entry.1) (map_to_list nb')))
      as [Hok|Hnot].
    - left. eexists. apply (for_each_ok _ _ (λ entry, [flow_line G u' entry])).
      intros entry out'' He. apply flow_entry_ok.
      by eapply Forall_forall in Hok.
    - right. apply not_Forall_Exists in Hnot; [| apply _].
      apply Exists_exists in Hnot as (entry & He & Hentry).
      apply (for_each_raise is_key_error _ _ G out' entry He).
      + intros y out'' Hy. destruct (decide (readable G u' y.1)) as [Hr|Hr].
        * left. eexists. by apply flow_entry_ok.
        * right. destruct (flow_entry_raise G out'' u' y Hr) as [key Hkey].
          exists out'', (KeyError key). split; [by exists key | done].
      + intros out''. destruct (flow_entry_raise G out'' u' entry Hentry) as [key Hkey].
        eauto. }
  destruct (for_each_raise is_key_error (map_to_list flow_dict)
              (λ item, for_each (map_to_list item.2) (λ entry,
                 w ← edge_weight item.1 entry.1;
                 print ("Flow from " +:+ item.1 +:+ " to " +:+ entry.1 +:+ ": "
                        +:+ str_of_int entry.2 +:+ ", cost: "
                        +:+ str_of_int (w * entry.2))))
              G (out ++ [nl +:+ "Flow on each edge:"]) (u, nb))
    as (out' & e & [key ->] & Hrun).
  - by apply elem_of_map_to_list.
  - intros [u' nb'] out' _. apply Hinner.
  - intros out'. simpl.
    destruct (for_each_raise is_key_error (map_to_list nb)
                (λ entry, w ← edge_weight u entry.1;
                   print ("Flow from " +:+ u +:+ " to " +:+ entry.1 +:+ ": "
                          +:+ str_of_int entry.2 +:+ ", cost: "
                          +:+ str_of_int (w * entry.2)))
                G out' (v, x))
      as (out'' & e & _ & Hrun).
    + by apply elem_of_map_to_list.
    + intros y out'' Hy. destruct (decide (readable G u y.1)) as [Hr|Hr].
      * left. eexists. by apply flow_entry_ok.
      * right. destruct (flow_entry_raise G out'' u y Hr) as [key Hkey].
        exists out'', (KeyError key). split; [by exists key | done].
    + intros out''. destruct (flow_entry_raise G out'' u (v, x) Hbad) as [key Hkey]. eauto.
    + eauto.
  - eauto.
Qed.

End MinimalExampleFacts.

Module MinimalExampleGraph.
Import MinimalExample.

(** X?.  [print_flow] prints its heading and one line for every entry of
    the flow dictionary when every entry is under a node of [G] and names
    an edge of [G]; otherwise it raises a [KeyError], from [G[u][v]].  It
    leaves the graph as it is. *)
Theorem print_flow_key_error (flow_dict : FlowDict) (G : DiGraph) (out : list string) :
  ((∀ u nb v x, flow_dict !! u = Some nb → nb !! v = Some x → readable G u v) →
   print_flow flow_dict G out
   = ((G, out ++ (nl +:+ "Flow on each edge:")
              :: (map_to_list flow_dict ≫= λ item,
                    flow_line G item.1 <$> map_to_list item.2)),
      inr tt))
  ∧ ((∃ u nb v x, flow_dict !! u = Some nb ∧ nb !! v = Some x ∧ ¬ readable G u v) →
     ∃ out' key, print_flow flow_dict G out = ((G, out'), inl (KeyError key))).
Proof.
  split.
  - apply MinimalExampleFacts.print_flow_ok.
  - intros (u & nb & v & x & Hu & Hv & Hbad).
    by apply (MinimalExampleFacts.print_flow_raise flow_dict G out u nb v x).
Qed.

Lemma example_graph_tidy : tidy example_graph.
Proof.
  unfold example_graph.
  repeat (apply tidy_add_edge; [lia |]). apply tidy_empty.
Qed.

Lemma example_node_list : node_list example_graph ≡ₚ ["a"; "b"; "c"; "d"].
Proof.
  apply NoDup_Permutation.
  - apply NoDup_fst_map_to_list.
  - apply (bool_decide_unpack _). by vm_compute.
  - intros n. rewrite elem_of_node_list. unfold example_graph.
    rewrite !is_node_add_edge. unfold SOURCE, SINK.
    rewrite !elem_of_cons, elem_of_nil. split.
    + intros [->|[->|[->|[->|[->|[->|[->|[->|[x Hx]]]]]]]]]; auto 6. done.
    + intros [->|[->|[->|[->|[]]]]]; auto 8.
Qed.

Lemma example_source_node : is_Some (nodes example_graph !! SOURCE).
Proof. apply elem_of_node_list. rewrite example_node_list. by left. Qed.

Lemma example_sink_node : is_Some (nodes example_graph !! SINK).
Proof. apply elem_of_node_list. rewrite example_node_list. do 3 right. by left. Qed.

Section with_demands.
Context (G : DiGraph) (sd kd : Z).
Hypothesis HG : example_with_demands G sd kd.

Lemma example_wf : wf G.
Proof.
  destruct HG as (Hadj & Hnodes & _).
  apply (wf_adj example_graph G Hadj Hnodes), example_graph_tidy.
Qed.

Lemma example_caps : caps_nonneg G.
Proof.
  destruct HG as (Hadj & _).
  apply (caps_nonneg_adj example_graph G Hadj), example_graph_tidy.
Qed.

Lemma example_node_list_demands : node_list G ≡ₚ ["a"; "b"; "c"; "d"].
Proof.
  destruct HG as (_ & Hnodes & _). rewrite <- example_node_list.
  apply NoDup_Permutation; [apply NoDup_fst_map_to_list.. |].
  intros n. by rewrite !elem_of_node_list.
Qed.

Lemma example_number_of_nodes : number_of_nodes G = 4.
Proof.
  unfold number_of_nodes. rewrite <- size_dom.
  replace (dom (nodes G)) with (dom (nodes example_graph)).
  - rewrite size_dom. by vm_compute.
  - destruct HG as (_ & Hnodes & _). apply set_eq. intros n.
    by rewrite !elem_of_dom.
Qed.

Lemma example_number_of_edges : number_of_edges G = 4.
Proof.
  destruct HG as (Hadj & _). unfold number_of_edges, edge_list. rewrite Hadj.
  by vm_compute.
Qed.

(** Setting the demands again keeps the shape. *)
Lemma set_demands_example out sd' kd' :
  ∃ G', set_demands sd' kd' G out = ((G', out), inr tt)
        ∧ example_with_demands G' sd' kd'.
Proof.
  destruct HG as (Hadj & Hnodes & Hs & Ht & Hother).
  destruct (set_demand SOURCE sd' G) as [G1|] eqn:H1.
  2:{ unfold set_demand in H1. destruct (proj2 (Hnodes SOURCE) example_source_node) as [d Hd].
      by rewrite Hd in H1. }
  destruct (set_demand SINK kd' G1) as [G2|] eqn:H2.
  2:{ unfold set_demand in H2.
      destruct (proj2 (set_demand_is_node _ _ _ _ SINK H1)
                  (proj2 (Hnodes SINK) example_sink_node)) as [d Hd].
      by rewrite Hd in H2. }
  exists G2. split.
  - unfold set_demands, assign_demand.
    rewrite (run_bind_ok _ _ G out G1 out tt).
    + rewrite (run_bind_ok _ _ G1 out G1 out G1) by done. by rewrite H2.
    + rewrite (run_bind_ok _ _ G out G out G) by done. by rewrite H1.
  - pose proof (set_demand_inv _ _ _ _ H1) as (_ & _ & Ha1).
    pose proof (set_demand_inv _ _ _ _ H2) as (_ & _ & Ha2).
    split; [congruence |]. split.
    { intros n. rewrite (set_demand_is_node _ _ _ _ n H2),
        (set_demand_is_node _ _ _ _ n H1). apply Hnodes. }
    rewrite !(set_demand_demand _ _ _ _ _ H2), !(set_demand_demand _ _ _ _ _ H1).
    split; [by rewrite decide_False, decide_True |].
    split; [by rewrite decide_True |].
    intros n Hns Hnt. rewrite (set_demand_demand _ _ _ _ _ H2),
      (set_demand_demand _ _ _ _ _ H1), !decide_False by done. by apply Hother.
Qed.

End with_demands.

End MinimalExampleGraph.

Module MinimalExampleFlows.
Import MinimalExample MinimalExampleGraph.

Lemma example_source_not_sink : SOURCE ≠ SINK.
Proof. done. Qed.

Lemma example_flow_ok k :
  0 ≤ k ≤ 3 → st_flow example_graph SOURCE SINK (example_flow k) k.
Proof.
  intros Hk. assert (k = 0 ∨ k = 1 ∨ k = 2 ∨ k = 3) as [->|[->|[->| ->]]] by lia;
    apply st_flow_listed_sound; apply (bool_decide_unpack _); by vm_compute.
Qed.

Lemma example_flow_cost k :
  0 ≤ k ≤ 3 → cost example_graph (example_flow k) = example_cost k.
Proof.
  intros Hk. assert (k = 0 ∨ k = 1 ∨ k = 2 ∨ k = 3) as [->|[->|[->| ->]]] by lia;
    by vm_compute.
Qed.

(** No more than 3 units leave the source, and none comes back. *)
Lemma example_value_bounds f F :
  st_flow example_graph SOURCE SINK f F → 0 ≤ F ≤ 3.
Proof.
  intros Hf. destruct example_graph_tidy as (Hwf & _).
  pose proof (cut_bound example_graph SOURCE SINK f F (example_potential 1) Hwf Hf
                example_source_not_sink example_source_node example_sink_node) as Hup.
  pose proof (cut_bound example_graph SOURCE SINK f F example_back_cut Hwf Hf
                example_source_not_sink example_source_node example_sink_node) as Hdown.
  replace (cut_value example_graph (example_potential 1)) with 3 in Hup by (by vm_compute).
  replace (cut_value example_graph example_back_cut) with 0 in Hdown by (by vm_compute).
  change (example_potential 1 SINK - example_potential 1 SOURCE) with 1 in Hup.
  change (example_back_cut SINK - example_back_cut SOURCE) with (-1) in Hdown.
  lia.
Qed.

(** A unit costs 2 at least, and every unit after the first 3. *)
Lemma example_cost_bound f F :
  st_flow example_graph SOURCE SINK f F → example_cost F ≤ cost example_graph f.
Proof.
  intros Hf. destruct example_graph_tidy as (Hwf & _).
  pose proof (example_value_bounds f F Hf) as HF.
  pose proof (dual_bound_st example_graph SOURCE SINK f F (example_potential 2) Hwf Hf
                example_source_not_sink example_source_node example_sink_node) as H2.
  pose proof (dual_bound_st example_graph SOURCE SINK f F (example_potential 3) Hwf Hf
                example_source_not_sink example_source_node example_sink_node) as H3.
  unfold dual_value_st in H2, H3.
  change (example_potential 2 SINK - example_potential 2 SOURCE) with 2 in H2.
  change (example_potential 3 SINK - example_potential 3 SOURCE) with 3 in H3.
  match type of H2 with _ + ?z ≤ _ => replace z with 0 in H2 by (by vm_compute) end.
  match type of H3 with _ + ?z ≤ _ => replace z with (-1) in H3 by (by vm_compute) end.
  unfold example_cost. lia.
Qed.

Section demands.
Context (G : DiGraph) (sd kd : Z).
Hypothesis HG : example_with_demands G sd kd.

(** A flow can meet the demands only when they cancel and the sink asks
    for between 0 and 3 units. *)
Lemma demands_feasible f : demand_flow G f → sd = - kd ∧ 0 ≤ kd ≤ 3.
Proof.
  intros Hf. pose proof (example_wf G sd kd HG) as Hwf.
  assert (sd = - kd) as Hsum.
  { pose proof (net_flow_total G f Hwf) as Hnet.
    rewrite (zsum_ext _ (demand G)) in Hnet.
    2:{ intros n Hn%elem_of_node_list. by apply Hf. }
    rewrite (zsum_perm _ _ _ (example_node_list_demands G sd kd HG)) in Hnet.
    destruct HG as (_ & _ & Hs & Ht & Hother). cbn [zsum] in Hnet.
    change "a" with SOURCE in Hnet. change "d" with SINK in Hnet.
    rewrite Hs, Ht, (Hother "b"), (Hother "c") in Hnet by done. lia. }
  split; [done |]. subst sd.
  destruct HG as (Hadj & Hnodes & Hs & Ht & Hother).
  apply (example_value_bounds f).
  apply (demand_flow_st_flow example_graph G SOURCE SINK kd);
    auto using example_source_node, example_sink_node, example_source_not_sink.
Qed.

End demands.

Section min_cost.
Context (nx : FlowSolver) `{!SolverContract nx}.
Context (G : DiGraph) (k : Z).
Hypothesis HG : example_with_demands G (- k) k.
Hypothesis Hk : 0 ≤ k ≤ 3.

Lemma min_cost_example :
  ∃ flow_dict,
    min_cost_flow nx G = FlowFound flow_dict
    ∧ flow_shape G flow_dict
    ∧ cost G (flow_of flow_dict) = example_cost k.
Proof.
  pose proof (example_wf G _ _ HG) as Hwf. pose proof (example_caps G _ _ HG) as Hcaps.
  destruct HG as (Hadj & Hnodes & Hs & Ht & Hother).
  destruct example_graph_tidy as (Hwf0 & _).
  assert (demand_flow G (example_flow k)) as Hbest.
  { apply (st_flow_demand_flow example_graph G SOURCE SINK k);
      auto using example_source_node, example_sink_node, example_source_not_sink, example_flow_ok. }
  pose proof (min_cost_flow_spec G Hwf Hcaps) as Hspec.
  destruct (min_cost_flow nx G) as [fd|]; [| by destruct (Hspec _ Hbest)].
  destruct Hspec as (Hshape & Hdf & Hmin). exists fd. split; [done |]. split; [done |].
  apply Z.le_antisymm.
  - rewrite <- (example_flow_cost k Hk), <- (cost_adj example_graph G _ Hadj).
    by apply Hmin.
  - rewrite (cost_adj example_graph G _ Hadj). apply example_cost_bound.
    apply (demand_flow_st_flow example_graph G SOURCE SINK k);
      auto using example_source_node, example_sink_node, example_source_not_sink.
Qed.

End min_cost.

Section max_flow.
Context (nx : FlowSolver) `{!SolverContract nx}.
Context (G : DiGraph) (sd kd : Z).
Hypothesis HG : example_with_demands G sd kd.

Lemma st_flow_example f F :
  st_flow G SOURCE SINK f F ↔ st_flow example_graph SOURCE SINK f F.
Proof.
  destruct HG as (Hadj & Hnodes & _). unfold st_flow, capacity_ok. split.
  - intros (Hcap & Hcons & HF). split; [| split].
    + intros u v a He. apply Hcap. by rewrite (edge_adj example_graph G).
    + intros n Hn Hs Ht. rewrite <- (in_flow_adj example_graph G), <- (out_flow_adj example_graph G) by done.
      apply Hcons; [by apply Hnodes | done..].
    + by rewrite <- (in_flow_adj example_graph G), <- (out_flow_adj example_graph G).
  - intros (Hcap & Hcons & HF). split; [| split].
    + intros u v a He. apply Hcap. by rewrite <- (edge_adj example_graph G).
    + intros n Hn Hs Ht. rewrite (in_flow_adj example_graph G), (out_flow_adj example_graph G) by done.
      apply Hcons; [by apply Hnodes | done..].
    + by rewrite (in_flow_adj example_graph G), (out_flow_adj example_graph G).
Qed.

Lemma max_flow_example :
  (maximum_flow nx G SOURCE SINK).1 = 3
  ∧ flow_shape G (maximum_flow nx G SOURCE SINK).2.
Proof.
  pose proof (example_wf G _ _ HG) as Hwf. pose proof (example_caps G _ _ HG) as Hcaps.
  destruct (maximum_flow_spec G SOURCE SINK Hwf Hcaps) as (Hshape & Hflow & Hmax).
  - apply HG, example_source_node.
  - apply HG, example_sink_node.
  - apply example_source_not_sink.
  - split; [| done]. apply Z.le_antisymm.
    + apply st_flow_example in Hflow. apply example_value_bounds in Hflow. lia.
    + apply (Hmax (example_flow 3)). apply st_flow_example, example_flow_ok. lia.
Qed.

End max_flow.

(** A flow dictionary laid out on the graph names only edges of it. *)
Lemma flow_shape_readable G flow_dict u nb v x :
  flow_shape G flow_dict → flow_dict !! u = Some nb → nb !! v = Some x →
  readable G u v.
Proof.
  intros [Hdom Hsucc] Hu Hv. split.
  - apply elem_of_dom. rewrite <- Hdom. apply elem_of_dom. eauto.
  - apply elem_of_dom. unfold edge. rewrite <- (Hsucc u nb Hu). apply elem_of_dom. eauto.
Qed.

End MinimalExampleFlows.

Module MinimalExampleRuns.
Import MinimalExample MinimalExampleGraph MinimalExampleFlows.

Lemma setup_the_graph_run G out :
  setup_the_graph G out
  = ((add_edge "c" SINK 1 0 (add_edge SOURCE "c" 1 2
        (add_edge "b" SINK 2 0 (add_edge SOURCE "b" 2 3 G))), out), inr tt).
Proof. reflexivity. Qed.

Lemma example_graph_no_demands : example_with_demands example_graph 0 0.
Proof.
  destruct example_graph_tidy as (_ & _ & Hdem).
  split; [done |]. split; [done |]. repeat split; intros; apply Hdem.
Qed.

Lemma assert_true {S} (b : bool) message (s : S) out :
  b = true → assert_ b message s out = ((s, out), inr tt).
Proof. by intros ->. Qed.

Lemma assert_false {S} (b : bool) message (s : S) out :
  b = false → assert_ b message s out = ((s, out), inl (AssertionError message)).
Proof. by intros ->. Qed.

Lemma print_graph_info_run G out :
  ∃ out', print_graph_info G out = ((G, out'), inr tt).
Proof.
  unfold print_graph_info.
  rewrite (run_bind_ok _ _ G out G (out ++ ["Graph nodes and their attributes:"]) tt)
    by done.
  rewrite (run_bind_ok _ _ G _ G _ G) by done.
  rewrite (run_bind_ok _ _ _ _ _ _ _ (for_each_print _ _ _ _)).
  match goal with
  | |- context [print ?line ≫= _] =>
      rewrite (run_bind_ok (print line) _ G _ G _ tt) by done
  end.
  rewrite for_each_print. eauto.
Qed.

Lemma min_cost_flow_of_G_run nx G out flow_dict :
  min_cost_flow nx G = FlowFound flow_dict →
  min_cost_flow_of_G nx G out = ((G, out), inr flow_dict).
Proof.
  intros H. unfold min_cost_flow_of_G.
  rewrite (run_bind_ok _ _ G out G out G) by done. by rewrite H.
Qed.

Lemma min_cost_flow_of_G_raise nx G out :
  min_cost_flow nx G = NetworkXUnfeasible →
  min_cost_flow_of_G nx G out = ((G, out), inl UnfeasibleRaised).
Proof.
  intros H. unfold min_cost_flow_of_G.
  rewrite (run_bind_ok _ _ G out G out G) by done. by rewrite H.
Qed.

(** X?.  Starting from the empty graph of the module,
    [setup_the_graph()], [set_demands(sd, kd)] and [nx.min_cost_flow(G)]
    end in [NetworkXUnfeasible] unless [sd = -kd] and [0 <= kd <= 3];
    then a flow is returned and its cost is 2 for the first unit and 3 for
    each further one (2 for demand 1 and 5 for demand 2, as [tests()]
    asserts).  Nothing is printed. *)
Theorem example_min_cost_flow (nx : FlowSolver) `{!SolverContract nx}
    (source_demand sink_demand : Z) :
  ∃ G,
    example_with_demands G source_demand sink_demand
    ∧ if decide (source_demand = - sink_demand ∧ 0 ≤ sink_demand ≤ 3)
      then ∃ flow_dict,
             (setup_the_graph;; set_demands source_demand sink_demand;;
              min_cost_flow_of_G nx) DiGraph.empty []
             = ((G, []), inr flow_dict)
             ∧ cost G (flow_of flow_dict) = example_cost sink_demand
      else (setup_the_graph;; set_demands source_demand sink_demand;;
            min_cost_flow_of_G nx) DiGraph.empty []
           = ((G, []), inl UnfeasibleRaised).
Proof.
  destruct (set_demands_example example_graph 0 0 example_graph_no_demands []
              source_demand sink_demand) as (G & Hset & HG).
  exists G. split; [done |].
  assert (∀ r, min_cost_flow_of_G nx G [] = r →
               (setup_the_graph;; set_demands source_demand sink_demand;;
                min_cost_flow_of_G nx) DiGraph.empty [] = r) as Hrun.
  { intros r <-.
    rewrite (run_bind_ok _ _ _ _ _ _ _ (setup_the_graph_run DiGraph.empty [])).
    fold example_graph. by rewrite (run_bind_ok _ _ _ _ _ _ _ Hset). }
  case_decide as Hd.
  - destruct Hd as [-> Hk].
    destruct (min_cost_example nx G sink_demand HG Hk) as (fd & Hfd & _ & Hcost).
    exists fd. split; [| done]. apply Hrun. by apply min_cost_flow_of_G_run.
  - apply Hrun, min_cost_flow_of_G_raise.
    pose proof (min_cost_flow_spec G (example_wf G _ _ HG) (example_caps G _ _ HG)) as Hspec.
    destruct (min_cost_flow nx G) as [fd|]; [| done].
    destruct Hspec as (_ & Hdf & _). exfalso. apply Hd.
    by apply (demands_feasible G _ _ HG (flow_of fd)).
Qed.

Lemma example_min_cost_flow_witness :
  ∃ G flow_dict,
    (setup_the_graph;; set_demands (-1) 1;; min_cost_flow_of_G exhaustive) DiGraph.empty []
    = ((G, []), inr flow_dict)
    ∧ cost G (flow_of flow_dict) = 2.
Proof.
  destruct (example_min_cost_flow exhaustive (-1) 1) as (G & _ & H).
  rewrite decide_True in H by lia.
  destruct H as (fd & Hrun & Hcost). exists G, fd. split; [exact Hrun | exact Hcost].
Defined.

(** X?.  [tests()], run on the empty graph the module starts with and
    with solvers that behave as NetworkX documents, raises nothing: the
    graph has 4 nodes and 4 edges, the maximum flow is 3, the cheapest
    flow for demand 1 costs 2 and the cheapest for demand 2 costs 5, and
    every [G[u][v]] that [print_flow] reads exists.  It leaves the demands
    -2 and 2 on the source and the sink. *)
Theorem example_tests_pass (nx : FlowSolver) `{!SolverContract nx} :
  ∃ G out, tests nx DiGraph.empty [] = ((G, out), inr tt)
           ∧ example_with_demands G (-2) 2.
Proof.
  unfold tests. cbv zeta.
  rewrite (run_bind_ok _ _ _ _ _ _ _ (setup_the_graph_run DiGraph.empty [])).
  fold example_graph.
  destruct (set_demands_example example_graph 0 0 example_graph_no_demands [] (-1) 1)
    as (G1 & Hset1 & HG1).
  rewrite (run_bind_ok _ _ _ _ _ _ _ Hset1).
  rewrite (run_bind_ok get _ G1 [] G1 [] G1) by done.
  rewrite (run_bind_ok _ _ G1 [] G1 [] tt).
  2:{ apply assert_true, bool_decide_eq_true_2, (example_number_of_nodes G1 _ _ HG1). }
  rewrite (run_bind_ok _ _ G1 [] G1 [] tt).
  2:{ apply assert_true, bool_decide_eq_true_2, (example_number_of_edges G1 _ _ HG1). }
  destruct (print_graph_info_run G1 []) as [out1 Hinfo].
  rewrite (run_bind_ok _ _ _ _ _ _ _ Hinfo).
  rewrite (run_bind_ok get _ G1 out1 G1 out1 G1) by done.
  destruct (max_flow_example nx G1 _ _ HG1) as [Hvalue Hshape].
  rewrite (run_bind_ok _ _ G1 out1 G1 out1 tt).
  2:{ by apply assert_true, bool_decide_eq_true_2. }
  match goal with
  | |- context [print ?line ≫= _] =>
      rewrite (run_bind_ok (print line) _ G1 out1 G1 (out1 ++ [line]) tt) by done
  end.
  rewrite (run_bind_ok _ _ _ _ _ _ _
             (MinimalExampleFacts.print_flow_ok _ G1 _
                (λ u nb v x, flow_shape_readable G1 _ u nb v x Hshape))).
  destruct (min_cost_example nx G1 1 HG1 ltac:(lia)) as (fd1 & Hfd1 & Hshape1 & Hcost1).
  rewrite (run_bind_ok _ _ _ _ _ _ _ (min_cost_flow_of_G_run nx G1 _ fd1 Hfd1)).
  match goal with
  | |- ∃ G out, (get ≫= _) G1 ?o = _ ∧ _ =>
      rewrite (run_bind_ok get _ G1 o G1 o G1) by done
  end.
  match goal with
  | |- ∃ G out, (assert_ _ _ ≫= _) G1 ?o = _ ∧ _ =>
      rewrite (run_bind_ok _ _ G1 o G1 o tt)
        by (apply assert_true, bool_decide_eq_true_2; exact Hcost1)
  end.
  match goal with
  | |- ∃ G out, (print ?line ≫= _) G1 ?o = _ ∧ _ =>
      rewrite (run_bind_ok (print line) _ G1 o G1 (o ++ [line]) tt) by done
  end.
  rewrite (run_bind_ok _ _ _ _ _ _ _
             (MinimalExampleFacts.print_flow_ok _ G1 _
                (λ u nb v x, flow_shape_readable G1 _ u nb v x Hshape1))).
  match goal with
  | |- ∃ G out, (set_demands _ _ ≫= _) G1 ?o = _ ∧ _ =>
      destruct (set_demands_example G1 _ _ HG1 o (-2) 2) as (G2 & Hset2 & HG2)
  end.
  rewrite (run_bind_ok _ _ _ _ _ _ _ Hset2).
  destruct (min_cost_example nx G2 2 HG2 ltac:(lia)) as (fd2 & Hfd2 & Hshape2 & Hcost2).
  rewrite (run_bind_ok _ _ _ _ _ _ _ (min_cost_flow_of_G_run nx G2 _ fd2 Hfd2)).
  match goal with
  | |- ∃ G out, (get ≫= _) G2 ?o = _ ∧ _ =>
      rewrite (run_bind_ok get _ G2 o G2 o G2) by done
  end.
  match goal with
  | |- ∃ G out, (assert_ _ _ ≫= _) G2 ?o = _ ∧ _ =>
      rewrite (run_bind_ok _ _ G2 o G2 o tt)
        by (apply assert_true, bool_decide_eq_true_2; exact Hcost2)
  end.
  match goal with
  | |- ∃ G out, (print ?line ≫= _) G2 ?o = _ ∧ _ =>
      rewrite (run_bind_ok (print line) _ G2 o G2 (o ++ [line]) tt) by done
  end.
  rewrite (MinimalExampleFacts.print_flow_ok _ G2 _
             (λ u nb v x, flow_shape_readable G2 _ u nb v x Hshape2)).
  eauto.
Qed.

Lemma example_tests_pass_witness :
  ∃ G out, tests exhaustive DiGraph.empty [] = ((G, out), inr tt).
Proof.
  destruct (example_tests_pass exhaustive) as (G & out & Hrun & _).
  exists G, out. exact Hrun.
Defined.

End MinimalExampleRuns.

(** * The self-test of the tool *)

(** X?.  [tests()] of ride_leader_allocation_tool.py, whatever the
    solvers do, prints its first heading and then raises
    [KeyError('expected_allocations')]: the vectors of test_vectors.py
    have the keys ['rides'] and ['leader_offers'] only.  No graph is built
    and no test case is run. *)
Theorem tool_tests_raise_key_error (nx : FlowSolver)
    (pprint : Allocations → list string)
    (generate_test_data : Run unit (list string * Offers)) :
  tests nx pprint generate_test_data tt []
  = ((tt, [nl +:+ "Running simple test case #1"]),
     inl (KeyError "expected_allocations")).
Proof. by vm_compute. Qed.
